(** * The request-execution pipeline of the WHOOP SDK

  A shallow embedding of the TypeScript sources of the pipeline:
  the error taxonomy ([errors/]), the retry helper ([utils/retry]),
  the cache ([utils/cache]), the request deduplicator
  ([utils/deduplication]), the OAuth token manager ([auth/oauth]) and the
  response handler of the HTTP client; then the code around them: the
  cache and deduplication keys, the request batching, the construction and
  the request loop of the HTTP client, and the optimized HTTP client
  ([utils/http-client]).

  Conventions of the embedding.
  - JavaScript numbers that hold counters, sizes and millisecond clocks are
    integers of [Z]; the two places where the source leaves the integers
    (the jittered retry delay and the 80% compression threshold) use exact
    rationals.
  - [Date.now()] is an argument of the operation that reads it.
  - A [Map] whose iteration order the code observes is an insertion-ordered
    association list ([JsMap]); the other maps are [gmap]s.
  - An [async] function is cut at its [await]s: the synchronous prefix is one
    step of a state machine, and the settlement of the awaited promise is
    another step that carries the outcome chosen by the environment.
  - Objects that are shared by several closures (a pending request and its
    abort controller) live in a store indexed by allocation number. *)

From Stdlib Require Import ZArith QArith Qminmax String List Bool Lia.
From stdpp Require Import base gmap strings list option pretty.

Local Open Scope Z_scope.

(** ** JavaScript values shared by all components *)

Module Js.

(** Truthiness of the primitives the sources test with [!x], [x || y]
    and [x ? a : b]. *)
Definition truthy_string (s : string) : bool := negb (String.eqb s "").
Definition truthy_number (z : Z) : bool := negb (z =? 0).

(** [a || b] where [a] is a possibly missing string. *)
Definition or_string (a : option string) (b : string) : string :=
  match a with
  | Some s => if truthy_string s then s else b
  | None => b
  end.

(** [a || b] where [a] and [b] are possibly missing strings. *)
Definition or_else_string (a b : option string) : option string :=
  match a with
  | Some s => if truthy_string s then Some s else b
  | None => b
  end.

(** An insertion-ordered [Map<string, V>]: [set] on a present key keeps
    the key's position, [set] on a new key appends. *)
Definition JsMap (V : Type) := list (string * V).

Fixpoint map_get {V} (k : string) (m : JsMap V) : option V :=
  match m with
  | [] => None
  | (k', v) :: m' => if String.eqb k k' then Some v else map_get k m'
  end.

Fixpoint map_set {V} (k : string) (v : V) (m : JsMap V) : JsMap V :=
  match m with
  | [] => [(k, v)]
  | (k', v') :: m' =>
      if String.eqb k k' then (k, v) :: m' else (k', v') :: map_set k v m'
  end.

Fixpoint map_delete {V} (k : string) (m : JsMap V) : JsMap V :=
  match m with
  | [] => []
  | (k', v') :: m' =>
      if String.eqb k k' then map_delete k m' else (k', v') :: map_delete k m'
  end.

Definition map_has {V} (k : string) (m : JsMap V) : bool :=
  match map_get k m with Some _ => true | None => false end.

Definition map_size {V} (m : JsMap V) : Z := Z.of_nat (length m).

Definition map_keys {V} (m : JsMap V) : list string := map fst m.

End Js.

(** ** Error taxonomy ([errors/base], [errors/api], [errors/oauth],
     [errors/factory]) *)

Module Errors.
Import Js.

(** The class of an error object; [instanceof] follows the [extends]
    chain below. *)
Inductive ErrorClass :=
| PlainError            (* the built-in Error *)
| TypeError             (* the built-in TypeError *)
| WhoopConfigError
| WhoopNetworkError
| WhoopTimeoutError
| WhoopOAuthError
| WhoopAPIError
| WhoopAuthError
| WhoopRateLimitError
| WhoopNotFoundError
| WhoopValidationError.

(** The fields of a parsed response body that the factory reads. *)
Record BodyFields := {
  b_message : option string;
  b_error : option string;
  b_error_description : option string;
  b_code : option string;
  b_retry_after : option Z      (* [retry_after] or ['retry-after'], after parseInt *)
}.

(** [responseBody]: [null] after a failed parse, the text, or the JSON
    object. *)
Inductive ResponseBody :=
| BNull
| BText (s : string)
| BJson (b : BodyFields).

#[warnings="-register-all"]
Inductive JsError := MkError {
  cls : ErrorClass;
  message : string;
  status : option Z;
  code : string;
  retryAfter : option Z;
  details : option ResponseBody;
  cause : option JsError
}.

(** What a [throw] or a rejected promise carries: an error object, or
    [undefined] (as in [throw lastError!] before any assignment). *)
Inductive Thrown :=
| ThrownUndefined
| ThrownError (e : JsError).

Inductive Completion (A : Type) :=
| Returns (a : A)
| Throws (t : Thrown).
Arguments Returns {A} a.
Arguments Throws {A} t.

Definition is_throw {A} (c : Completion A) : bool :=
  match c with Throws _ => true | Returns _ => false end.

(** [new Error(msg)] and the constructors of the SDK's classes. *)
Definition new_Error (msg : string) : JsError :=
  MkError PlainError msg None "" None None None.

Definition new_TypeError (msg : string) : JsError :=
  MkError TypeError msg None "" None None None.

Definition new_WhoopNetworkError (msg : string) (cause : option JsError) : JsError :=
  MkError WhoopNetworkError msg None "NETWORK_ERROR" None None cause.

Definition new_WhoopTimeoutError (msg : string) : JsError :=
  MkError WhoopTimeoutError msg None "TIMEOUT_ERROR" None None None.

Definition new_WhoopAPIError (status : Z) (code msg : string)
    (details : option ResponseBody) : JsError :=
  MkError WhoopAPIError msg (Some status) code None details None.

Definition new_WhoopAuthError (msg : string) (details : option ResponseBody) : JsError :=
  MkError WhoopAuthError msg (Some 401) "AUTH_ERROR" None details None.

Definition new_WhoopRateLimitError (msg : string) (retryAfter : option Z)
    (details : option ResponseBody) : JsError :=
  MkError WhoopRateLimitError msg (Some 429) "RATE_LIMIT_ERROR" retryAfter details None.

Definition new_WhoopNotFoundError (msg : string) (details : option ResponseBody) : JsError :=
  MkError WhoopNotFoundError msg (Some 404) "NOT_FOUND" None details None.

Definition new_WhoopValidationError (msg : string) (details : option ResponseBody) : JsError :=
  MkError WhoopValidationError msg (Some 400) "VALIDATION_ERROR" None details None.

(** [body?.field] *)
Definition body_field (f : BodyFields -> option string) (body : ResponseBody) : option string :=
  match body with BJson b => f b | _ => None end.

Definition body_retry_after (body : ResponseBody) : option Z :=
  match body with BJson b => b_retry_after b | _ => None end.

(** [WhoopAPIError.fromResponse] *)
Definition fromResponse (status : Z) (body : ResponseBody) : JsError :=
  let message :=
    or_string (or_else_string (body_field b_message body)
                              (body_field b_error_description body))
              ("HTTP " ++ pretty status ++ " Error") in
  let code :=
    or_string (or_else_string (body_field b_error body) (body_field b_code body))
              "API_ERROR" in
  (* typeof null and typeof {...} are both 'object' *)
  let details := match body with BText _ => None | _ => Some body end in
  new_WhoopAPIError status code message details.

(** [ErrorFactory.fromHttpStatus] *)
Definition fromHttpStatus (status : Z) (body : ResponseBody) : JsError :=
  if status =? 400 then
    new_WhoopValidationError (or_string (body_field b_message body) "Bad Request") (Some body)
  else if status =? 401 then
    new_WhoopAuthError (or_string (body_field b_message body) "Unauthorized") (Some body)
  else if status =? 404 then
    new_WhoopNotFoundError (or_string (body_field b_message body) "Not Found") (Some body)
  else if status =? 429 then
    let retryAfter :=
      match body_retry_after body with
      | Some r => if truthy_number r then Some r else None
      | None => None
      end in
    new_WhoopRateLimitError (or_string (body_field b_message body) "Rate limit exceeded")
                            retryAfter (Some body)
  else fromResponse status body.

(** [ErrorFactory.fromNetworkError] *)
Definition fromNetworkError (error : JsError) : JsError :=
  new_WhoopNetworkError ("Network error: " ++ message error) (Some error).

(** The [instanceof] guards. *)
Definition instance_of_APIError (c : ErrorClass) : bool :=
  match c with
  | WhoopAPIError | WhoopAuthError | WhoopRateLimitError
  | WhoopNotFoundError | WhoopValidationError => true
  | _ => false
  end.

Definition isWhoopAPIError (error : Thrown) : bool :=
  match error with
  | ThrownError e => instance_of_APIError (cls e)
  | ThrownUndefined => false
  end.

Definition isRateLimitError (error : Thrown) : bool :=
  match error with
  | ThrownError e => match cls e with WhoopRateLimitError => true | _ => false end
  | ThrownUndefined => false
  end.

Definition isAuthError (error : Thrown) : bool :=
  match error with
  | ThrownError e => match cls e with WhoopAuthError => true | _ => false end
  | ThrownUndefined => false
  end.

Definition isNetworkOrTimeout (error : Thrown) : bool :=
  match error with
  | ThrownError e =>
      match cls e with WhoopNetworkError | WhoopTimeoutError => true | _ => false end
  | ThrownUndefined => false
  end.

(** [WhoopAPIError.isServerError]; an error built without a status has
    [undefined >= 500], which is false. *)
Definition isServerError (e : JsError) : bool :=
  match status e with Some s => 500 <=? s | None => false end.

Record RetryInfo := { canRetry : bool; delayMs : option Z }.

(** [getRetryInfo] *)
Definition getRetryInfo (error : Thrown) : RetryInfo :=
  match error with
  | ThrownUndefined => {| canRetry := false; delayMs := None |}
  | ThrownError e =>
      if isRateLimitError error then
        {| canRetry := true;
           delayMs := Some (match retryAfter e with
                            | Some r => if truthy_number r then r * 1000 else 60000
                            | None => 60000
                            end) |}
      else if isWhoopAPIError error then
        {| canRetry := isServerError e; delayMs := Some 1000 |}
      else if isNetworkOrTimeout error then
        {| canRetry := true; delayMs := Some 1000 |}
      else {| canRetry := false; delayMs := None |}
  end.

End Errors.

(** ** Retry with exponential backoff ([utils/retry]) *)

Module Retry.
Import Js Errors.

(** [signal.aborted] as the loop reads it at the start of an attempt. *)
Definition AbortSignal := Z -> bool.

Record RetryOptions := {
  maxAttempts : option Z;
  baseDelayMs : option Z;
  maxDelayMs : option Z;
  signal : option AbortSignal
}.

(** What one call of [withRetry] did: how it settled, how often it invoked
    the operation, and the delays it slept. *)
Record RetryRun (T : Type) := {
  outcome : Completion T;
  calls : nat;
  sleeps : list Q
}.
Arguments outcome {T} r.
Arguments calls {T} r.
Arguments sleeps {T} r.

Section WithRetry.
Context {T : Type}.
(** The operation: the completion of its i-th invocation (from 1). *)
Variable fn : nat -> Completion T.
(** [Math.random()] at the i-th failed attempt, a number of [0, 1). *)
Variable random : nat -> Q.
Variables (maxAttempts_ baseDelayMs_ maxDelayMs_ : Z).
Variable signal_ : option AbortSignal.

Definition aborted (attempt : Z) : bool :=
  match signal_ with Some s => s attempt | None => false end.

(** The delay slept after the failure of [attempt]. *)
Definition finalDelay (attempt : Z) (retryInfo : RetryInfo) (r : Q) : Q :=
  let exponentialDelay := inject_Z (baseDelayMs_ * 2 ^ (attempt - 1)) in
  let jitteredDelay := (exponentialDelay * ((1 # 2) + r * (1 # 2)))%Q in
  let chosen :=
    match delayMs retryInfo with
    | Some d => if truthy_number d then inject_Z d else jitteredDelay
    | None => jitteredDelay
    end in
  Qmin chosen (inject_Z maxDelayMs_).

(** The [for] loop; [remaining] counts the iterations that
    [attempt <= maxAttempts] still allows, and leaving the loop reaches
    [throw lastError!]. *)
Fixpoint retryLoop (remaining : nat) (attempt : Z) (lastError : option Thrown)
    (calls_ : nat) (sleeps_ : list Q) : RetryRun T :=
  let throw_last (last : option Thrown) (n : nat) :=
    {| outcome := Throws (default ThrownUndefined last);
       calls := n; sleeps := sleeps_ |} in
  match remaining with
  | O => throw_last lastError calls_
  | S remaining' =>
      if aborted attempt then
        {| outcome := Throws (ThrownError (new_Error "Request aborted"));
           calls := calls_; sleeps := sleeps_ |}
      else
        match fn (S calls_) with
        | Returns v =>
            {| outcome := Returns v; calls := S calls_; sleeps := sleeps_ |}
        | Throws error =>
            if attempt =? maxAttempts_ then throw_last (Some error) (S calls_)
            else
              let retryInfo := getRetryInfo error in
              if negb (canRetry retryInfo) then throw_last (Some error) (S calls_)
              else
                retryLoop remaining' (attempt + 1) (Some error) (S calls_)
                  (sleeps_ ++ [finalDelay attempt retryInfo (random (S calls_))])
        end
  end.
End WithRetry.

(** [withRetry(fn, options)] *)
Definition withRetry {T} (fn : nat -> Completion T) (options : RetryOptions)
    (random : nat -> Q) : RetryRun T :=
  let maxAttempts_ := default 3 (maxAttempts options) in
  let baseDelayMs_ := default 1000 (baseDelayMs options) in
  let maxDelayMs_ := default 30000 (maxDelayMs options) in
  retryLoop fn random maxAttempts_ baseDelayMs_ maxDelayMs_ (signal options)
    (Z.to_nat maxAttempts_) 1 None 0%nat [].

End Retry.

(** ** The cache ([utils/cache]) *)

Module Cache.
Import Js Errors.

(** The built-ins of the JavaScript runtime that the cache calls on a
    cached value of type [V] (the class parameter [T] of [WhoopCache<T>]). *)
Class JsRuntime (V : Type) := {
  (** [JSON.stringify(v)]: a text, [undefined] (for [undefined] and
      functions), or a TypeError (circular structures, BigInt). *)
  JSON_stringify : V -> Completion (option string);
  (** [JSON.parse(text)] *)
  JSON_parse : string -> Completion V;
  (** [String(v)] *)
  String_of : V -> string;
  (** a string seen as a value of type [V] (the cast [as T]) *)
  of_string : string -> V;
  js_undefined : V;
  is_undefined : V -> bool
}.

(** [new Blob([s]).size]: the UTF-8 length of the text; an [undefined]
    part is converted to the text "undefined". Strings are byte strings. *)
Definition blob_size (s : option string) : Z :=
  match s with
  | Some s => Z.of_nat (String.length s)
  | None => 9
  end.

Record CacheConfig := {
  cfg_ttl : option Z;
  cfg_maxSize : option Z;
  cfg_compress : option bool;
  cfg_keyStrategy : option string
}.

(** [Required<CacheConfig>]. [ttl] and [maxSize] are integers here: a
    fractional [maxSize], which the source does not refuse, is outside
    this embedding. *)
Record Config := {
  c_ttl : Z;
  c_maxSize : Z;
  c_compress : bool;
  c_keyStrategy : string
}.

Record CacheEntry (V : Type) := {
  e_data : V;
  e_timestamp : Z;
  e_ttl : Z;
  e_accessCount : Z;
  e_lastAccessed : Z;
  e_compressed : bool;
  e_size : Z
}.
Arguments e_data {V} c.
Arguments e_timestamp {V} c.
Arguments e_ttl {V} c.
Arguments e_accessCount {V} c.
Arguments e_lastAccessed {V} c.
Arguments e_compressed {V} c.
Arguments e_size {V} c.

Record Stats := {
  hits : Z;
  misses : Z;
  evictions : Z;
  compressionSavings : Z
}.

Record WhoopCache (V : Type) := {
  cache : JsMap (CacheEntry V);
  accessOrder : JsMap Z;
  config : Config;
  accessCounter : Z;
  totalSize : Z;
  stats : Stats
}.
Arguments cache {V} w.
Arguments accessOrder {V} w.
Arguments config {V} w.
Arguments accessCounter {V} w.
Arguments totalSize {V} w.
Arguments stats {V} w.

(** The object returned by [getStats()]. *)
Record StatsReport := {
  r_hits : Z;
  r_misses : Z;
  r_evictions : Z;
  r_compressionSavings : Z;
  r_hitRate : Z;
  r_size : Z;
  r_totalMemory : Z;
  r_averageEntrySize : Z
}.

(** [x || 0] on a number *)
Definition or_zero (z : Z) : Z := if truthy_number z then z else 0.

(** [Math.round(a / b)] for [b > 0]: the nearest integer, halves up. *)
Definition round_div (a b : Z) : Z := (2 * a + b) / (2 * b).

Section Operations.
Context {V : Type} `{JsRuntime V}.

(** The constructor. *)
Definition new_WhoopCache (cfg : CacheConfig) : WhoopCache V :=
  {| cache := [];
     accessOrder := [];
     config := {| c_ttl := default (5 * 60 * 1000) (cfg_ttl cfg);
                  c_maxSize := default 1000 (cfg_maxSize cfg);
                  c_compress := default false (cfg_compress cfg);
                  c_keyStrategy := default "url"%string (cfg_keyStrategy cfg) |};
     accessCounter := 0;
     totalSize := 0;
     stats := {| hits := 0; misses := 0; evictions := 0; compressionSavings := 0 |} |}.

(** [estimateSize]: no handler around [JSON.stringify]. *)
Definition estimateSize (obj : V) : Completion Z :=
  match JSON_stringify obj with
  | Returns jsonString => Returns (blob_size jsonString)
  | Throws t => Throws t
  end.

(** [compress]: [JSON.stringify] guarded by try/catch. *)
Definition compress (data : V) : option string :=
  match JSON_stringify data with
  | Returns s => s
  | Throws _ => Some (String_of data)
  end.

(** [decompress]: [JSON.parse] guarded by try/catch. *)
Definition decompress (compressedData : V) : V :=
  match JSON_parse (String_of compressedData) with
  | Returns v => v
  | Throws _ => compressedData
  end.

(** the result of [compress] as a value of type [V] *)
Definition as_value (s : option string) : V :=
  match s with Some s => of_string s | None => js_undefined end.

Definition add_miss (s : Stats) : Stats :=
  {| hits := hits s; misses := misses s + 1; evictions := evictions s;
     compressionSavings := compressionSavings s |}.

Definition add_hit (s : Stats) : Stats :=
  {| hits := hits s + 1; misses := misses s; evictions := evictions s;
     compressionSavings := compressionSavings s |}.

Definition add_eviction (s : Stats) : Stats :=
  {| hits := hits s; misses := misses s; evictions := evictions s + 1;
     compressionSavings := compressionSavings s |}.

Definition add_savings (d : Z) (s : Stats) : Stats :=
  {| hits := hits s; misses := misses s; evictions := evictions s;
     compressionSavings := compressionSavings s + d |}.

(** [get(key)] at clock [now]: the returned value ([None] is the
    [undefined] of the two miss paths) and the cache afterwards. *)
Definition get (now : Z) (key : string) (c : WhoopCache V) : option V * WhoopCache V :=
  match map_get key (cache c) with
  | None =>
      (None,
       {| cache := cache c; accessOrder := accessOrder c; config := config c;
          accessCounter := accessCounter c; totalSize := totalSize c;
          stats := add_miss (stats c) |})
  | Some entry =>
      if now - e_timestamp entry >? e_ttl entry then
        (None,
         {| cache := map_delete key (cache c);
            accessOrder := map_delete key (accessOrder c);
            config := config c;
            accessCounter := accessCounter c;
            totalSize := totalSize c - or_zero (e_size entry);
            stats := add_miss (stats c) |})
      else
        let entry' :=
          {| e_data := e_data entry; e_timestamp := e_timestamp entry;
             e_ttl := e_ttl entry; e_accessCount := e_accessCount entry + 1;
             e_lastAccessed := now; e_compressed := e_compressed entry;
             e_size := e_size entry |} in
        let c' :=
          {| cache := map_set key entry' (cache c);
             accessOrder := map_set key (accessCounter c + 1) (accessOrder c);
             config := config c;
             accessCounter := accessCounter c + 1;
             totalSize := totalSize c;
             stats := add_hit (stats c) |} in
        if e_compressed entry && c_compress (config c)
        then (Some (decompress (e_data entry)), c')
        else (Some (e_data entry), c')
  end.

(** [delete(key)] *)
Definition delete (key : string) (c : WhoopCache V) : bool * WhoopCache V :=
  let totalSize' :=
    match map_get key (cache c) with
    | Some entry => totalSize c - or_zero (e_size entry)
    | None => totalSize c
    end in
  (map_has key (cache c),
   {| cache := map_delete key (cache c);
      accessOrder := map_delete key (accessOrder c);
      config := config c;
      accessCounter := accessCounter c;
      totalSize := totalSize';
      stats := stats c |}).

(** [clear()] *)
Definition clear (c : WhoopCache V) : WhoopCache V :=
  {| cache := []; accessOrder := []; config := config c;
     accessCounter := 0; totalSize := 0; stats := stats c |}.

(** The scan of [evictLRU]: [oldestAccess] starts at [Infinity]
    ([None]) and a strictly smaller access time replaces the candidate. *)
Definition scan_step (acc : option string * option Z) (kv : string * Z)
    : option string * option Z :=
  let '(oldestKey, oldestAccess) := acc in
  let '(key, accessTime) := kv in
  match oldestAccess with
  | None => (Some key, Some accessTime)
  | Some oa => if accessTime <? oa then (Some key, Some accessTime) else acc
  end.

Definition oldest (m : JsMap Z) : option string :=
  fst (fold_left scan_step m (None, None)).

(** [evictLRU()]: the guard [if (oldestKey)] is a truthiness test. *)
Definition evictLRU (c : WhoopCache V) : WhoopCache V :=
  match oldest (accessOrder c) with
  | Some oldestKey =>
      if truthy_string oldestKey then
        let c' := snd (delete oldestKey c) in
        {| cache := cache c'; accessOrder := accessOrder c'; config := config c';
           accessCounter := accessCounter c'; totalSize := totalSize c';
           stats := add_eviction (stats c') |}
      else c
  | None => c
  end.

(** The [while] loop of [set]; [None] when [fuel] iterations did not
    leave it. *)
Definition is_full (c : WhoopCache V) : bool :=
  (c_maxSize (config c) <=? map_size (cache c)) && (0 <? map_size (cache c)).

Fixpoint evictWhileFull (fuel : nat) (c : WhoopCache V) : option (WhoopCache V) :=
  if is_full c then
    match fuel with
    | O => None
    | S fuel' => evictWhileFull fuel' (evictLRU c)
    end
  else Some c.

(** [set(key, data, customTtl)] at clock [now]. [None]: the eviction
    loop did not finish within [fuel]; [Some (Throws _)]: an exception
    left [set]. *)
Definition set (fuel : nat) (now : Z) (key : string) (data : V) (customTtl : option Z)
    (c : WhoopCache V) : option (Completion (WhoopCache V)) :=
  let ttl := default (c_ttl (config c)) customTtl in
  match estimateSize data with
  | Throws t => Some (Throws t)
  | Returns size0 =>
      let prepared : Completion (V * bool * Z * Z) :=
        if c_compress (config c) && (1024 <? size0) then
          let compressedData := as_value (compress data) in
          match estimateSize compressedData with
          | Throws t => Throws t
          | Returns compressedSize =>
              (* compressedSize < size * 0.8 *)
              if 5 * compressedSize <? 4 * size0
              then Returns (compressedData, true, compressedSize, size0 - compressedSize)
              else Returns (data, false, size0, 0)
          end
        else Returns (data, false, size0, 0) in
      match prepared with
      | Throws t => Some (Throws t)
      | Returns (processedData, compressed, size, savings) =>
          let c1 :=
            {| cache := cache c; accessOrder := accessOrder c; config := config c;
               accessCounter := accessCounter c; totalSize := totalSize c;
               stats := add_savings savings (stats c) |} in
          match evictWhileFull fuel c1 with
          | None => None
          | Some c2 =>
              let entry :=
                {| e_data := processedData; e_timestamp := now; e_ttl := ttl;
                   e_accessCount := 1; e_lastAccessed := now;
                   e_compressed := compressed; e_size := size |} in
              Some (Returns
                {| cache := map_set key entry (cache c2);
                   accessOrder := map_set key (accessCounter c2 + 1) (accessOrder c2);
                   config := config c2;
                   accessCounter := accessCounter c2 + 1;
                   totalSize := totalSize c2 + size;
                   stats := stats c2 |})
          end
      end
  end.

(** [has(key)] *)
Definition has (now : Z) (key : string) (c : WhoopCache V) : bool * WhoopCache V :=
  let '(v, c') := get now key c in
  (match v with Some v => negb (is_undefined v) | None => false end, c').

(** [cleanup()], run by the interval timer at clock [now]. *)
Definition cleanup (now : Z) (c : WhoopCache V) : WhoopCache V :=
  let toDelete :=
    map fst (filter (fun kv => (now - e_timestamp (snd kv) >? e_ttl (snd kv)) = true)
                    (cache c)) in
  fold_left (fun c key => snd (delete key c)) toDelete c.

(** [getStats()] *)
Definition getStats (c : WhoopCache V) : StatsReport :=
  let total := hits (stats c) + misses (stats c) in
  {| r_hits := hits (stats c);
     r_misses := misses (stats c);
     r_evictions := evictions (stats c);
     r_compressionSavings := compressionSavings (stats c);
     r_hitRate := if total =? 0 then 0 else round_div (100 * hits (stats c)) total;
     r_size := map_size (cache c);
     r_totalMemory := totalSize c;
     r_averageEntrySize :=
       if 0 <? map_size (cache c)
       then round_div (totalSize c) (map_size (cache c)) else 0 |}.

(** The sum of the [size] fields of the entries that are present. *)
Fixpoint sumEntries (m : JsMap (CacheEntry V)) : Z :=
  match m with
  | [] => 0
  | (_, entry) :: m' => e_size entry + sumEntries m'
  end.

Definition sumSizes (c : WhoopCache V) : Z := sumEntries (cache c).

(** Numbers that grow strictly along the list, above [lo] and up to [hi]. *)
Fixpoint ascending (lo hi : Z) (l : list Z) : Prop :=
  match l with
  | [] => lo <= hi
  | a :: l' => lo < a /\ ascending a hi l'
  end.

(** The cache holds the keys [ks], none of them empty; the access order
    lists the same keys, with access numbers that grow along the list and
    do not exceed the counter. *)
Definition lru_ordered (ks : list string) (c : WhoopCache V) : Prop :=
  map_keys (cache c) = ks /\
  map_keys (accessOrder c) = ks /\
  NoDup ks /\
  Forall (fun k => truthy_string k = true) ks /\
  ascending 0 (accessCounter c) (List.map snd (accessOrder c)).

(** The accounting invariant: the keys are distinct and [totalSize] is the
    sum of the sizes of the entries present. *)
Definition accounted (c : WhoopCache V) : Prop :=
  List.NoDup (map_keys (cache c)) /\ totalSize c = sumSizes c.

(** The keys that are present, in insertion order. *)
Definition keys (c : WhoopCache V) : list string := map_keys (cache c).

(** The keys of a list of [set] calls. *)
Definition itemKeys (items : list (Z * string * V)) : list string :=
  List.map (fun it => snd (fst it)) items.

(** A run of [set] calls, each with its clock, key and value; it stops at
    the first call that throws or does not finish. *)
Fixpoint setAll (fuel : nat) (items : list (Z * string * V)) (c : WhoopCache V)
    : option (Completion (WhoopCache V)) :=
  match items with
  | [] => Some (Returns c)
  | (now, key, data) :: items' =>
      match set fuel now key data None c with
      | Some (Returns c') => setAll fuel items' c'
      | other => other
      end
  end.

End Operations.

End Cache.

(** ** The OAuth token manager ([auth/oauth]) *)

Module OAuth.
Import Js Errors.

(** [OAuthTokens]. A [refresh_token] that the server left out is the
    empty string: the sources only test it for truthiness. *)
Record OAuthTokens := {
  access_token : string;
  refresh_token : string;
  expires_in : Z;
  token_type : string;
  scope : string
}.

(** [Required<OAuthConfig>] *)
Record OAuthConfig := {
  clientId : string;
  clientSecret : string;
  redirectUri : string;
  baseUrl : string;
  scopes : list string
}.

(** The JSON body of a token-endpoint response. *)
Record TokenData := {
  d_access_token : string;
  d_refresh_token : option string;
  d_expires_in : Z;
  d_token_type : option string;
  d_scope : option string;
  d_error : option string;
  d_error_description : option string
}.

(** How the [fetch] of the token endpoint (with [response.json()]) ends. *)
Inductive FetchOutcome :=
| FetchFails (error : JsError)
| FetchResponds (ok : bool) (data : TokenData).

(** What a settled call hands to its caller. *)
Inductive Value :=
| VTokens (t : OAuthTokens)
| VString (s : string).

(** The code that runs after the awaited refresh: the rest of
    [refreshAccessToken] alone, or followed by the rest of
    [getValidAccessToken] ([return refreshedTokens.access_token]). *)
Inductive Cont := ReturnTokens | ReturnAccessToken.

(** A reaction registered on the refresh promise: the call that created
    the promise resumes inside its [try]/[finally]; a call that found the
    promise in the slot returned it and settles with it. *)
Inductive Reaction :=
| ResumeRefresh (call : nat) (k : Cont)
| Adopt (call : nat) (k : Cont).

(** The pending promise stored in [refreshPromise]: its identity, the
    refresh token its request carries, and its reactions in registration
    order. *)
Record RefreshPromise := {
  promise_id : nat;
  sent : string;
  reactions : list Reaction
}.

Record WhoopOAuthClient := {
  config : OAuthConfig;
  tokens : option OAuthTokens;
  refreshPromise : option RefreshPromise
}.

(** Observable events, for counting. *)
Inductive Event :=
| EvRefreshCall (call : nat)          (* refreshAccessToken was invoked *)
| EvFetch (refreshToken : string)     (* a refresh request was sent *)
| EvClearTokens.                      (* clearTokens was invoked *)

Definition is_fetch (e : Event) : bool :=
  match e with EvFetch _ => true | _ => false end.
Definition is_refresh_call (e : Event) : bool :=
  match e with EvRefreshCall _ => true | _ => false end.
Definition is_clear (e : Event) : bool :=
  match e with EvClearTokens => true | _ => false end.

(** The client together with the callers' promises: [results] holds the
    completion of every settled call, by call number. *)
Record World := {
  client : WhoopOAuthClient;
  results : gmap nat (Completion Value);
  nextCall : nat;
  log : list Event
}.

Definition fetchCount (w : World) : nat := length (List.filter is_fetch (log w)).
Definition refreshCalls (w : World) : nat := length (List.filter is_refresh_call (log w)).
Definition clearCount (w : World) : nat := length (List.filter is_clear (log w)).

Definition new_World (cfg : OAuthConfig) : World :=
  {| client := {| config := cfg; tokens := None; refreshPromise := None |};
     results := ∅; nextCall := 0%nat; log := [] |}.

Definition with_client (c : WhoopOAuthClient) (w : World) : World :=
  {| client := c; results := results w; nextCall := nextCall w; log := log w |}.

(** [setTokens], [getTokens], [clearTokens] *)
Definition setTokens (t : OAuthTokens) (w : World) : World :=
  with_client {| config := config (client w); tokens := Some t;
                 refreshPromise := refreshPromise (client w) |} w.

Definition getTokens (w : World) : option OAuthTokens := tokens (client w).

Definition clearTokens (w : World) : World :=
  {| client := {| config := config (client w); tokens := None;
                  refreshPromise := refreshPromise (client w) |};
     results := results w; nextCall := nextCall w;
     log := log w ++ [EvClearTokens] |}.

Definition bufferMs : Z := 5 * 60 * 1000.

(** [isTokenExpired(tokens?)]. [now1] is the [Date.now()] read for
    [expirationTime], [now2] the one compared with it. *)
Definition isTokenExpired (now1 now2 : Z) (tokens_ : option OAuthTokens)
    (c : WhoopOAuthClient) : bool :=
  let currentTokens := match tokens_ with Some t => Some t | None => tokens c end in
  match currentTokens with
  | None => true
  | Some currentTokens =>
      if negb (truthy_number (expires_in currentTokens)) then false
      else
        let expirationTime := now1 + expires_in currentTokens * 1000 - bufferMs in
        expirationTime <=? now2
  end.

(** The part of [performTokenRefresh] after [await fetch]. *)
Definition tokenRefreshResult (cfg : OAuthConfig) (refreshToken : string)
    (o : FetchOutcome) : Completion OAuthTokens :=
  match o with
  | FetchFails error =>
      match cls error with
      | WhoopAuthError => Throws (ThrownError error)
      | _ => Throws (ThrownError (fromNetworkError error))
      end
  | FetchResponds ok data =>
      if negb ok then
        Throws (ThrownError
          (new_WhoopAuthError
             (or_string (or_else_string (d_error_description data) (d_error data))
                        "Token refresh failed")
             None))
      else
        Returns {| access_token := d_access_token data;
                   refresh_token := or_string (d_refresh_token data) refreshToken;
                   expires_in := d_expires_in data;
                   token_type := or_string (d_token_type data) "Bearer";
                   scope := or_string (d_scope data) (String.concat " " (scopes cfg)) |}
  end.

Definition apply_cont (k : Cont) (o : Completion OAuthTokens) : Completion Value :=
  match o with
  | Returns t =>
      Returns (match k with
               | ReturnTokens => VTokens t
               | ReturnAccessToken => VString (access_token t)
               end)
  | Throws e => Throws e
  end.

Definition settle_call (call : nat) (r : Completion Value) (w : World) : World :=
  {| client := client w; results := <[call := r]> (results w);
     nextCall := nextCall w; log := log w |}.

(** [refreshAccessToken(refreshToken?)] up to its [await], continued by
    [k] when the promise settles. Returns the number of the call. *)
Definition refreshAccessToken (refreshToken : option string) (k : Cont) (w : World)
    : nat * World :=
  let call := nextCall w in
  let w0 := {| client := client w; results := results w; nextCall := S call;
               log := log w ++ [EvRefreshCall call] |} in
  let c := client w in
  let tokenToRefresh :=
    or_else_string refreshToken
      (match tokens c with Some t => Some (refresh_token t) | None => None end) in
  match tokenToRefresh with
  | Some tokenToRefresh =>
      if truthy_string tokenToRefresh then
        match refreshPromise c with
        | Some p =>
            (* return this.refreshPromise *)
            (call,
             with_client
               {| config := config c; tokens := tokens c;
                  refreshPromise :=
                    Some {| promise_id := promise_id p; sent := sent p;
                            reactions := reactions p ++ [Adopt call k] |} |} w0)
        | None =>
            (* this.refreshPromise = this.performTokenRefresh(tokenToRefresh) *)
            (call,
             {| client :=
                  {| config := config c; tokens := tokens c;
                     refreshPromise :=
                       Some {| promise_id := call; sent := tokenToRefresh;
                               reactions := [ResumeRefresh call k] |} |};
                results := results w0; nextCall := nextCall w0;
                log := log w0 ++ [EvFetch tokenToRefresh] |})
        end
      else
        (call, settle_call call
                 (Throws (ThrownError (new_WhoopAuthError "No refresh token available" None))) w0)
  | None =>
      (call, settle_call call
               (Throws (ThrownError (new_WhoopAuthError "No refresh token available" None))) w0)
  end.

(** One reaction of the refresh promise, run when it settles with
    [outcome]. *)
Definition run_reaction (outcome : Completion OAuthTokens) (w : World) (r : Reaction)
    : World :=
  match r with
  | ResumeRefresh call k =>
      (* try { const tokens = await p; this.tokens = tokens; return tokens }
         finally { this.refreshPromise = undefined } *)
      let c := client w in
      let tokens' := match outcome with Returns t => Some t | Throws _ => tokens c end in
      {| client := {| config := config c; tokens := tokens'; refreshPromise := None |};
         results := <[call := apply_cont k outcome]> (results w);
         nextCall := nextCall w; log := log w |}
  | Adopt call k => settle_call call (apply_cont k outcome) w
  end.

(** The pending refresh request ends with [o]: the promise settles and
    its reactions run in registration order. *)
Definition settleRefresh (o : FetchOutcome) (w : World) : World :=
  match refreshPromise (client w) with
  | None => w
  | Some p =>
      fold_left (run_reaction (tokenRefreshResult (config (client w)) (sent p) o))
                (reactions p) w
  end.

(** [getValidAccessToken()] up to its [await]. *)
Definition getValidAccessToken (now1 now2 : Z) (w : World) : nat * World :=
  match tokens (client w) with
  | None =>
      let call := nextCall w in
      (call,
       settle_call call
         (Throws (ThrownError
            (new_WhoopAuthError "No tokens available. Please authenticate first." None)))
         {| client := client w; results := results w; nextCall := S call; log := log w |})
  | Some t =>
      if isTokenExpired now1 now2 (Some t) (client w) then
        refreshAccessToken None ReturnAccessToken w
      else
        let call := nextCall w in
        (call,
         settle_call call (Returns (VString (access_token t)))
           {| client := client w; results := results w; nextCall := S call; log := log w |})
  end.

(** Awaiting call [call]: its completion if it has settled, otherwise
    its completion once the pending refresh request has ended with [o]. *)
Definition awaitCall (call : nat) (o : FetchOutcome) (w : World)
    : option (Completion Value * World) :=
  match results w !! call with
  | Some r => Some (r, w)
  | None =>
      let w' := settleRefresh o w in
      match results w' !! call with
      | Some r => Some (r, w')
      | None => None
      end
  end.

(** [refreshToken || this.tokens?.refresh_token] is truthy. *)
Definition tokenAvailable (refreshToken : option string) (w : World) : bool :=
  match or_else_string refreshToken
          (match tokens (client w) with
           | Some t => Some (refresh_token t)
           | None => None
           end) with
  | Some s => truthy_string s
  | None => false
  end.

(** The promise in the slot was put there by the call that resumes first. *)
Definition well_formed (w : World) : Prop :=
  match refreshPromise (client w) with
  | Some p => exists call k rest, reactions p = ResumeRefresh call k :: rest
  | None => True
  end.

(** Call [call] waits on the promise with identity [id], to go on with [k]. *)
Definition awaits (call : nat) (k : Cont) (id : nat) (w : World) : Prop :=
  match refreshPromise (client w) with
  | Some p => promise_id p = id /\ (In (Adopt call k) (reactions p) \/ In (ResumeRefresh call k) (reactions p))
  | None => False
  end.

(** The rule of the specification for expiry: the token set was stored at
    [issuedAt]. *)
Definition spec_isTokenExpired (issuedAt now : Z) (t : OAuthTokens) : bool :=
  issuedAt + expires_in t * 1000 - 300000 <=? now.

End OAuth.

(** ** The response handler of the HTTP client ([WhoopHttpClient]) *)

Module Http.
Import Js Errors OAuth.

(** A [Response]: status, whether the content type includes
    application/json, and how [response.json()] and [response.text()]
    end. *)
Record Response := {
  r_status : Z;
  r_isJson : bool;
  r_json : Completion BodyFields;
  r_text : Completion string
}.

Definition ok (r : Response) : bool := (200 <=? r_status r) && (r_status r <=? 299).

Record WhoopHttpClient := {
  oauthClient : option World;
  onTokenRefresh : option (OAuthTokens -> Completion unit)
}.

Definition with_oauth (w : World) (h : WhoopHttpClient) : WhoopHttpClient :=
  {| oauthClient := Some w; onTokenRefresh := onTokenRefresh h |}.

Definition parseBody (response : Response) : ResponseBody :=
  if r_isJson response then
    match r_json response with Returns b => BJson b | Throws _ => BNull end
  else
    match r_text response with Returns s => BText s | Throws _ => BNull end.

(** [handleResponse(response)], run to completion; [o] is how the token
    request that the refresh waits for ends. [None] does not occur (a
    refresh call that settles with an access-token string). *)
Definition handleResponse (response : Response) (o : FetchOutcome) (h : WhoopHttpClient)
    : option (Completion ResponseBody * WhoopHttpClient) :=
  let responseBody := parseBody response in
  if negb (ok response) then
    let error := fromHttpStatus (r_status response) responseBody in
    match oauthClient h with
    | Some w =>
        if isAuthError (ThrownError error)
           && bool_decide (status error = Some 401) then
          let '(call, w1) := refreshAccessToken None ReturnTokens w in
          match awaitCall call o w1 with
          | Some (Returns (VTokens newTokens), w2) =>
              match onTokenRefresh h with
              | Some hook =>
                  match hook newTokens with
                  | Returns _ => Some (Throws (ThrownError error), with_oauth w2 h)
                  | Throws _ =>
                      Some (Throws (ThrownError error), with_oauth (clearTokens w2) h)
                  end
              | None => Some (Throws (ThrownError error), with_oauth w2 h)
              end
          | Some (Throws refreshError, w2) =>
              Some (Throws (ThrownError error), with_oauth (clearTokens w2) h)
          | Some (Returns (VString _), _) => None
          | None => None
          end
        else Some (Throws (ThrownError error), h)
    | None => Some (Throws (ThrownError error), h)
    end
  else Some (Returns responseBody, h).

(** [getAccessToken()]: the token of [getValidAccessToken], or [undefined]
    when there is no OAuth client or the call fails. [o] is how the refresh
    request that [getValidAccessToken] may wait for ends. *)
Definition getAccessToken (now1 now2 : Z) (o : FetchOutcome) (h : WhoopHttpClient)
    : option (option string * WhoopHttpClient) :=
  match oauthClient h with
  | None => Some (None, h)
  | Some w =>
      let '(call, w1) := getValidAccessToken now1 now2 w in
      match awaitCall call o w1 with
      | Some (Returns (VString token), w2) => Some (Some token, with_oauth w2 h)
      | Some (Throws _, w2) => Some (None, with_oauth w2 h)
      | Some (Returns (VTokens _), _) => None
      | None => None
      end
  end.

Definition upper_char (c : Ascii.ascii) : Ascii.ascii :=
  let n := Ascii.nat_of_ascii c in
  if Nat.leb 97 n && Nat.leb n 122 then Ascii.ascii_of_nat (n - 32) else c.

(** [s.toUpperCase()] on ASCII text *)
Fixpoint toUpperCase (s : string) : string :=
  match s with
  | EmptyString => EmptyString
  | String c s' => String (upper_char c) (toUpperCase s')
  end.

(** What the environment does during one [performRequest]. *)
Record RequestEnv := {
  env_now1 : Z;                      (* the clock reads of isTokenExpired *)
  env_now2 : Z;
  env_tokenFetch : FetchOutcome;     (* the refresh awaited by getAccessToken *)
  env_fetch : Completion Response;   (* fetch(url, fetchOptions) *)
  env_aborted : bool;                (* signal.aborted when the catch block runs *)
  env_refreshFetch : FetchOutcome    (* the refresh awaited by handleResponse *)
}.

(** The [body] argument of a request: missing or falsy, or a truthy value
    with the way [JSON.stringify(body)] ends. *)
Inductive RequestPayload :=
| NoBody
| Body (serialized : Completion (option string)).

(** What stops [performRequest] before its [try] block: a body on a GET,
    or the exception of [JSON.stringify(body)]. *)
Definition prepareBody (method : string) (body : RequestPayload) : option Thrown :=
  match body with
  | NoBody => None
  | Body serialized =>
      if String.eqb (toUpperCase method) "GET" then
        Some (ThrownError (new_Error "GET requests cannot have a body"))
      else
        match serialized with
        | Throws t => Some t
        | Returns _ => None
        end
  end.

(** [performRequest(method, url, body, headers, ...)], run to completion,
    without performance hooks: the completion, the client afterwards, and
    the [Authorization] property of the headers prepared for [fetch]. The
    default headers of the client have no such property, so it is the
    caller's unless the client sets it. *)
Definition performRequest (method : string) (body : RequestPayload) (headers : JsMap string)
    (env : RequestEnv) (h : WhoopHttpClient)
    : option (Completion ResponseBody * WhoopHttpClient * option string) :=
  match getAccessToken (env_now1 env) (env_now2 env) (env_tokenFetch env) h with
  | None => None
  | Some (accessToken, h1) =>
      let authorization :=
        match accessToken with
        | Some token =>
            if truthy_string token then Some ("Bearer " ++ token)%string
            else map_get "Authorization" headers
        | None => map_get "Authorization" headers
        end in
      match prepareBody method body with
      | Some thrown => Some (Throws thrown, h1, authorization)
      | None =>
        (* try { response = await fetch(...); return await handleResponse(response) } *)
        let attempt :=
          match env_fetch env with
          | Returns response => handleResponse response (env_refreshFetch env) h1
          | Throws t => Some (Throws t, h1)
          end in
        match attempt with
        | None => None
        | Some (Returns responseBody, h2) => Some (Returns responseBody, h2, authorization)
        | Some (Throws error, h2) =>
            (* catch (error) *)
            if env_aborted env then
              Some (Throws (ThrownError (new_WhoopTimeoutError "Request timeout")),
                    h2, authorization)
            else
              match error with
              | ThrownError e => Some (Throws (ThrownError (fromNetworkError e)), h2, authorization)
              | ThrownUndefined =>
                  Some (Throws (ThrownError
                          (new_TypeError "Cannot read properties of undefined")),
                        h2, authorization)
              end
        end
      end
  end.

End Http.

(** ** The request deduplicator ([utils/deduplication]) *)

Module Dedup.
Import Js Errors.

Record RequestDedupe := {
  cfg_enabled : option bool;
  cfg_windowMs : option Z;
  cfg_maxConcurrent : option Z
}.

(** [Required<RequestDedupe>]. [windowMs] and [maxConcurrent] are integers
    here: a fractional [maxConcurrent], which the source does not refuse,
    is outside this embedding. *)
Record Config := {
  enabled : bool;
  windowMs : Z;
  maxConcurrent : Z
}.

(** A [PendingRequest] object. Its [promise] is the execution with the
    object's own number; [resolvers] and [rejectors] hold the numbers of
    the attached calls; [aborted] is the state of its abort controller. *)
Record PendingRequest := {
  timestamp : Z;
  resolvers : list nat;
  rejectors : list nat;
  aborted : bool
}.

Record Stats := {
  dedupedRequests : Z;
  batchedRequests : Z;
  concurrentRequests : Z;
  maxConcurrentRequests : Z
}.

(** An invocation of [requestFn] that has not settled yet: started by
    the early [return requestFn()], or by [executeWithMetrics] for the
    pending entry registered under [key]. *)
Inductive Running :=
| Direct
| Leader (key : string).

(** The deduplicator, the store of its pending-request objects, and the
    promises of its callers. Calls of [execute] are numbered; [results]
    holds the completion of every settled call; [invocations] lists the
    calls whose [requestFn] was invoked, with their keys. *)
Record RequestDeduplicator (R : Type) := {
  config : Config;
  pendingRequests : gmap string nat;
  stats : Stats;
  store : gmap nat PendingRequest;
  running : gmap nat Running;
  slotQueue : list (nat * string);
  results : gmap nat (Completion R);
  invocations : list (nat * string);
  nextId : nat
}.
Arguments config {R} r.
Arguments pendingRequests {R} r.
Arguments stats {R} r.
Arguments store {R} r.
Arguments running {R} r.
Arguments slotQueue {R} r.
Arguments results {R} r.
Arguments invocations {R} r.
Arguments nextId {R} r.

Section Operations.
Context {R : Type}.
Local Abbreviation D := (RequestDeduplicator R).

(** The constructor. *)
Definition new_RequestDeduplicator (cfg : RequestDedupe) : D :=
  {| config := {| enabled := default true (cfg_enabled cfg);
                  windowMs := default 100 (cfg_windowMs cfg);
                  maxConcurrent := default 10 (cfg_maxConcurrent cfg) |};
     pendingRequests := ∅;
     stats := {| dedupedRequests := 0; batchedRequests := 0;
                 concurrentRequests := 0; maxConcurrentRequests := 0 |};
     store := ∅; running := ∅; slotQueue := []; results := ∅;
     invocations := []; nextId := 0%nat |}.

(** [isWithinWindow(timestamp)] at clock [now] *)
Definition isWithinWindow (now : Z) (timestamp_ : Z) (d : D) : bool :=
  now - timestamp_ <? windowMs (config d).

(** [attachToExisting(existing)]: the new promise's [resolve] and
    [reject] are pushed onto the shared object. *)
Definition attachToExisting (existing : nat) (call : nat) (d : D) : D :=
  match store d !! existing with
  | Some pr =>
      {| config := config d; pendingRequests := pendingRequests d; stats := stats d;
         store := <[existing := {| timestamp := timestamp pr;
                                   resolvers := resolvers pr ++ [call];
                                   rejectors := rejectors pr ++ [call];
                                   aborted := aborted pr |}]> (store d);
         running := running d; slotQueue := slotQueue d; results := results d;
         invocations := invocations d; nextId := nextId d |}
  | None => d
  end.

(** The [catch] of [executeWithMetrics]: what its promise settles with
    when [requestFn] has settled with [o]. *)
Definition executeWithMetrics (signal_aborted : bool) (o : Completion R) : Completion R :=
  match o with
  | Returns result => Returns result
  | Throws error =>
      if signal_aborted then Throws (ThrownError (new_Error "Request was cancelled"))
      else Throws error
  end.

(** [execute] from the lookup of the existing entry to its [await]. *)
Definition executeAdmitted (call : nat) (key : string) (now : Z) (d : D) : D :=
  let fresh (d : D) : D :=
    (* executeWithMetrics invokes requestFn; the entry is registered *)
    let concurrent := concurrentRequests (stats d) + 1 in
    {| config := config d;
       pendingRequests := <[key := call]> (pendingRequests d);
       stats := {| dedupedRequests := dedupedRequests (stats d);
                   batchedRequests := batchedRequests (stats d);
                   concurrentRequests := concurrent;
                   maxConcurrentRequests :=
                     Z.max (maxConcurrentRequests (stats d)) concurrent |};
       store := <[call := {| timestamp := now; resolvers := []; rejectors := [];
                             aborted := false |}]> (store d);
       running := <[call := Leader key]> (running d);
       slotQueue := slotQueue d; results := results d;
       invocations := invocations d ++ [(call, key)];
       nextId := nextId d |} in
  match pendingRequests d !! key with
  | Some existing =>
      match store d !! existing with
      | Some pr =>
          if isWithinWindow now (timestamp pr) d then
            attachToExisting existing call
              {| config := config d; pendingRequests := pendingRequests d;
                 stats := {| dedupedRequests := dedupedRequests (stats d) + 1;
                             batchedRequests := batchedRequests (stats d);
                             concurrentRequests := concurrentRequests (stats d);
                             maxConcurrentRequests := maxConcurrentRequests (stats d) |};
                 store := store d; running := running d; slotQueue := slotQueue d;
                 results := results d; invocations := invocations d;
                 nextId := nextId d |}
          else fresh d
      | None => fresh d
      end
  | None => fresh d
  end.

(** [execute(key, requestFn, {skipDedup})] at clock [now], up to its
    first [await]. Returns the number of the call. *)
Definition execute (key : string) (skipDedup : bool) (now : Z) (d : D) : nat * D :=
  let call := nextId d in
  let d0 : D :=
    {| config := config d; pendingRequests := pendingRequests d; stats := stats d;
       store := store d; running := running d; slotQueue := slotQueue d;
       results := results d; invocations := invocations d; nextId := S call |} in
  if negb (enabled (config d)) || skipDedup then
    (* return requestFn() *)
    (call,
     {| config := config d0; pendingRequests := pendingRequests d0; stats := stats d0;
        store := store d0; running := <[call := Direct]> (running d0);
        slotQueue := slotQueue d0; results := results d0;
        invocations := invocations d0 ++ [(call, key)]; nextId := nextId d0 |})
  else if maxConcurrent (config d) <=? concurrentRequests (stats d) then
    (* await this.waitForSlot(): the first check fails, a timer is armed *)
    (call,
     {| config := config d0; pendingRequests := pendingRequests d0; stats := stats d0;
        store := store d0; running := running d0;
        slotQueue := slotQueue d0 ++ [(call, key)]; results := results d0;
        invocations := invocations d0; nextId := nextId d0 |})
  else (call, executeAdmitted call key now d0).

(** The 10ms timer of [waitForSlot] fires for the parked call [call]:
    [checkSlot] either resolves, and [execute] goes on, or re-arms. *)
Definition slotPoll (call : nat) (now : Z) (d : D) : D :=
  match List.find (fun ck => Nat.eqb (fst ck) call) (slotQueue d) with
  | Some (_, key) =>
      if concurrentRequests (stats d) <? maxConcurrent (config d) then
        executeAdmitted call key now
          {| config := config d; pendingRequests := pendingRequests d; stats := stats d;
             store := store d; running := running d;
             slotQueue := List.filter (fun ck => negb (Nat.eqb (fst ck) call)) (slotQueue d);
             results := results d; invocations := invocations d; nextId := nextId d |}
      else d
  | None => d
  end.

Definition settle_all (calls_ : list nat) (o : Completion R)
    (rs : gmap nat (Completion R)) : gmap nat (Completion R) :=
  fold_left (fun rs call => <[call := o]> rs) calls_ rs.

(** The promise returned by the invocation of [requestFn] for call
    [exec] settles with [o]; the code after the [await] in [execute]
    runs. *)
Definition settle (exec : nat) (o : Completion R) (d : D) : D :=
  match running d !! exec with
  | None => d
  | Some Direct =>
      {| config := config d; pendingRequests := pendingRequests d; stats := stats d;
         store := store d; running := base.delete exec (running d);
         slotQueue := slotQueue d; results := <[exec := o]> (results d);
         invocations := invocations d; nextId := nextId d |}
  | Some (Leader key) =>
      match store d !! exec with
      | None => d
      | Some pendingRequest =>
          let o' := executeWithMetrics (aborted pendingRequest) o in
          let attached :=
            match o' with
            | Returns _ => resolvers pendingRequest
            | Throws _ => rejectors pendingRequest
            end in
          (* finally { this.pendingRequests.delete(key); concurrentRequests-- } *)
          {| config := config d;
             pendingRequests := base.delete key (pendingRequests d);
             stats := {| dedupedRequests := dedupedRequests (stats d);
                         batchedRequests := batchedRequests (stats d);
                         concurrentRequests := concurrentRequests (stats d) - 1;
                         maxConcurrentRequests := maxConcurrentRequests (stats d) |};
             store := store d;
             running := base.delete exec (running d);
             slotQueue := slotQueue d;
             results := <[exec := o']> (settle_all attached o' (results d));
             invocations := invocations d; nextId := nextId d |}
      end
  end.

Definition abort (ref : nat) (st : gmap nat PendingRequest) : gmap nat PendingRequest :=
  match st !! ref with
  | Some pr => <[ref := {| timestamp := timestamp pr; resolvers := resolvers pr;
                           rejectors := rejectors pr; aborted := true |}]> st
  | None => st
  end.

(** [cancel(key)] *)
Definition cancel (key : string) (d : D) : bool * D :=
  match pendingRequests d !! key with
  | Some pending =>
      (true,
       {| config := config d;
          pendingRequests := base.delete key (pendingRequests d);
          stats := stats d;
          store := abort pending (store d);
          running := running d; slotQueue := slotQueue d; results := results d;
          invocations := invocations d; nextId := nextId d |})
  | None => (false, d)
  end.

(** [clear()] (the batch queue is not part of this model) *)
Definition clear (d : D) : D :=
  {| config := config d;
     pendingRequests := ∅;
     stats := stats d;
     store := fold_left (fun st kv => abort (snd kv) st)
                        (map_to_list (pendingRequests d)) (store d);
     running := running d; slotQueue := slotQueue d; results := results d;
     invocations := invocations d; nextId := nextId d |}.

(** [execute] at clock [now] would attach to an entry registered under [key]. *)
Definition liveEntry (key : string) (now : Z) (d : D) : bool :=
  match pendingRequests d !! key with
  | Some existing =>
      match store d !! existing with
      | Some pr => isWithinWindow now (timestamp pr) d
      | None => false
      end
  | None => false
  end.

(** What can happen to a deduplicator, one event-loop turn at a time. *)
Inductive Event :=
| EvExecute (key : string) (skipDedup : bool) (now : Z)
| EvSlotPoll (call : nat) (now : Z)
| EvSettle (exec : nat) (o : Completion R)
| EvCancel (key : string)
| EvClear.

Definition step (e : Event) (d : D) : D :=
  match e with
  | EvExecute key skipDedup now => snd (execute key skipDedup now d)
  | EvSlotPoll call now => slotPoll call now d
  | EvSettle exec o => settle exec o d
  | EvCancel key => snd (cancel key d)
  | EvClear => clear d
  end.

Definition run (es : list Event) (d : D) : D := fold_left (fun d e => step e d) es d.

(** How often [requestFn] was invoked for [key]. *)
Definition invocationsOf (key : string) (d : D) : nat :=
  length (List.filter (fun ck => String.eqb (snd ck) key) (invocations d)).

(** The executions for [key] that have not settled. *)
Definition activeFor (key : string) (d : D) : nat :=
  length (List.filter
            (fun kv => match snd kv with
                       | Leader k => String.eqb k key
                       | Direct => false
                       end)
            (map_to_list (running d))).

(** Every registered entry belongs to a running execution that was
    started for its key; running executions carry numbers already handed
    out; the calls waiting for a slot have not started anything. *)
Definition consistent (d : D) : Prop :=
  (forall k e, pendingRequests d !! k = Some e -> running d !! e = Some (Leader k)) /\
  (forall e r, running d !! e = Some r -> (e < nextId d)%nat) /\
  (forall c k, In (c, k) (slotQueue d) -> (c < nextId d)%nat /\ running d !! c = None).

(** The events that may occur while the execution [c0], started for [key]
    at clock [t0], is pending: further calls for [key] inside the window
    that find a free slot, and anything that concerns other keys only. *)
Definition allowed (key : string) (c0 : nat) (t0 : Z) (d : D) (e : Event) : Prop :=
  match e with
  | EvExecute k skipDedup now =>
      if String.eqb k key then
        skipDedup = false /\
        now - t0 < windowMs (config d) /\
        concurrentRequests (stats d) < maxConcurrent (config d)
      else True
  | EvSlotPoll call now => forall k, In (call, k) (slotQueue d) -> k <> key
  | EvSettle exec o => exec <> c0 /\ running d !! exec <> Some (Leader key)
  | EvCancel k => k <> key
  | EvClear => False
  end.

Fixpoint valid (key : string) (c0 : nat) (t0 : Z) (es : list Event) (d : D) : Prop :=
  match es with
  | [] => True
  | e :: es' => allowed key c0 t0 d e /\ valid key c0 t0 es' (step e d)
  end.

(** The numbers of the calls of [execute] for [key] among the events. *)
Fixpoint callsFor (key : string) (es : list Event) (d : D) : list nat :=
  match es with
  | [] => []
  | e :: es' =>
      match e with
      | EvExecute k _ _ => if String.eqb k key then [nextId d] else []
      | _ => []
      end ++ callsFor key es' (step e d)
  end.

(** The state while the execution [c0] for [key] is pending and [ids] are
    attached to it. *)
Definition collapsing (cfg : Config) (key : string) (c0 : nat) (t0 : Z) (n : nat)
    (ids : list nat) (d : D) : Prop :=
  consistent d /\
  config d = cfg /\
  pendingRequests d !! key = Some c0 /\
  store d !! c0 = Some {| timestamp := t0; resolvers := ids; rejectors := ids;
                          aborted := false |} /\
  running d !! c0 = Some (Leader key) /\
  invocationsOf key d = n /\
  (c0 < nextId d)%nat.

End Operations.

End Dedup.


(** ** A fragment of the JavaScript values, to run the cache on *)

Module JsValues.
Import Js Errors Cache.

(** Scalars, and one object whose property refers back to the object
    itself ([const a = {}; a.self = a]). *)
Inductive JsValue :=
| JUndefined
| JNull
| JBool (b : bool)
| JNum (n : Z)
| JStr (s : string)
| JCircular.

Definition dquote : string := String (Ascii.ascii_of_nat 34) EmptyString.

Definition hex_digit (n : nat) : string :=
String.substring n 1 "0123456789abcdef".

(** The JSON escape of one character of a string. *)
Definition escape_char (c : Ascii.ascii) : string :=
let n := Ascii.nat_of_ascii c in
if Nat.eqb n 34 then "\" ++ dquote
else if Nat.eqb n 92 then "\\"
else if Nat.eqb n 8 then "\b"
else if Nat.eqb n 9 then "\t"
else if Nat.eqb n 10 then "\n"
else if Nat.eqb n 12 then "\f"
else if Nat.eqb n 13 then "\r"
else if Nat.ltb n 32 then "\u00" ++ hex_digit (n / 16) ++ hex_digit (n mod 16)
else String c EmptyString.

Fixpoint escape (s : string) : string :=
match s with
| EmptyString => EmptyString
| String c s' => escape_char c ++ escape s'
end.

Definition quote (s : string) : string := dquote ++ escape s ++ dquote.

Definition stringify (v : JsValue) : Completion (option string) :=
match v with
| JUndefined => Returns None
| JNull => Returns (Some "null"%string)
| JBool b => Returns (Some (if b then "true" else "false")%string)
| JNum n => Returns (Some (pretty n))
| JStr s => Returns (Some (quote s))
| JCircular =>
    Throws (ThrownError (new_TypeError "Converting circular structure to JSON"))
end.

Definition to_string (v : JsValue) : string :=
match v with
| JUndefined => "undefined"
| JNull => "null"
| JBool b => if b then "true" else "false"
| JNum n => pretty n
| JStr s => s
| JCircular => "[object Object]"
end.

Definition is_digit (c : Ascii.ascii) : bool :=
let n := Ascii.nat_of_ascii c in Nat.leb 48 n && Nat.leb n 57.

Fixpoint digits_value (s : string) (acc : Z) : option Z :=
match s with
| EmptyString => Some acc
| String c s' =>
    if is_digit c
    then digits_value s' (10 * acc + Z.of_nat (Ascii.nat_of_ascii c - 48))
    else None
end.

Definition plain_char (c : Ascii.ascii) : bool :=
let n := Ascii.nat_of_ascii c in
Nat.leb 32 n && negb (Nat.eqb n 34) && negb (Nat.eqb n 92).

Fixpoint all_plain (s : string) : bool :=
match s with
| EmptyString => true
| String c s' => plain_char c && all_plain s'
end.

(** [JSON.parse] on the texts of this fragment: the literals, decimal
    integers and strings without escapes. Any other text is answered with
    the SyntaxError completion. *)
Definition parse (text : string) : Completion JsValue :=
let syntaxError := Throws (ThrownError (MkError PlainError "SyntaxError" None "" None None None)) in
if String.eqb text "null" then Returns JNull
else if String.eqb text "true" then Returns (JBool true)
else if String.eqb text "false" then Returns (JBool false)
else
  match text with
  | EmptyString => syntaxError
  | String c rest =>
      if Nat.eqb (Ascii.nat_of_ascii c) 34 then
        let n := String.length rest in
        let inner := String.substring 0 (n - 1) rest in
        if String.eqb (String.substring (n - 1) 1 rest) dquote && all_plain inner
        then Returns (JStr inner) else syntaxError
      else if Nat.eqb (Ascii.nat_of_ascii c) 45 then
        match rest with
        | EmptyString => syntaxError
        | _ => match digits_value rest 0 with
               | Some z => Returns (JNum (- z))
               | None => syntaxError
               end
        end
      else
        match digits_value text 0 with
        | Some z => Returns (JNum z)
        | None => syntaxError
        end
  end.

#[export] Instance JsValue_runtime : JsRuntime JsValue := {|
  JSON_stringify := stringify;
  JSON_parse := parse;
  String_of := to_string;
  of_string := JStr;
  js_undefined := JUndefined;
  is_undefined := fun v => match v with JUndefined => true | _ => false end
|}.

End JsValues.


(** ** Concrete inputs used by the examples below *)

Module Scenarios.
Import Js Errors.

(** An operation whose i-th invocation fails with a server error of
    status 500 + i. *)
Definition serverError (i : nat) : Thrown :=
ThrownError (new_WhoopAPIError (500 + Z.of_nat i) "API_ERROR" "HTTP Error" None).

Definition alwaysFailing (i : nat) : Completion string := Throws (serverError i).

Definition threeAttempts : Retry.RetryOptions :=
{| Retry.maxAttempts := Some 3; Retry.baseDelayMs := None; Retry.maxDelayMs := None;
   Retry.signal := None |}.

Definition noJitter (i : nat) : Q := 0%Q.

Definition oauthConfig : OAuth.OAuthConfig :=
{| OAuth.clientId := "client"; OAuth.clientSecret := "secret";
   OAuth.redirectUri := "https://app.example/callback";
   OAuth.baseUrl := "https://api.prod.whoop.com";
   OAuth.scopes := ["read:profile"; "offline"] |}.

(** A token set that the server issued for one hour. *)
Definition hourToken : OAuth.OAuthTokens :=
{| OAuth.access_token := "at-1"; OAuth.refresh_token := "rt-1";
   OAuth.expires_in := 3600; OAuth.token_type := "Bearer";
   OAuth.scope := "read:profile offline" |}.

(** A token set that the code's rule counts as expired (four minutes). *)
Definition shortToken : OAuth.OAuthTokens :=
{| OAuth.access_token := "at-2"; OAuth.refresh_token := "rt-2";
   OAuth.expires_in := 240; OAuth.token_type := "Bearer";
   OAuth.scope := "read:profile offline" |}.

(** The same without a refresh token (no offline scope). *)
Definition shortTokenNoRefresh : OAuth.OAuthTokens :=
{| OAuth.access_token := "at-3"; OAuth.refresh_token := "";
   OAuth.expires_in := 240; OAuth.token_type := "Bearer";
   OAuth.scope := "read:profile" |}.

Definition freshWorld : OAuth.World := OAuth.new_World oauthConfig.

(** [hourToken] stored at clock 0. *)
Definition hourWorld : OAuth.World := OAuth.setTokens hourToken freshWorld.

Definition shortWorld : OAuth.World := OAuth.setTokens shortToken freshWorld.

(** A refresh started with an explicit refresh token while no token set
    is stored. *)
Definition overrideInFlight : OAuth.World :=
snd (OAuth.refreshAccessToken (Some "rt-0"%string) OAuth.ReturnTokens freshWorld).

(** A refresh started from the stored [shortToken]. *)
Definition refreshInFlight : OAuth.World :=
snd (OAuth.refreshAccessToken None OAuth.ReturnTokens shortWorld).

Definition refreshedData : OAuth.TokenData :=
{| OAuth.d_access_token := "at-new"; OAuth.d_refresh_token := None;
   OAuth.d_expires_in := 3600; OAuth.d_token_type := None; OAuth.d_scope := None;
   OAuth.d_error := None; OAuth.d_error_description := None |}.

(** The cache of the unit tests: one second of TTL, three entries. *)
Definition testConfig : Cache.CacheConfig :=
{| Cache.cfg_ttl := Some 1000; Cache.cfg_maxSize := Some 3;
   Cache.cfg_compress := Some false; Cache.cfg_keyStrategy := None |}.

Definition testCache : Cache.WhoopCache JsValues.JsValue :=
Cache.new_WhoopCache testConfig.

Definition threeItems : list (Z * string * JsValues.JsValue) :=
[(0, "key1"%string, JsValues.JStr "value1");
 (1, "key2"%string, JsValues.JStr "value2");
 (2, "key3"%string, JsValues.JStr "value3")].

Definition fourthItem : Z * string * JsValues.JsValue :=
(3, "key4"%string, JsValues.JStr "value4").

(** A cache for two entries. *)
Definition pairCache : Cache.WhoopCache JsValues.JsValue :=
Cache.new_WhoopCache
  {| Cache.cfg_ttl := Some 1000; Cache.cfg_maxSize := Some 2;
     Cache.cfg_compress := Some false; Cache.cfg_keyStrategy := None |}.

(** A cache for a single entry. *)
Definition singleCache : Cache.WhoopCache JsValues.JsValue :=
Cache.new_WhoopCache
  {| Cache.cfg_ttl := Some 1000; Cache.cfg_maxSize := Some 1;
     Cache.cfg_compress := Some false; Cache.cfg_keyStrategy := None |}.

(** A cache configured with [maxSize: 0]. *)
Definition zeroCache : Cache.WhoopCache JsValues.JsValue :=
Cache.new_WhoopCache
  {| Cache.cfg_ttl := Some 1000; Cache.cfg_maxSize := Some 0;
     Cache.cfg_compress := Some false; Cache.cfg_keyStrategy := None |}.

(** The cache of a completed run of [set] calls, [start] otherwise. *)
Definition after (start : Cache.WhoopCache JsValues.JsValue)
    (r : option (Completion (Cache.WhoopCache JsValues.JsValue)))
    : Cache.WhoopCache JsValues.JsValue :=
match r with
| Some (Returns c) => c
| _ => start
end.

(** The deduplicator of the unit tests: window 100ms, two slots. *)
Definition testDedup : Dedup.RequestDeduplicator string :=
Dedup.new_RequestDeduplicator
  {| Dedup.cfg_enabled := Some true; Dedup.cfg_windowMs := Some 100;
     Dedup.cfg_maxConcurrent := Some 2 |}.

(** A deduplicator with a single slot. *)
Definition singleSlotDedup : Dedup.RequestDeduplicator string :=
Dedup.new_RequestDeduplicator
  {| Dedup.cfg_enabled := Some true; Dedup.cfg_windowMs := Some 100;
     Dedup.cfg_maxConcurrent := Some 1 |}.

(** A 401 response with a JSON body. *)
Definition unauthorized : Http.Response :=
{| Http.r_status := 401; Http.r_isJson := true;
   Http.r_json := Returns {| b_message := Some "token expired"%string; b_error := None;
                             b_error_description := None; b_code := None;
                             b_retry_after := None |};
   Http.r_text := Returns "{}"%string |}.

(** A client whose [onTokenRefresh] callback fails (say, the token store
    of the application is unavailable). *)
Definition failingHook (t : OAuth.OAuthTokens) : Completion unit :=
Throws (ThrownError (new_Error "cannot persist tokens")).

Definition clientWithFailingHook : Http.WhoopHttpClient :=
{| Http.oauthClient := Some shortWorld; Http.onTokenRefresh := Some failingHook |}.

Definition clientWithoutHook : Http.WhoopHttpClient :=
{| Http.oauthClient := Some shortWorld; Http.onTokenRefresh := None |}.

(** A client that holds the one-hour token set, and a GET that the server
    answers with the 401 while the refresh that follows succeeds. *)
Definition authenticatedClient : Http.WhoopHttpClient :=
{| Http.oauthClient := Some hourWorld; Http.onTokenRefresh := None |}.

Definition unauthorizedExchange : Http.RequestEnv :=
{| Http.env_now1 := 1000; Http.env_now2 := 1000;
   Http.env_tokenFetch := OAuth.FetchResponds true refreshedData;
   Http.env_fetch := Returns unauthorized;
   Http.env_aborted := false;
   Http.env_refreshFetch := OAuth.FetchResponds true refreshedData |}.

End Scenarios.

(** ** Cache and deduplication keys ([generateCacheKey], [generateDedupKey],
     [simpleHash]) *)

Module KeyHash.
Import Js Errors Cache.

(** [ToInt32]: the integer taken modulo 2^32 into the signed range. *)
Definition toInt32 (z : Z) : Z := (z + 2 ^ 31) mod 2 ^ 32 - 2 ^ 31.

(** [a << b] and [a & b] on numbers *)
Definition shiftLeft32 (a b : Z) : Z := toInt32 (Z.shiftl (toInt32 a) (b mod 32)).
Definition and32 (a b : Z) : Z := toInt32 (Z.land (toInt32 a) (toInt32 b)).

(** [str.charCodeAt(i)] on ASCII text *)
Definition charCode (c : Ascii.ascii) : Z := Z.of_nat (Ascii.nat_of_ascii c).

(** One iteration of the loop of [simpleHash]. *)
Definition hashStep (hash : Z) (c : Ascii.ascii) : Z :=
  let char := charCode c in
  let hash := (shiftLeft32 hash 5 - hash) + char in
  and32 hash hash.

Fixpoint hashLoop (str : string) (hash : Z) : Z :=
  match str with
  | EmptyString => hash
  | String c str' => hashLoop str' (hashStep hash c)
  end.

Definition digit36 (d : Z) : Ascii.ascii :=
  match String.get (Z.to_nat d) "0123456789abcdefghijklmnopqrstuvwxyz" with
  | Some c => c
  | None => Ascii.ascii_of_nat 48
  end.

(** [n.toString(36)] for an integer [n >= 0]; [fuel] bounds the number of
    digits after the first. *)
Fixpoint toString36_digits (fuel : nat) (n : Z) (acc : string) : string :=
  let acc' := String (digit36 (n mod 36)) acc in
  match fuel with
  | O => acc'
  | S fuel' => if n / 36 =? 0 then acc' else toString36_digits fuel' (n / 36) acc'
  end.

Definition toString36 (n : Z) : string := toString36_digits (Z.to_nat (Z.log2 n)) n "".

(** [simpleHash(str)] *)
Definition simpleHash (str : string) : string := toString36 (Z.abs (hashLoop str 0)).

(** The polynomial [c1 * 31^(n-1) + ... + cn] of the character codes,
    added to [acc * 31^n]. *)
Fixpoint poly31 (str : string) (acc : Z) : Z :=
  match str with
  | EmptyString => acc
  | String c str' => poly31 str' (31 * acc + charCode c)
  end.

Section Keys.
Context {V : Type} `{JsRuntime V}.
(** the truthiness of a value of type [V] *)
Variable truthy : V -> bool.

(** The text that a template literal makes of the result of
    [JSON.stringify]. *)
Definition template_text (s : option string) : string := default "undefined"%string s.

(** [generateCacheKey(method, url, params)] *)
Definition generateCacheKey (method url : string) (params : V) : Completion string :=
  let key (paramString : string) : string :=
    ("whoop:" ++ simpleHash (method ++ ":" ++ url ++ ":" ++ paramString))%string in
  if truthy params then
    match JSON_stringify params with
    | Returns s => Returns (key (template_text s))
    | Throws t => Throws t
    end
  else Returns (key ""%string).

(** [generateDedupKey(method, url, body)]; [simpleHash(undefined)] reads
    [undefined.length]. *)
Definition generateDedupKey (method url : string) (body : V) : Completion string :=
  if truthy body then
    match JSON_stringify body with
    | Returns (Some s) => Returns (method ++ ":" ++ url ++ ":" ++ simpleHash s)%string
    | Returns None =>
        Throws (ThrownError (new_TypeError "Cannot read properties of undefined"))
    | Throws t => Throws t
    end
  else Returns (method ++ ":" ++ url ++ ":")%string.

End Keys.

(** Truthiness on the fragment of values. *)
Definition truthy_value (v : JsValues.JsValue) : bool :=
  match v with
  | JsValues.JUndefined | JsValues.JNull => false
  | JsValues.JBool b => b
  | JsValues.JNum n => truthy_number n
  | JsValues.JStr s => truthy_string s
  | JsValues.JCircular => true
  end.

End KeyHash.

(** ** Request batching of the deduplicator ([executeBatch],
     [scheduleBatchProcessing], [processBatch]) *)

Module Batching.
Import Js Errors.

Inductive Priority := High | Normal | Low.

Definition priorityOrder (p : Priority) : Z :=
  match p with High => 0 | Normal => 1 | Low => 2 end.

(** A [BatchRequest]; [call] numbers the promise that [executeBatch]
    returned, whose [resolve] and [reject] the request holds. *)
Record BatchRequest := {
  call : nat;
  url : string;
  timestamp : Z;
  priority : Priority
}.

(** The batching state of the deduplicator. [batchTimer] is the key that
    the armed timer will process ([None] is [null]); [fetched] lists the
    requests that [processBatch] has taken up, in the order of its loop. *)
Record Batcher := {
  batchQueue : gmap string (list BatchRequest);
  batchTimer : option string;
  batchedRequests : Z;
  fetched : list BatchRequest;
  nextCall : nat
}.

Definition new_Batcher : Batcher :=
  {| batchQueue := ∅; batchTimer := None; batchedRequests := 0; fetched := [];
     nextCall := 0%nat |}.

(** [scheduleBatchProcessing(batchKey)] *)
Definition scheduleBatchProcessing (batchKey : string) (b : Batcher) : Batcher :=
  match batchTimer b with
  | Some _ => b
  | None =>
      {| batchQueue := batchQueue b; batchTimer := Some batchKey;
         batchedRequests := batchedRequests b; fetched := fetched b;
         nextCall := nextCall b |}
  end.

(** [executeBatch(batchKey, url, options, priority)] at clock [now];
    returns the number of the promise. *)
Definition executeBatch (batchKey url_ : string) (priority_ : Priority) (now : Z)
    (b : Batcher) : nat * Batcher :=
  let batch := {| call := nextCall b; url := url_; timestamp := now;
                  priority := priority_ |} in
  let queue := default [] (batchQueue b !! batchKey) in
  (nextCall b,
   scheduleBatchProcessing batchKey
     {| batchQueue := <[batchKey := queue ++ [batch]]> (batchQueue b);
        batchTimer := batchTimer b; batchedRequests := batchedRequests b;
        fetched := fetched b; nextCall := S (nextCall b) |}).

(** [Array.prototype.sort] with the comparator of [processBatch]: the sort
    is stable, so any stable sorting procedure gives its result; this one
    inserts each request before the first one of lower priority. *)
Fixpoint insertByPriority (x : BatchRequest) (l : list BatchRequest) : list BatchRequest :=
  match l with
  | [] => [x]
  | y :: l' =>
      if priorityOrder (priority y) - priorityOrder (priority x) <? 0
      then y :: insertByPriority x l'
      else x :: l
  end.

Definition sortByPriority (batch : list BatchRequest) : list BatchRequest :=
  fold_right insertByPriority [] batch.

(** [processBatch(batchKey)] up to its loop. *)
Definition processBatch (batchKey : string) (b : Batcher) : Batcher :=
  match batchQueue b !! batchKey with
  | None => b
  | Some batch =>
      if Nat.eqb (length batch) 0 then b
      else
        {| batchQueue := base.delete batchKey (batchQueue b);
           batchTimer := batchTimer b;
           batchedRequests := batchedRequests b + Z.of_nat (length batch);
           fetched := fetched b ++ sortByPriority batch;
           nextCall := nextCall b |}
  end.

(** The 50ms timer fires: [processBatch(batchKey); this.batchTimer = null]. *)
Definition timerFires (b : Batcher) : Batcher :=
  match batchTimer b with
  | None => b
  | Some batchKey =>
      let b' := processBatch batchKey b in
      {| batchQueue := batchQueue b'; batchTimer := None;
         batchedRequests := batchedRequests b'; fetched := fetched b';
         nextCall := nextCall b' |}
  end.

(** The requests of a given priority, in their order. *)
Definition withPriority (p : Priority) (l : list BatchRequest) : list BatchRequest :=
  List.filter (fun r => priorityOrder (priority r) =? priorityOrder p) l.

End Batching.

(** ** The remaining flows of the token manager ([exchangeCodeForTokens],
     [revokeToken], the authorization callback) *)

Module OAuthFlows.
Import Js Errors OAuth.

(** [new WhoopOAuthError(message, oauthError, oauthErrorDescription)]; the
    two OAuth fields are kept in the [details] of the error record. *)
Definition new_WhoopOAuthError (msg : string) (oauthError oauthErrorDescription : option string)
    : JsError :=
  MkError WhoopOAuthError msg None "OAUTH_ERROR" None
    (Some (BJson {| b_message := None; b_error := oauthError;
                    b_error_description := oauthErrorDescription;
                    b_code := None; b_retry_after := None |}))
    None.

Definition with_tokens (t : option OAuthTokens) (c : WhoopOAuthClient) : WhoopOAuthClient :=
  {| config := config c; tokens := t; refreshPromise := refreshPromise c |}.

(** [exchangeCodeForTokens(code)] from the settlement of its request: the
    completion and the client afterwards. *)
Definition exchangeCodeForTokens (o : FetchOutcome) (c : WhoopOAuthClient)
    : Completion OAuthTokens * WhoopOAuthClient :=
  match o with
  | FetchFails error =>
      (match cls error with
       | WhoopOAuthError => Throws (ThrownError error)
       | _ => Throws (ThrownError (fromNetworkError error))
       end, c)
  | FetchResponds ok data =>
      if negb ok then
        (Throws (ThrownError
           (new_WhoopOAuthError
              (or_string (or_else_string (d_error_description data) (d_error data))
                         "Token exchange failed")
              (d_error data) (d_error_description data))), c)
      else
        let tokens_ :=
          {| access_token := d_access_token data;
             refresh_token := default ""%string (d_refresh_token data);
             expires_in := d_expires_in data;
             token_type := or_string (d_token_type data) "Bearer";
             scope := or_string (d_scope data) (String.concat " " (scopes (config c))) |} in
        (Returns tokens_, with_tokens (Some tokens_) c)
  end.

(** How the request of [revokeToken] ends: [fetch] rejects, or a response
    arrives; [data] is the completion of [response.json()], read only when
    the response is not ok. *)
Inductive RevokeOutcome :=
| RevokeFails (error : JsError)
| RevokeResponds (ok : bool) (data : Completion TokenData).

(** The object [{}] *)
Definition noData : TokenData :=
  {| d_access_token := ""; d_refresh_token := None; d_expires_in := 0;
     d_token_type := None; d_scope := None; d_error := None;
     d_error_description := None |}.

(** The response data as the [details] of an error: the fields that
    [BodyFields] has. *)
Definition dataDetails (data : TokenData) : ResponseBody :=
  BJson {| b_message := None; b_error := d_error data;
           b_error_description := d_error_description data;
           b_code := None; b_retry_after := None |}.

(** [token === this.tokens?.access_token || !token] *)
Definition revokedCurrent (token : option string) (c : WhoopOAuthClient) : bool :=
  match token with
  | None => true
  | Some t =>
      match tokens c with
      | Some stored => String.eqb t (access_token stored)
      | None => false
      end || negb (truthy_string t)
  end.

(** [revokeToken(token?)], run without other calls in between: the token
    that the request carried ([None]: no request was sent), the completion
    and the client afterwards. *)
Definition revokeToken (token : option string) (o : RevokeOutcome) (c : WhoopOAuthClient)
    : option string * Completion unit * WhoopOAuthClient :=
  let tokenToRevoke :=
    or_else_string token
      (match tokens c with Some t => Some (access_token t) | None => None end) in
  let noToken :=
    (None, Throws (ThrownError (new_WhoopAuthError "No token available to revoke" None)), c) in
  match tokenToRevoke with
  | None => noToken
  | Some tokenToRevoke =>
      if negb (truthy_string tokenToRevoke) then noToken
      else
        match o with
        | RevokeFails error =>
            (Some tokenToRevoke,
             match cls error with
             | WhoopAuthError => Throws (ThrownError error)
             | _ => Throws (ThrownError (fromNetworkError error))
             end, c)
        | RevokeResponds ok data =>
            if negb ok then
              let data := match data with Returns d => d | Throws _ => noData end in
              (Some tokenToRevoke,
               Throws (ThrownError
                 (new_WhoopAuthError
                    (or_string (or_else_string (d_error_description data) (d_error data))
                               "Token revocation failed")
                    (Some (dataDetails data)))), c)
            else
              (Some tokenToRevoke, Returns tt,
               if revokedCurrent token c then with_tokens None c else c)
        end
  end.

(** What [parseAuthorizationCallback] returns. *)
Record Callback := {
  cb_code : option string;
  cb_state : option string;
  cb_error : option string;
  cb_errorDescription : option string
}.

(** [searchParams.get(name)]: the first value given for the name. *)
Fixpoint params_get (name : string) (params : list (string * string)) : option string :=
  match params with
  | [] => None
  | (n, v) :: params' => if String.eqb n name then Some v else params_get name params'
  end.

(** [if (v) result.field = v] *)
Definition if_truthy (v : option string) : option string :=
  match v with
  | Some s => if truthy_string s then Some s else None
  | None => None
  end.

(** [parseAuthorizationCallback(url)]. [parsed] is what [new URL(url)]
    gives: [None] when it throws, otherwise the query parameters in
    order. *)
Definition parseAuthorizationCallback (parsed : option (list (string * string)))
    : Completion Callback :=
  match parsed with
  | None => Throws (ThrownError (new_WhoopOAuthError "Invalid callback URL" None None))
  | Some params =>
      Returns {| cb_code := if_truthy (params_get "code" params);
                 cb_state := if_truthy (params_get "state" params);
                 cb_error := if_truthy (params_get "error" params);
                 cb_errorDescription := if_truthy (params_get "error_description" params) |}
  end.

Record Authorization := {
  auth_code : string;
  auth_state : option string
}.

(** [validateAuthorizationCallback(url, expectedState?)] *)
Definition validateAuthorizationCallback (parsed : option (list (string * string)))
    (expectedState : option string) : Completion Authorization :=
  match parseAuthorizationCallback parsed with
  | Throws t => Throws t
  | Returns parsed =>
      match if_truthy (cb_error parsed) with
      | Some error =>
          Throws (ThrownError
            (new_WhoopOAuthError (or_string (cb_errorDescription parsed) error)
               (cb_error parsed) (cb_errorDescription parsed)))
      | None =>
          match if_truthy (cb_code parsed) with
          | None =>
              Throws (ThrownError
                (new_WhoopOAuthError "Authorization code not found in callback" None None))
          | Some code_ =>
              let mismatch :=
                match if_truthy expectedState with
                | Some expected =>
                    negb (match cb_state parsed with
                          | Some s => String.eqb s expected
                          | None => false
                          end)
                | None => false
                end in
              if mismatch then
                Throws (ThrownError (new_WhoopOAuthError "State parameter mismatch" None None))
              else
                Returns {| auth_code := code_; auth_state := if_truthy (cb_state parsed) |}
          end
      end
  end.

End OAuthFlows.

(** ** Construction of the clients, and [request] of [WhoopHttpClient] *)

Module Client.
Import Js Errors OAuth Http OAuthFlows.

(** [OAuthConfig] as the caller gives it. *)
Record OAuthConfigInput := {
  in_clientId : string;
  in_clientSecret : string;
  in_redirectUri : string;
  in_baseUrl : option string;
  in_scopes : option (list string)
}.

Section Construction.
(** [new URL(text)] does not throw *)
Variable validUrl : string -> bool.

(** [new WhoopOAuthClient(config)]: the defaults, then [validateConfig]. *)
Definition new_WhoopOAuthClient (cfg : OAuthConfigInput) : Completion World :=
  let config_ :=
    {| clientId := in_clientId cfg; clientSecret := in_clientSecret cfg;
       redirectUri := in_redirectUri cfg;
       baseUrl := default "https://api.prod.whoop.com"%string (in_baseUrl cfg);
       scopes := default ["read:profile"; "offline"]%string (in_scopes cfg) |} in
  if negb (truthy_string (clientId config_)) then
    Throws (ThrownError (new_WhoopOAuthError "Client ID is required" None None))
  else if negb (truthy_string (clientSecret config_)) then
    Throws (ThrownError (new_WhoopOAuthError "Client secret is required" None None))
  else if negb (truthy_string (redirectUri config_)) then
    Throws (ThrownError (new_WhoopOAuthError "Redirect URI is required" None None))
  else if negb (validUrl (redirectUri config_)) then
    Throws (ThrownError (new_WhoopOAuthError "Redirect URI must be a valid URL" None None))
  else Returns (new_World config_).

(** The part of [WhoopSDKConfig] that the constructor of the HTTP client
    reads for its token handling. *)
Record SDKConfig := {
  accessToken : option string;
  refreshToken : option string;
  oauth : option OAuthConfigInput;
  sdk_onTokenRefresh : option (OAuthTokens -> Completion unit)
}.

Definition truthy_option (s : option string) : bool :=
  match s with Some s => truthy_string s | None => false end.

(** [new WhoopHttpClient(config)] *)
Definition new_WhoopHttpClient (cfg : SDKConfig) : Completion WhoopHttpClient :=
  let finish (oauthClient_ : option World) : Completion WhoopHttpClient :=
    if truthy_option (accessToken cfg) && truthy_option (refreshToken cfg) then
      match oauthClient_ with
      | None =>
          Throws (ThrownError
            (new_WhoopAuthError "OAuth configuration required when providing tokens" None))
      | Some w =>
          Returns
            {| oauthClient :=
                 Some (setTokens
                         {| access_token := default ""%string (accessToken cfg);
                            refresh_token := default ""%string (refreshToken cfg);
                            expires_in := 3600;
                            token_type := "Bearer";
                            scope := "read:profile offline" |} w);
               onTokenRefresh := sdk_onTokenRefresh cfg |}
      end
    else Returns {| oauthClient := oauthClient_; onTokenRefresh := sdk_onTokenRefresh cfg |} in
  match oauth cfg with
  | Some o =>
      match new_WhoopOAuthClient o with
      | Returns w => finish (Some w)
      | Throws t => Throws t
      end
  | None => finish None
  end.

(** [createWhoopSDKWithToken(accessToken, refreshToken?, config)]: the HTTP
    client of the SDK it builds. [config] cannot carry tokens of its own. *)
Definition createWhoopSDKWithToken (accessToken_ : string) (refreshToken_ : option string)
    (oauth_ : option OAuthConfigInput)
    (hook : option (OAuthTokens -> Completion unit)) : Completion WhoopHttpClient :=
  new_WhoopHttpClient
    {| accessToken := Some accessToken_;
       refreshToken := if truthy_option refreshToken_ then refreshToken_ else None;
       oauth := oauth_;
       sdk_onTokenRefresh := hook |}.

End Construction.

(** [isAuthenticated()] of the HTTP client; the two clocks are those of
    [isTokenExpired]. *)
Definition isAuthenticated (now1 now2 : Z) (h : WhoopHttpClient) : bool :=
  match oauthClient h with
  | Some w =>
      match getTokens w with
      | Some t => negb (isTokenExpired now1 now2 (Some t) (client w))
      | None => false
      end
  | None => false
  end.

(** [getTokens()] of the HTTP client: [this.oauthClient?.getTokens()] *)
Definition getTokens (h : WhoopHttpClient) : option OAuthTokens :=
  match oauthClient h with
  | Some w => OAuth.getTokens w
  | None => None
  end.

(** One call of [performRequest]: its arguments and what the environment
    does during it. *)
Record RequestCall := {
  rc_method : string;
  rc_body : RequestPayload;
  rc_headers : JsMap string;
  rc_env : RequestEnv
}.

(** Requests performed one after the other: the [Authorization] property
    of the headers prepared for each, and the client afterwards. *)
Fixpoint performAll (calls_ : list RequestCall) (h : WhoopHttpClient)
    : option (list (option string) * WhoopHttpClient) :=
  match calls_ with
  | [] => Some ([], h)
  | c :: calls' =>
      match performRequest (rc_method c) (rc_body c) (rc_headers c) (rc_env c) h with
      | Some (_, h', authorization) =>
          match performAll calls' h' with
          | Some (sent_, h'') => Some (authorization :: sent_, h'')
          | None => None
          end
      | None => None
      end
  end.

(** [request(method, path, options)]: [retries] and [signal_] are those
    of the merged options ([retries] is 3 unless the caller sets it), and
    [attempt i] is the completion of the i-th [performRequest]. *)
Definition request (retries : option Z) (signal_ : option Retry.AbortSignal)
    (attempt : nat -> Completion ResponseBody) (random : nat -> Q)
    : Retry.RetryRun ResponseBody :=
  Retry.withRetry attempt
    {| Retry.maxAttempts :=
         Some (match retries with
               | Some r => if truthy_number r then r else 1
               | None => 1
               end);
       Retry.baseDelayMs := None; Retry.maxDelayMs := None;
       Retry.signal := signal_ |} random.

End Client.

(** ** [OptimizedHttpClient] ([utils/http-client]) *)

Module OptimizedHttp.
Import Js Errors Http Batching.

(** [createErrorFromResponse(response)] *)
Definition createErrorFromResponse (response : Response) (statusText : string) : JsError :=
  let body :=
    match r_json response with
    | Returns b => BJson b
    | Throws _ =>
        BJson {| b_message := Some statusText; b_error := None;
                 b_error_description := None; b_code := None; b_retry_after := None |}
    end in
  fromHttpStatus (r_status response) body.

(** The operation that [executeRequest] hands to [withRetry]; [fetched] is
    how [fetch] ends, with the [statusText] of the response. *)
Definition requestAttempt (fetched_ : Completion (Response * string)) : Completion BodyFields :=
  match fetched_ with
  | Throws t => Throws t
  | Returns (response, statusText) =>
      if negb (ok response) then
        Throws (ThrownError (createErrorFromResponse response statusText))
      else r_json response
  end.

(** [executeRequest(method, url, data, options)]: [fetches i] is how the
    i-th [fetch] ends. *)
Definition executeRequest (maxRetries retryDelay : option Z) (signal_ : Retry.AbortSignal)
    (fetches : nat -> Completion (Response * string)) (random : nat -> Q)
    : Retry.RetryRun BodyFields :=
  Retry.withRetry (fun i => requestAttempt (fetches i))
    {| Retry.maxAttempts := Some (default 3 maxRetries);
       Retry.baseDelayMs := Some (default 1000 retryDelay);
       Retry.maxDelayMs := Some 10000;
       Retry.signal := Some signal_ |} random.

(** How [batch] ends: with the results, or rejected with the reason of the
    request that [Promise.all] saw fail first, one of [reasons]. *)
Inductive BatchOutcome (T : Type) :=
| BatchResolved (results : list T)
| BatchRejected (reasons : list Thrown).
Arguments BatchResolved {T} results.
Arguments BatchRejected {T} reasons.

Section Batch.
Context {Req T : Type}.
(** [req.options?.priority] *)
Variable priorityOf : Req -> option Priority.
(** how [this.request(...)] ends for a request *)
Variable request : Req -> Completion T.

Definition inGroup (p : Priority) (req : Req) : bool :=
  priorityOrder (default Normal (priorityOf req)) =? priorityOrder p.

Definition values (cs : list (Completion T)) : list T :=
  List.concat (List.map (fun c => match c with Returns v => [v] | Throws _ => [] end) cs).

Definition failures (cs : list (Completion T)) : list Thrown :=
  List.concat (List.map (fun c => match c with Returns _ => [] | Throws t => [t] end) cs).

(** The loop of [batch] over the priorities [groups]: the outcome and the
    requests that were issued. *)
Fixpoint batchGroups (groups : list Priority) (requests : list Req) (results : list T)
    (issued : list Req) : BatchOutcome T * list Req :=
  match groups with
  | [] => (BatchResolved results, issued)
  | p :: groups' =>
      let group := List.filter (inGroup p) requests in
      let settled := List.map request group in
      match failures settled with
      | [] => batchGroups groups' requests (results ++ values settled) (issued ++ group)
      | reasons => (BatchRejected reasons, issued ++ group)
      end
  end.

(** [batch(requests)] *)
Definition batch (requests : list Req) : BatchOutcome T * list Req :=
  batchGroups [High; Normal; Low] requests [] [].

End Batch.

(** The cache part of [request]: the lookup before the request is made and
    the store after it. *)
Record Metrics := {
  totalRequests : Z;
  cachedRequests : Z
}.

Section CachedRequest.
Context {V : Type} `{Cache.JsRuntime V}.
Variable truthy : V -> bool.

(** The state of the client that [request] reads and writes up to its
    [await]. *)
Record ClientState := {
  cache : Cache.WhoopCache V;
  metrics : Metrics
}.

(** [request] up to the deduplicator: [Some v] when it returns the cached
    value [v]. *)
Definition lookupCached (isGet skipCache : bool) (cacheKey : string) (now : Z)
    (s : ClientState) : option V * ClientState :=
  let counted := {| totalRequests := totalRequests (metrics s) + 1;
                    cachedRequests := cachedRequests (metrics s) |} in
  if isGet && negb skipCache then
    let '(cached, cache') := Cache.get now cacheKey (cache s) in
    match cached with
    | Some v =>
        if truthy v then
          (Some v, {| cache := cache';
                      metrics := {| totalRequests := totalRequests counted;
                                    cachedRequests := cachedRequests counted + 1 |} |})
        else (None, {| cache := cache'; metrics := counted |})
    | None => (None, {| cache := cache'; metrics := counted |})
    end
  else (None, {| cache := cache s; metrics := counted |}).

(** [request] after the deduplicator has answered with [result]: the
    store into the cache. *)
Definition storeResult (fuel : nat) (isGet skipCache : bool) (cacheKey : string)
    (cacheTtl : option Z) (now : Z) (result : V) (s : ClientState)
    : option (Completion ClientState) :=
  if isGet && negb skipCache then
    match Cache.set fuel now cacheKey result cacheTtl (cache s) with
    | Some (Returns cache') => Some (Returns {| cache := cache'; metrics := metrics s |})
    | Some (Throws t) => Some (Throws t)
    | None => None
    end
  else Some (Returns s).

End CachedRequest.

End OptimizedHttp.

(** ** Runs of cache operations *)

Module CacheRuns.
Import Js Errors Cache.

Section Ops.
Context {V : Type} `{JsRuntime V}.

Inductive Op :=
| OpGet (now : Z) (key : string)
| OpHas (now : Z) (key : string)
| OpSet (now : Z) (key : string) (data : V) (customTtl : option Z)
| OpDelete (key : string)
| OpCleanup (now : Z)
| OpClear.

(** One operation; [None] when [set] does not leave its loop. A [set]
    that throws has changed nothing. *)
Definition apply (fuel : nat) (op : Op) (c : WhoopCache V) : option (WhoopCache V) :=
  match op with
  | OpGet now key => Some (snd (get now key c))
  | OpHas now key => Some (snd (has now key c))
  | OpSet now key data customTtl =>
      match set fuel now key data customTtl c with
      | Some (Returns c') => Some c'
      | Some (Throws _) => Some c
      | None => None
      end
  | OpDelete key => Some (snd (delete key c))
  | OpCleanup now => Some (cleanup now c)
  | OpClear => Some (clear c)
  end.

Fixpoint run (fuel : nat) (ops : list Op) (c : WhoopCache V) : option (WhoopCache V) :=
  match ops with
  | [] => Some c
  | op :: ops' =>
      match apply fuel op c with
      | Some c' => run fuel ops' c'
      | None => None
      end
  end.

(** No [set] of the run writes a key that is present when it is called. *)
Fixpoint writesFreshKeys (fuel : nat) (ops : list Op) (c : WhoopCache V) : Prop :=
  match ops with
  | [] => True
  | op :: ops' =>
      match op with
      | OpSet _ key _ _ => map_get key (cache c) = None
      | _ => True
      end /\
      match apply fuel op c with
      | Some c' => writesFreshKeys fuel ops' c'
      | None => True
      end
  end.

(** The test of [get] and [cleanup] for an entry that is too old. *)
Definition expired (now : Z) (entry : CacheEntry V) : bool :=
  now - e_timestamp entry >? e_ttl entry.

End Ops.
Arguments Op V : clear implicits.

End CacheRuns.

(** ** Counting the executions of the deduplicator *)

Module DedupStats.
Import Js Errors Dedup.

Definition isLeader (r : Running) : bool :=
  match r with Leader _ => true | Direct => false end.

(** The executions started by [executeWithMetrics] that have not settled. *)
Definition leaders (m : gmap nat Running) : nat :=
  length (List.filter (fun kv => isLeader (snd kv)) (map_to_list m)).

Definition leaderCount {R} (d : RequestDeduplicator R) : nat := leaders (running d).

(** The counters agree with the executions: every execution that counts
    has its pending-request object, [concurrentRequests] is their number,
    and the high-water mark is above it and within [maxConcurrent]. *)
Definition counted {R} (d : RequestDeduplicator R) : Prop :=
  consistent d /\
  (forall e k, running d !! e = Some (Leader k) -> is_Some (store d !! e)) /\
  concurrentRequests (stats d) = Z.of_nat (leaderCount d) /\
  concurrentRequests (stats d) <= maxConcurrentRequests (stats d) /\
  maxConcurrentRequests (stats d) <= Z.max 0 (maxConcurrent (config d)).

Definition isExecute {R} (e : Event (R := R)) : bool :=
  match e with EvExecute _ _ _ => true | _ => false end.

(** No call of the trace passes [skipDedup]. *)
Definition deduplicated {R} (e : Event (R := R)) : Prop :=
  match e with EvExecute _ skipDedup _ => skipDedup = false | _ => True end.

End DedupStats.

(** ** Counting the failed invocations of a retried operation *)

Module RetryRuns.
Import Js Errors.

(** How many of the first [n] invocations of [fn] failed. *)
Definition failedInvocations {T} (fn : nat -> Completion T) (n : nat) : nat :=
  length (List.filter (fun i => is_throw (fn i)) (List.seq 1 n)).

End RetryRuns.

(** ** Concrete inputs used by the examples of the remaining components *)

Module RetryExamples.
Import Js Errors.
(** An operation that fails with a server error once and then answers. *)
Definition secondSucceeds (i : nat) : Completion string :=
if Nat.eqb i 2 then Returns "data"%string else Throws (Scenarios.serverError i).
End RetryExamples.

Module ClientExamples.
Import Js Errors OAuth Http Client OAuthFlows.

(** A 404 response with a JSON body, a client without OAuth
    configuration, and a GET that is answered with the 404. *)
Definition notFound : Response :=
{| r_status := 404; r_isJson := true;
   r_json := Returns {| b_message := Some "no such cycle"%string; b_error := None;
                        b_error_description := None; b_code := None;
                        b_retry_after := None |};
   r_text := Returns "{}"%string |}.

Definition plainClient : WhoopHttpClient :=
{| oauthClient := None; onTokenRefresh := None |}.

Definition notFoundExchange : RequestEnv :=
{| env_now1 := 0; env_now2 := 0;
   env_tokenFetch := FetchFails (new_Error "unused");
   env_fetch := Returns notFound;
   env_aborted := false;
   env_refreshFetch := FetchFails (new_Error "unused") |}.

Definition notFoundAttempt (i : nat) : Completion ResponseBody :=
Throws (ThrownError (fromNetworkError (fromHttpStatus 404 (parseBody notFound)))).

Definition sdkOAuth : OAuthConfigInput :=
{| in_clientId := "client"; in_clientSecret := "secret";
   in_redirectUri := "https://app.example/callback";
   in_baseUrl := None; in_scopes := None |}.

Definition anyUrl (text : string) : bool := true.

(** A GET without headers of its own, and a POST whose caller signs it. *)
Definition plainGet : RequestCall :=
{| rc_method := "GET"; rc_body := NoBody; rc_headers := []; rc_env := notFoundExchange |}.

Definition signedPost : RequestCall :=
{| rc_method := "POST"; rc_body := Body (Returns (Some "{}"%string));
   rc_headers := [("Authorization", "Bearer own")]%string;
   rc_env := notFoundExchange |}.

(** The token endpoint answers an authorization code. *)
Definition issuedData : TokenData :=
{| d_access_token := "at-9"; d_refresh_token := Some "rt-9"%string;
   d_expires_in := 3600; d_token_type := None; d_scope := None;
   d_error := None; d_error_description := None |}.

End ClientExamples.

Module CacheExamples.
Import Js Errors Cache JsValues.

(** The cache that [OptimizedHttpClient] creates for itself. *)
Definition clientCache : WhoopCache JsValue :=
new_WhoopCache
  {| cfg_ttl := Some (5 * 60 * 1000); cfg_maxSize := Some 1000;
     cfg_compress := Some true; cfg_keyStrategy := None |}.

(** A text of 1100 characters. *)
Definition largeText : string :=
String.concat "" (List.repeat "0123456789"%string 110).

Definition largeValue : JsValue := JStr largeText.

(** The client after its first request. *)
Definition clientState : OptimizedHttp.ClientState :=
{| OptimizedHttp.cache := clientCache;
   OptimizedHttp.metrics := {| OptimizedHttp.totalRequests := 1;
                               OptimizedHttp.cachedRequests := 0 |} |}.

(** Two inserts, a read after the first entry has expired, and the timer. *)
Definition mixedOps : list (CacheRuns.Op JsValue) :=
[CacheRuns.OpSet 0 "a" (JStr "x") None;
 CacheRuns.OpSet 900 "b" (JStr "yy") None;
 CacheRuns.OpGet 950 "a";
 CacheRuns.OpCleanup 1500;
 CacheRuns.OpSet 1600 "c" (JNum 7) (Some 10);
 CacheRuns.OpDelete "zz"]%string.

End CacheExamples.

Module BatchExamples.
Import Js Errors Http Batching OptimizedHttp.

Definition neverAborted : Retry.AbortSignal := fun _ => false.

(** Every request is answered with the 404 of [notFound]. *)
Definition alwaysNotFound (i : nat) : Completion (Response * string) :=
Returns (ClientExamples.notFound, "Not Found"%string).

(** Three requests of a batch, by name, the second one urgent. *)
Definition batchPriority (req : string) : option Priority :=
if String.eqb req "recovery" then Some High
else if String.eqb req "profile" then Some Low
else None.

Definition answered (req : string) : Completion string := Returns ("data of " ++ req)%string.

(** The same, but the urgent request fails. *)
Definition recoveryFails (req : string) : Completion string :=
if String.eqb req "recovery" then Throws (ThrownError (new_Error "fetch failed"))
else answered req.

End BatchExamples.

Module DedupExamples.
Import Js Errors Dedup.

(** A deduplicator configured with [maxConcurrent: 0]. *)
Definition noSlots : RequestDedupe :=
{| cfg_enabled := None; cfg_windowMs := None; cfg_maxConcurrent := Some 0 |}.

(** Two calls, the timer of the first one, and a cancellation. *)
Definition waitingCalls : list (Event (R := string)) :=
[EvExecute "x" false 0; EvExecute "y" false 5; EvSlotPoll 0 10; EvCancel "x";
 EvSlotPoll 1 15; EvClear]%string.

End DedupExamples.

(** * Properties *)

(** ** Retry *)

Module RetryFacts.
Import Js Errors Retry.

Section Exhaustion.
Context {T : Type}.
Variable err : nat -> Thrown.
Variable random : nat -> Q.
Variables (n base maxd : Z).
Hypothesis retryable : forall i, canRetry (getRetryInfo (err i)) = true.

Let fn : nat -> Completion T := fun i => Throws (err i).

(** The loop on an operation that always fails with a retryable error and
    without a signal: from attempt [n - remaining + 1] it makes [remaining]
    more invocations and throws the error of the last one. *)
Lemma retryLoop_always_failing (remaining : nat) :
  forall attempt last calls_ sleeps_,
    (0 < remaining)%nat ->
    attempt = n - Z.of_nat remaining + 1 ->
    let run := retryLoop fn random n base maxd None remaining attempt last calls_ sleeps_ in
    calls run = (calls_ + remaining)%nat /\
    outcome run = Throws (err (calls_ + remaining)%nat).
Proof.
  induction remaining as [|r IH]; intros attempt last calls_ sleeps_ Hpos Hatt; [lia|].
  cbn [retryLoop]. unfold aborted, fn. cbn zeta.
  destruct (Z.eqb_spec attempt n) as [Heq|Hne].
  - assert (r = 0%nat) by lia. subst r. cbn.
    replace (calls_ + 1)%nat with (S calls_) by lia. auto.
  - rewrite retryable. cbn [negb].
    assert (0 < r)%nat by lia.
    destruct (IH (attempt + 1) (Some (err (S calls_))) (S calls_)
                 (sleeps_ ++ [finalDelay base maxd attempt (getRetryInfo (err (S calls_)))
                                (random (S calls_))])) as [Hc Ho]; [lia|lia|].
    cbn zeta in Hc, Ho. unfold fn in Hc, Ho. rewrite Hc, Ho.
    replace (S calls_ + r)%nat with (calls_ + S r)%nat by lia. auto.
Qed.

End Exhaustion.

(** C4. When every invocation of the operation rejects with a retryable
    error and [maxAttempts] is [n >= 1] (no abort signal), [withRetry]
    invokes the operation exactly [n] times and rejects with the very error
    of the n-th invocation. *)
Theorem withRetry_exhaustion :
  forall (T : Type) (err : nat -> Thrown) (random : nat -> Q) (n : Z)
         (base maxd : option Z),
    1 <= n ->
    (forall i, canRetry (getRetryInfo (err i)) = true) ->
    let run :=
      withRetry (T := T) (fun i => Throws (err i))
        {| maxAttempts := Some n; baseDelayMs := base; maxDelayMs := maxd;
           signal := None |} random in
    calls run = Z.to_nat n /\ outcome run = Throws (err (Z.to_nat n)).
Proof.
  intros T err random n base maxd Hn Hretry. unfold withRetry. cbn [maxAttempts baseDelayMs maxDelayMs signal default].
  cbn zeta.
  destruct (retryLoop_always_failing (T := T) err random n (default 1000 base)
              (default 30000 maxd) Hretry (Z.to_nat n) 1 None 0%nat [])
    as [Hc Ho]; [lia|lia|].
  cbn zeta in Hc, Ho. auto.
Qed.

(** The same at [maxAttempts = 3] on server errors 501, 502, 503. *)
Lemma withRetry_exhaustion_witness :
  let run := withRetry Scenarios.alwaysFailing Scenarios.threeAttempts Scenarios.noJitter in
  calls run = 3%nat /\ outcome run = Throws (Scenarios.serverError 3).
Proof.
  apply (withRetry_exhaustion string Scenarios.serverError Scenarios.noJitter 3 None None).
  - lia.
  - intro i. unfold Scenarios.serverError, getRetryInfo. cbn.
    unfold isServerError. cbn. apply Z.leb_le. lia.
Defined.

(** A non-retryable failure ends the loop at the first attempt. *)
Lemma withRetry_non_retryable :
  forall (T : Type) (fn : nat -> Completion T) (random : nat -> Q) (n : Z)
         (base maxd : option Z) (e : Thrown),
    1 <= n ->
    fn 1%nat = Throws e ->
    canRetry (getRetryInfo e) = false ->
    let run :=
      withRetry fn {| maxAttempts := Some n; baseDelayMs := base; maxDelayMs := maxd;
                      signal := None |} random in
    calls run = 1%nat /\ outcome run = Throws e.
Proof.
  intros T fn random n base maxd e Hn Hfn Hno. unfold withRetry.
  cbn [maxAttempts baseDelayMs maxDelayMs signal default]. cbn zeta. unfold id.
  destruct (Z.to_nat n) as [|r] eqn:Hr; [lia|].
  cbn [retryLoop]. unfold aborted. rewrite Hfn.
  destruct (1 =? n); cbn; [auto|]. rewrite Hno. cbn. auto.
Qed.

End RetryFacts.

(** ** Token manager *)

Module OAuthFacts.
Import Js Errors OAuth.

(** What [isTokenExpired] computes on a present token set: it depends on
    the two clock readings only through their difference. *)
Lemma isTokenExpired_rule :
  forall now1 now2 t c,
    isTokenExpired now1 now2 (Some t) c =
    truthy_number (expires_in t) && (expires_in t * 1000 - 300000 <=? now2 - now1).
Proof.
  intros now1 now2 t c. unfold isTokenExpired, bufferMs.
  destruct (truthy_number (expires_in t)); cbn; [|reflexivity].
  destruct (Z.leb_spec (now1 + expires_in t * 1000 - 5 * 60 * 1000) now2);
    destruct (Z.leb_spec (expires_in t * 1000 - 300000) (now2 - now1)); auto; lia.
Qed.

(** Read at one instant, the answer does not depend on the clock at all. *)
Lemma isTokenExpired_same_instant :
  forall now now' t c,
    isTokenExpired now now (Some t) c = isTokenExpired now' now' (Some t) c.
Proof.
  intros. rewrite !isTokenExpired_rule. rewrite !Z.sub_diag. reflexivity.
Qed.

(** A token set that [isTokenExpired] accepts is handed out unchanged, and
    nothing else happens. *)
Lemma getValidAccessToken_not_expired :
  forall now1 now2 w t,
    tokens (client w) = Some t ->
    isTokenExpired now1 now2 (Some t) (client w) = false ->
    let '(call, w') := getValidAccessToken now1 now2 w in
    results w' !! call = Some (Returns (VString (access_token t))) /\
    client w' = client w /\ log w' = log w.
Proof.
  intros now1 now2 w t Ht Hexp. unfold getValidAccessToken. rewrite Ht, Hexp.
  cbn. rewrite lookup_insert_eq. auto.
Qed.

(** A token set that [isTokenExpired] rejects makes [getValidAccessToken]
    call [refreshAccessToken]. *)
Lemma getValidAccessToken_expired :
  forall now1 now2 w t,
    tokens (client w) = Some t ->
    isTokenExpired now1 now2 (Some t) (client w) = true ->
    getValidAccessToken now1 now2 w = refreshAccessToken None ReturnAccessToken w.
Proof.
  intros now1 now2 w t Ht Hexp. unfold getValidAccessToken. now rewrite Ht, Hexp.
Qed.

(** C1. The one-hour token set stored at clock 0 is expired by the rule of
    the specification at clock 4,000,000 (and at any later clock), but
    [isTokenExpired] answers false, and [getValidAccessToken] hands out the
    old access token without a refresh request. *)
Theorem isTokenExpired_ignores_issue_time :
  spec_isTokenExpired 0 4000000 Scenarios.hourToken = true /\
  isTokenExpired 4000000 4000000 None (client Scenarios.hourWorld) = false /\
  (let '(call, w') := getValidAccessToken 4000000 4000000 Scenarios.hourWorld in
   results w' !! call = Some (Returns (VString "at-1")) /\ fetchCount w' = 0%nat).
Proof. vm_compute. auto. Qed.

(** *** Single-flight refresh *)

Lemma fetchCount_snoc :
  forall (l : list Event) e,
    length (List.filter is_fetch (l ++ [e])) =
    (length (List.filter is_fetch l) + (if is_fetch e then 1 else 0))%nat.
Proof.
  intros l e. rewrite List.filter_app, length_app. cbn. now destruct (is_fetch e).
Qed.

(** A call that has a refresh token and finds a promise in the slot is
    registered on that promise; no request is sent. *)
Lemma refreshAccessToken_in_flight :
  forall w p refreshToken k,
    refreshPromise (client w) = Some p ->
    tokenAvailable refreshToken w = true ->
    refreshAccessToken refreshToken k w =
    (nextCall w,
     {| client :=
          {| config := config (client w); tokens := tokens (client w);
             refreshPromise :=
               Some {| promise_id := promise_id p; sent := sent p;
                       reactions := reactions p ++ [Adopt (nextCall w) k] |} |};
        results := results w; nextCall := S (nextCall w);
        log := log w ++ [EvRefreshCall (nextCall w)] |}).
Proof.
  intros w p refreshToken k Hp Hav. unfold refreshAccessToken, tokenAvailable in *.
  destruct (or_else_string refreshToken _) as [s|]; [|discriminate].
  rewrite Hav, Hp. reflexivity.
Qed.

(** A call that has a refresh token and finds the slot empty sends one
    request and puts its promise in the slot. *)
Lemma refreshAccessToken_idle :
  forall w refreshToken k,
    refreshPromise (client w) = None ->
    tokenAvailable refreshToken w = true ->
    exists sent_,
      refreshAccessToken refreshToken k w =
      (nextCall w,
       {| client :=
            {| config := config (client w); tokens := tokens (client w);
               refreshPromise :=
                 Some {| promise_id := nextCall w; sent := sent_;
                         reactions := [ResumeRefresh (nextCall w) k] |} |};
          results := results w; nextCall := S (nextCall w);
          log := (log w ++ [EvRefreshCall (nextCall w)]) ++ [EvFetch sent_] |}) /\
      or_else_string refreshToken
        (match tokens (client w) with
         | Some t => Some (refresh_token t)
         | None => None
         end) = Some sent_.
Proof.
  intros w refreshToken k Hp Hav. unfold refreshAccessToken, tokenAvailable in *.
  destruct (or_else_string refreshToken _) as [s|]; [|discriminate].
  exists s. rewrite Hav, Hp. auto.
Qed.

(** A call without any refresh token is rejected at once, whatever the
    slot holds. *)
Lemma refreshAccessToken_no_token :
  forall w refreshToken k,
    tokenAvailable refreshToken w = false ->
    let '(call, w') := refreshAccessToken refreshToken k w in
    results w' !! call =
      Some (Throws (ThrownError (new_WhoopAuthError "No refresh token available" None))) /\
    client w' = client w /\ fetchCount w' = fetchCount w.
Proof.
  intros w refreshToken k Hav. unfold refreshAccessToken, tokenAvailable in *.
  destruct (or_else_string refreshToken _) as [s|].
  - rewrite Hav. cbn. rewrite lookup_insert_eq. unfold fetchCount. cbn.
    rewrite fetchCount_snoc. cbn. repeat split; lia.
  - cbn. rewrite lookup_insert_eq. unfold fetchCount. cbn.
    rewrite fetchCount_snoc. cbn. repeat split; lia.
Qed.

Lemma run_reactions_frame :
  forall outcome rs w,
    let w' := fold_left (run_reaction outcome) rs w in
    log w' = log w /\ nextCall w' = nextCall w /\ config (client w') = config (client w).
Proof.
  intros outcome rs. induction rs as [|r rs IH]; intro w; cbn; [auto|].
  destruct (IH (run_reaction outcome w r)) as (Hl & Hn & Hc). cbn zeta in *.
  rewrite Hl, Hn, Hc. destruct r; cbn; auto.
Qed.

Lemma run_reactions_slot_stays_empty :
  forall outcome rs w,
    refreshPromise (client w) = None ->
    refreshPromise (client (fold_left (run_reaction outcome) rs w)) = None.
Proof.
  intros outcome rs. induction rs as [|r rs IH]; intros w Hw; cbn; [auto|].
  apply IH. destruct r; cbn; auto.
Qed.

(** The reaction that runs last decides the completion of its call. *)
Lemma run_reactions_last :
  forall outcome rs call k w,
    results (fold_left (run_reaction outcome) (rs ++ [Adopt call k]) w) !! call =
    Some (apply_cont k outcome).
Proof.
  intros. rewrite fold_left_app. cbn. apply lookup_insert_eq.
Qed.

Lemma run_reactions_adopt_other :
  forall outcome rs call w,
    Forall (fun r => match r with
                     | Adopt c _ | ResumeRefresh c _ => c <> call
                     end) rs ->
    results (fold_left (run_reaction outcome) rs w) !! call = results w !! call.
Proof.
  intros outcome rs call. induction rs as [|r rs IH]; intros w Hall; cbn; [auto|].
  inversion Hall as [|? ? Hr Hrs]; subst. rewrite IH by assumption.
  destruct r; cbn; now rewrite lookup_insert_ne.
Qed.

(** Settlement empties the slot. *)
Lemma settleRefresh_clears_slot :
  forall o w, well_formed w -> refreshPromise (client (settleRefresh o w)) = None.
Proof.
  intros o w Hwf. unfold settleRefresh, well_formed in *.
  destruct (refreshPromise (client w)) as [p|] eqn:Hp; [|assumption].
  destruct Hwf as (call & k & rest & Hrs). rewrite Hrs. cbn.
  now apply run_reactions_slot_stays_empty.
Qed.

Lemma settleRefresh_fetchCount :
  forall o w, fetchCount (settleRefresh o w) = fetchCount w.
Proof.
  intros o w. unfold settleRefresh, fetchCount.
  destruct (refreshPromise (client w)); [|reflexivity].
  now destruct (run_reactions_frame (tokenRefreshResult (config (client w)) (sent r) o)
                  (reactions r) w) as (-> & _).
Qed.

(** [well_formed] is an invariant of the token manager. *)
Lemma well_formed_invariant :
  well_formed (new_World Scenarios.oauthConfig) /\
  (forall w, well_formed w ->
     (forall t, well_formed (setTokens t w)) /\
     well_formed (clearTokens w) /\
     (forall rt k, well_formed (snd (refreshAccessToken rt k w))) /\
     (forall now1 now2, well_formed (snd (getValidAccessToken now1 now2 w))) /\
     (forall o, well_formed (settleRefresh o w))).
Proof.
  split; [exact I|]. intros w Hwf.
  assert (Hrefresh : forall rt k, well_formed (snd (refreshAccessToken rt k w))).
  { intros rt k. unfold refreshAccessToken.
    destruct (or_else_string rt _) as [s|]; [|exact Hwf].
    destruct (truthy_string s); [|exact Hwf].
    unfold well_formed in *.
    destruct (refreshPromise (client w)) as [p|]; cbn.
    - destruct Hwf as (c & k' & rest & ->). cbn. eauto.
    - eauto. }
  repeat split.
  - intro t. exact Hwf.
  - exact Hwf.
  - exact Hrefresh.
  - intros now1 now2. unfold getValidAccessToken.
    destruct (tokens (client w)) as [t|]; [|exact Hwf].
    destruct (isTokenExpired now1 now2 (Some t) (client w)); [apply Hrefresh|exact Hwf].
  - intro o. unfold well_formed at 1. now rewrite settleRefresh_clears_slot.
Qed.

(** C6 (as corrected). For calls that have a refresh token (given, or
    stored): while a refresh is in flight, a further [refreshAccessToken]
    call sends no request, waits on the promise in the slot and settles
    with that promise's outcome; two [getValidAccessToken] calls on a
    token set that [isTokenExpired] rejects send exactly one refresh
    request and settle alike; once the refresh has settled, whatever the
    outcome, the slot is empty and the next such call sends a new request. *)
Theorem refresh_single_flight :
  forall w,
    well_formed w ->
    (forall p refreshToken k,
       refreshPromise (client w) = Some p ->
       tokenAvailable refreshToken w = true ->
       let '(call, w') := refreshAccessToken refreshToken k w in
       fetchCount w' = fetchCount w /\
       awaits call k (promise_id p) w' /\
       forall o,
         results (settleRefresh o w') !! call =
         Some (apply_cont k (tokenRefreshResult (config (client w)) (sent p) o)))
    /\
    (forall t a1 a2 b1 b2,
       refreshPromise (client w) = None ->
       tokens (client w) = Some t ->
       truthy_string (refresh_token t) = true ->
       isTokenExpired a1 a2 (Some t) (client w) = true ->
       isTokenExpired b1 b2 (Some t) (client w) = true ->
       let '(c1, w1) := getValidAccessToken a1 a2 w in
       let '(c2, w2) := getValidAccessToken b1 b2 w1 in
       fetchCount w2 = S (fetchCount w) /\
       forall o,
         let r := apply_cont ReturnAccessToken
                    (tokenRefreshResult (config (client w)) (refresh_token t) o) in
         results (settleRefresh o w2) !! c1 = Some r /\
         results (settleRefresh o w2) !! c2 = Some r)
    /\
    (forall o,
       refreshPromise (client (settleRefresh o w)) = None /\
       forall refreshToken k,
         tokenAvailable refreshToken (settleRefresh o w) = true ->
         fetchCount (snd (refreshAccessToken refreshToken k (settleRefresh o w))) =
         S (fetchCount (settleRefresh o w))).
Proof.
  intros w Hwf. split; [|split].
  - intros p refreshToken k Hp Hav.
    rewrite (refreshAccessToken_in_flight w p refreshToken k Hp Hav).
    split; [|split].
    + unfold fetchCount. cbn. rewrite fetchCount_snoc. cbn. lia.
    + unfold awaits. cbn. split; [reflexivity|]. left. apply in_app_iff. cbn. auto.
    + intro o. unfold settleRefresh. cbn. apply run_reactions_last.
  - intros t a1 a2 b1 b2 Hslot Ht Htruthy Ha Hb.
    rewrite (getValidAccessToken_expired a1 a2 w t Ht Ha).
    assert (Hav : tokenAvailable None w = true).
    { unfold tokenAvailable. rewrite Ht. cbn. now rewrite Htruthy. }
    destruct (refreshAccessToken_idle w None ReturnAccessToken Hslot Hav)
      as (sent_ & Hcall & Hsent).
    rewrite Hcall. rewrite Ht in Hsent. cbn in Hsent.
    injection Hsent as <-.
    set (w1 := {| client := _ |}).
    assert (Ht1 : tokens (client w1) = Some t) by exact Ht.
    assert (Hb1 : isTokenExpired b1 b2 (Some t) (client w1) = true).
    { rewrite isTokenExpired_rule in *. exact Hb. }
    rewrite (getValidAccessToken_expired b1 b2 w1 t Ht1 Hb1).
    assert (Hav1 : tokenAvailable None w1 = true).
    { unfold tokenAvailable. rewrite Ht1. cbn. now rewrite Htruthy. }
    rewrite (refreshAccessToken_in_flight w1 _ None ReturnAccessToken eq_refl Hav1).
    split.
    + unfold fetchCount. cbn. rewrite !fetchCount_snoc. cbn. lia.
    + intro o. cbn zeta. unfold settleRefresh. cbn.
      rewrite lookup_insert_eq. split; [|reflexivity].
      rewrite lookup_insert_ne by lia. apply lookup_insert_eq.
  - intro o. split; [now apply settleRefresh_clears_slot|].
    intros refreshToken k Hav.
    destruct (refreshAccessToken_idle (settleRefresh o w) refreshToken k
                (settleRefresh_clears_slot o w Hwf) Hav) as (sent_ & -> & _).
    unfold fetchCount. cbn. rewrite !fetchCount_snoc. cbn. lia.
Qed.

(** The theorem at the world where a refresh of the stored token set is in
    flight: a second call sends nothing, and settlement empties the slot. *)
Lemma refresh_single_flight_witness :
  well_formed Scenarios.refreshInFlight /\
  fetchCount (snd (refreshAccessToken None ReturnTokens Scenarios.refreshInFlight)) =
    fetchCount Scenarios.refreshInFlight /\
  refreshPromise
    (client (settleRefresh (FetchResponds true Scenarios.refreshedData)
               Scenarios.refreshInFlight)) = None.
Proof.
  assert (Hwf : well_formed Scenarios.refreshInFlight).
  { cbn. exists 0%nat, ReturnTokens, []. reflexivity. }
  destruct (refresh_single_flight Scenarios.refreshInFlight Hwf) as (Hadopt & _ & Hsettle).
  split; [exact Hwf|]. split.
  - specialize (Hadopt {| promise_id := 0; sent := "rt-2"; reactions := [ResumeRefresh 0 ReturnTokens] |}
                       None ReturnTokens eq_refl eq_refl).
    destruct (refreshAccessToken None ReturnTokens Scenarios.refreshInFlight) as [call w'].
    exact (proj1 Hadopt).
  - exact (proj1 (Hsettle (FetchResponds true Scenarios.refreshedData))).
Defined.

(** C6 as stated fails for a call that has no refresh token: with a
    refresh in flight (started from an explicit token, nothing stored), a
    plain [refreshAccessToken()] is rejected instead of receiving the
    pending promise; and two [getValidAccessToken] calls on an expired
    token set without refresh token send no request at all. *)
Lemma refresh_without_token_not_coalesced :
  (exists p, refreshPromise (client Scenarios.overrideInFlight) = Some p) /\
  (let '(call, w') := refreshAccessToken None ReturnTokens Scenarios.overrideInFlight in
   results w' !! call =
     Some (Throws (ThrownError (new_WhoopAuthError "No refresh token available" None))) /\
   refreshPromise (client w') = refreshPromise (client Scenarios.overrideInFlight)) /\
  (let w := setTokens Scenarios.shortTokenNoRefresh Scenarios.freshWorld in
   isTokenExpired 0 0 None (client w) = true /\
   let '(c1, w1) := getValidAccessToken 0 0 w in
   let '(c2, w2) := getValidAccessToken 0 0 w1 in
   fetchCount w2 = 0%nat).
Proof. vm_compute. eauto 10. Qed.

End OAuthFacts.

(** ** Response handler *)

Module HttpFacts.
Import Js Errors OAuth Http.

Lemma count_snoc :
  forall (f : Event -> bool) (l : list Event) e,
    length (List.filter f (l ++ [e])) =
    (length (List.filter f l) + (if f e then 1 else 0))%nat.
Proof.
  intros f l e. rewrite List.filter_app, length_app. cbn. now destruct (f e).
Qed.

Lemma run_reactions_counts :
  forall outcome rs w,
    refreshCalls (fold_left (run_reaction outcome) rs w) = refreshCalls w /\
    clearCount (fold_left (run_reaction outcome) rs w) = clearCount w.
Proof.
  intros outcome rs w. unfold refreshCalls, clearCount.
  now destruct (OAuthFacts.run_reactions_frame outcome rs w) as (-> & _).
Qed.

Ltac count_events :=
  unfold refreshCalls, clearCount, clearTokens, with_client, settle_call in *;
  cbn [log client tokens results nextCall] in *;
  rewrite ?count_snoc in *; cbn [is_refresh_call is_clear] in *; try lia.

(** What [handleResponse] does with a 401 when an OAuth client is
    configured and the number of the next call is unused: it calls
    [refreshAccessToken] once and throws the error built from the response;
    it calls [clearTokens] when the refresh call is rejected, and also when
    the refresh succeeded and the [onTokenRefresh] callback throws. *)
Lemma handleResponse_unauthorized :
  forall response o h w,
    r_status response = 401 ->
    oauthClient h = Some w ->
    results w !! nextCall w = None ->
    match handleResponse response o h with
    | Some (Throws thrown, h') =>
        thrown = ThrownError (fromHttpStatus 401 (parseBody response)) /\
        exists w',
          oauthClient h' = Some w' /\
          refreshCalls w' = S (refreshCalls w) /\
          match results w' !! nextCall w with
          | Some (Returns (VTokens newTokens)) =>
              match onTokenRefresh h with
              | Some hook =>
                  if is_throw (hook newTokens)
                  then clearCount w' = S (clearCount w) /\ tokens (client w') = None
                  else clearCount w' = clearCount w
              | None => clearCount w' = clearCount w
              end
          | Some (Throws _) =>
              clearCount w' = S (clearCount w) /\ tokens (client w') = None
          | _ => False
          end
    | _ => False
    end.
Proof.
  intros response o h w Hst Hoauth Hfresh.
  unfold handleResponse, ok. rewrite Hst, Hoauth. cbn -[refreshAccessToken awaitCall].
  rewrite bool_decide_eq_true_2 by reflexivity.
  unfold refreshAccessToken.
  destruct (or_else_string None _) as [s|] eqn:Hs.
  2:{ unfold awaitCall. cbn. rewrite lookup_insert_eq. split; [reflexivity|].
      eexists. split; [reflexivity|]. cbn. rewrite lookup_insert_eq.
      repeat split; count_events. }
  destruct (truthy_string s).
  2:{ unfold awaitCall. cbn. rewrite lookup_insert_eq. split; [reflexivity|].
      eexists. split; [reflexivity|]. cbn. rewrite lookup_insert_eq.
      repeat split; count_events. }
  destruct (refreshPromise (client w)) as [p|] eqn:Hp.
  - (* a refresh is in flight: the call settles with its promise *)
    unfold awaitCall. cbn [results with_client]. rewrite Hfresh.
    unfold settleRefresh. cbn [client with_client refreshPromise reactions sent config].
    rewrite OAuthFacts.run_reactions_last.
    match goal with |- context [fold_left ?f ?l ?a] => set (w2 := fold_left f l a) end.
    assert (Hres : results w2 !! nextCall w =
                   Some (apply_cont ReturnTokens
                           (tokenRefreshResult (config (client w)) (sent p) o)))
      by apply OAuthFacts.run_reactions_last.
    assert (Hcnt : refreshCalls w2 = S (refreshCalls w) /\ clearCount w2 = clearCount w).
    { subst w2. rewrite (proj1 (run_reactions_counts _ _ _)), (proj2 (run_reactions_counts _ _ _)).
      split; count_events. }
    destruct Hcnt as [Hrc Hcc].
    destruct (tokenRefreshResult (config (client w)) (sent p) o) as [newTokens|e];
      cbn [apply_cont] in *.
    + destruct (onTokenRefresh h) as [hook|] eqn:Hhook.
      * destruct (hook newTokens) eqn:Hh; (split; [reflexivity|]); eexists;
          (split; [reflexivity|]); cbn [results clearTokens];
          rewrite Hres, Hh; cbn [is_throw]; repeat split; try assumption; count_events.
      * split; [reflexivity|]. eexists. split; [reflexivity|].
        rewrite Hres. auto.
    + split; [reflexivity|]. eexists. split; [reflexivity|].
      cbn [results clearTokens]. rewrite Hres. repeat split; count_events.
  - (* no refresh in flight: this call sends the request and resumes first *)
    unfold awaitCall. cbn [results]. rewrite Hfresh.
    unfold settleRefresh. cbn [client refreshPromise reactions sent config fold_left run_reaction results].
    rewrite lookup_insert_eq.
    destruct (tokenRefreshResult (config (client w)) s o) as [newTokens|e];
      cbn [apply_cont].
    + destruct (onTokenRefresh h) as [hook|] eqn:Hhook.
      * destruct (hook newTokens) eqn:Hh; (split; [reflexivity|]); eexists;
          (split; [reflexivity|]); cbn [results clearTokens];
          rewrite lookup_insert_eq, Hh; cbn [is_throw]; repeat split; count_events.
      * split; [reflexivity|]. eexists. split; [reflexivity|].
        cbn [results]. rewrite lookup_insert_eq. split; count_events.
    + split; [reflexivity|]. eexists. split; [reflexivity|].
      cbn [results clearTokens]. rewrite lookup_insert_eq. repeat split; count_events.
Qed.
(** C2. A 401 arrives, the refresh succeeds (the call settles with the new
    token set), and the [onTokenRefresh] callback throws: [handleResponse]
    has called [refreshAccessToken] once and throws the error of the 401,
    but it has also called [clearTokens], so the refreshed token set is
    gone. *)
Theorem hook_failure_clears_refreshed_tokens :
  match handleResponse Scenarios.unauthorized
          (FetchResponds true Scenarios.refreshedData)
          Scenarios.clientWithFailingHook with
  | Some (Throws thrown, h') =>
      thrown = ThrownError (new_WhoopAuthError "token expired"
                              (Some (parseBody Scenarios.unauthorized))) /\
      exists w',
        oauthClient h' = Some w' /\
        refreshCalls w' = 1%nat /\
        (exists newTokens,
           results w' !! 0%nat = Some (Returns (VTokens newTokens)) /\
           access_token newTokens = "at-new"%string) /\
        clearCount w' = 1%nat /\
        tokens (client w') = None
  | _ => False
  end.
Proof. vm_compute. eauto 10. Qed.

(** Without a callback the same exchange keeps the refreshed token set. *)
Lemma refresh_success_keeps_tokens :
  match handleResponse Scenarios.unauthorized
          (FetchResponds true Scenarios.refreshedData)
          Scenarios.clientWithoutHook with
  | Some (Throws thrown, h') =>
      thrown = ThrownError (new_WhoopAuthError "token expired"
                              (Some (parseBody Scenarios.unauthorized))) /\
      exists w',
        oauthClient h' = Some w' /\ refreshCalls w' = 1%nat /\ clearCount w' = 0%nat /\
        option_map access_token (tokens (client w')) = Some "at-new"%string
  | _ => False
  end.
Proof. vm_compute. eauto 10. Qed.

(** One level up, the [catch] of [performRequest] receives the error that
    [handleResponse] throws: the caller of [performRequest] sees a
    WhoopNetworkError whose cause is the 401 error, and [getRetryInfo]
    classifies it as retryable. *)
Lemma performRequest_wraps_unauthorized :
  match performRequest "get" NoBody [] Scenarios.unauthorizedExchange
          Scenarios.authenticatedClient with
  | Some (Throws (ThrownError e), h', authorization) =>
      authorization = Some "Bearer at-1"%string /\
      cls e = WhoopNetworkError /\
      option_map cls (cause e) = Some WhoopAuthError /\
      canRetry (getRetryInfo (ThrownError e)) = true
  | _ => False
  end.
Proof. vm_compute. auto. Qed.

End HttpFacts.

(** ** Cache *)

Module CacheFacts.
Import Js Errors Cache.

(** *** Insertion-ordered maps *)

Section JsMapFacts.
Context {A : Type}.
Implicit Types (m : JsMap A) (k : string) (v : A).

Lemma map_get_set_eq k v m : map_get k (map_set k v m) = Some v.
Proof.
  induction m as [|[k' v'] m IH]; cbn.
  - now rewrite String.eqb_refl.
  - destruct (String.eqb k k') eqn:E; cbn; now rewrite ?String.eqb_refl, ?E.
Qed.

Lemma map_get_set_ne k k' v m : k <> k' -> map_get k' (map_set k v m) = map_get k' m.
Proof.
  intro Hne. induction m as [|[k0 v0] m IH]; cbn.
  - destruct (String.eqb_spec k' k); congruence.
  - destruct (String.eqb_spec k k0); cbn.
    + subst k0. destruct (String.eqb_spec k' k); congruence.
    + destruct (String.eqb_spec k' k0); auto.
Qed.

Lemma map_get_delete_eq k m : map_get k (map_delete k m) = None.
Proof.
  induction m as [|[k' v'] m IH]; cbn; [reflexivity|].
  destruct (String.eqb k k') eqn:E; cbn; now rewrite ?E.
Qed.

Lemma map_get_delete_ne k k' m : k <> k' -> map_get k' (map_delete k m) = map_get k' m.
Proof.
  intro Hne. induction m as [|[k0 v0] m IH]; cbn; [reflexivity|].
  destruct (String.eqb_spec k k0); cbn.
  - subst k0. destruct (String.eqb_spec k' k); congruence.
  - destruct (String.eqb_spec k' k0); auto.
Qed.

Lemma map_get_None k m : map_get k m = None <-> ~ In k (map_keys m).
Proof.
  unfold map_keys. induction m as [|[k' v'] m IH]; cbn; [intuition congruence|].
  destruct (String.eqb_spec k k');
    [subst; split; [discriminate|intro H; exfalso; apply H; now left]|].
  rewrite IH. intuition congruence.
Qed.

Lemma map_set_absent k v m : ~ In k (map_keys m) -> map_set k v m = m ++ [(k, v)].
Proof.
  unfold map_keys. induction m as [|[k' v'] m IH]; cbn; [reflexivity|]. intro Hn.
  destruct (String.eqb_spec k k'); [intuition congruence|]. rewrite IH; intuition congruence.
Qed.

Lemma map_keys_set_present k v m : In k (map_keys m) -> map_keys (map_set k v m) = map_keys m.
Proof.
  unfold map_keys. induction m as [|[k' v'] m IH]; cbn; [intuition congruence|]. intro Hin.
  destruct (String.eqb_spec k k'); cbn; [intuition congruence|].
  rewrite IH; [reflexivity|]. destruct Hin; congruence.
Qed.

Lemma map_delete_absent k m : ~ In k (map_keys m) -> map_delete k m = m.
Proof.
  unfold map_keys. induction m as [|[k' v'] m IH]; cbn; [reflexivity|]. intro Hn.
  destruct (String.eqb_spec k k'); [intuition congruence|]. rewrite IH; intuition congruence.
Qed.

Lemma map_keys_delete_subset k k' m : In k' (map_keys (map_delete k m)) <-> In k' (map_keys m) /\ k' <> k.
Proof.
  unfold map_keys. induction m as [|[k0 v0] m IH]; cbn; [intuition congruence|].
  destruct (String.eqb_spec k k0); cbn; rewrite IH; intuition congruence.
Qed.

End JsMapFacts.

(** *** Time to live *)

Section Runtime.
Context {V : Type} `{JsRuntime V}.
Implicit Types (c : WhoopCache V).

Lemma evictLRU_config c : config (evictLRU c) = config c.
Proof.
  unfold evictLRU. destruct (oldest _) as [k|]; [|reflexivity].
  destruct (truthy_string k); reflexivity.
Qed.

Lemma evictWhileFull_config fuel :
  forall c c2, evictWhileFull fuel c = Some c2 -> config c2 = config c.
Proof.
  induction fuel as [|fuel IH]; intros c c2; cbn; destruct (is_full c);
    try discriminate; try (intros [= <-]; reflexivity).
  intro Hev. rewrite (IH _ _ Hev). apply evictLRU_config.
Qed.

(** What a completed [set] has stored. *)
Lemma set_returns_inv fuel now key data customTtl c c' :
  set fuel now key data customTtl c = Some (Returns c') ->
  exists c2 entry,
    config c2 = config c /\
    c' = {| cache := map_set key entry (cache c2);
            accessOrder := map_set key (accessCounter c2 + 1) (accessOrder c2);
            config := config c2;
            accessCounter := accessCounter c2 + 1;
            totalSize := totalSize c2 + e_size entry;
            stats := stats c2 |} /\
    e_timestamp entry = now /\
    e_ttl entry = default (c_ttl (config c)) customTtl /\
    ((e_compressed entry = false /\ e_data entry = data) \/
     (e_compressed entry = true /\ c_compress (config c) = true /\
      e_data entry = as_value (compress data))).
Proof.
  unfold set. destruct (estimateSize data) as [size0|t]; [|discriminate].
  destruct (c_compress (config c) && (1024 <? size0)) eqn:Hc.
  - apply andb_true_iff in Hc as [Hc _].
    destruct (estimateSize (as_value (compress data))) as [cs|t]; [|discriminate].
    destruct (5 * cs <? 4 * size0);
      (destruct (evictWhileFull fuel _) as [c2|] eqn:Hev; [|discriminate]);
      intros [= <-]; exists c2;
      match goal with |- context [map_set key ?e (cache c2)] => exists e end;
      (split; [apply (evictWhileFull_config _ _ _ Hev)|]);
      (split; [reflexivity|]); cbn; auto 10.
  - destruct (evictWhileFull fuel _) as [c2|] eqn:Hev; [|discriminate].
    intros [= <-]. exists c2.
    match goal with |- context [map_set key ?e (cache c2)] => exists e end.
    split; [apply (evictWhileFull_config _ _ _ Hev)|].
    split; [reflexivity|]. cbn. auto.
Qed.

(** *** Values that cannot be serialised *)

(** An exception of [JSON.stringify] leaves [set] as it is. *)
Lemma set_propagates_stringify_failure fuel now key (data : V) customTtl c t :
  JSON_stringify data = Throws t ->
  set fuel now key data customTtl c = Some (Throws t).
Proof. intro Hs. unfold set, estimateSize. now rewrite Hs. Qed.

End Runtime.

Import JsValues.


(** C7. A value with a circular reference: [JSON.stringify] throws in
    [estimateSize], nothing catches it, and the TypeError leaves [set];
    no entry is stored, with size 0 or otherwise. *)
Theorem set_throws_on_circular_value :
  forall fuel,
    set fuel 0 "k" JsValues.JCircular None Scenarios.testCache =
    Some (Throws (ThrownError (new_TypeError "Converting circular structure to JSON"))).
Proof. intro fuel. reflexivity. Qed.

(** C10. Writing the same key twice: [getStats().totalMemory] is 6, the
    sum of both recorded sizes, while the only entry present has size 3. *)
Theorem overwrite_breaks_memory_accounting :
  let c := Scenarios.after Scenarios.testCache
             (setAll 1 [(0, "k"%string, JsValues.JStr "a"); (1, "k"%string, JsValues.JStr "b")]
                Scenarios.testCache) in
  keys c = ["k"%string] /\ sumSizes c = 3 /\ r_totalMemory (getStats c) = 6.
Proof. vm_compute. auto. Qed.

(** *** Least-recently-used eviction *)

Section Lru.
Context {V : Type} `{JsRuntime V}.
Implicit Types (c : WhoopCache V).

Lemma ascending_bounds lo hi l a : ascending lo hi l -> In a l -> lo < a <= hi.
Proof.
  revert lo. induction l as [|b l IH]; intros lo Hasc Hin; [destruct Hin|].
  destruct Hasc as [Hlo Hasc]. assert (b <= hi).
  { clear IH Hin. revert b Hasc Hlo. induction l as [|x l IHl]; cbn; intros; [lia|].
    destruct Hasc as [? Hasc]. specialize (IHl x Hasc). lia. }
  destruct Hin as [<-|Hin]; [lia|]. specialize (IH b Hasc Hin). lia.
Qed.

Lemma ascending_le lo hi l : ascending lo hi l -> lo <= hi.
Proof.
  revert lo. induction l as [|b l IH]; cbn; intros lo Hasc; [lia|].
  destruct Hasc as [? Hasc]. specialize (IH b Hasc). lia.
Qed.

Lemma ascending_snoc lo hi l : ascending lo hi l -> ascending lo (hi + 1) (l ++ [hi + 1]).
Proof.
  revert lo. induction l as [|b l IH]; cbn; intros lo Hasc; [lia|].
  destruct Hasc as [? Hasc]. split; [assumption|]. now apply IH.
Qed.

(** The scan keeps the smallest access number seen so far. *)
Lemma scan_fold (m : JsMap Z) :
  forall k0 a0,
    exists k a,
      fold_left scan_step m (Some k0, Some a0) = (Some k, Some a) /\
      ((k, a) = (k0, a0) \/ In (k, a) m) /\
      a <= a0 /\
      forall k' a', In (k', a') m -> a <= a'.
Proof.
  induction m as [|[k1 a1] m IH]; intros k0 a0; cbn.
  - exists k0, a0. repeat split; auto; try lia; try (intros ? ? []).
  - destruct (Z.ltb_spec a1 a0).
    + destruct (IH k1 a1) as (k & a & Hf & Hin & Hle & Hmin).
      exists k, a. rewrite Hf. repeat split; [| lia |].
      * right. destruct Hin as [[= -> ->]|Hin]; auto.
      * intros k' a' [[= <- <-]|Hin']; [lia|eauto].
    + destruct (IH k0 a0) as (k & a & Hf & Hin & Hle & Hmin).
      exists k, a. rewrite Hf. repeat split; [| lia |].
      * destruct Hin as [Heq|Hin]; auto.
      * intros k' a' [[= <- <-]|Hin']; [lia|eauto].
Qed.

(** The entry whose access number is strictly below all others is the
    one [evictLRU] picks. *)
Lemma oldest_min (m : JsMap Z) kv av :
  In (kv, av) m ->
  (forall k' a', In (k', a') m -> (k', a') = (kv, av) \/ av < a') ->
  oldest m = Some kv.
Proof.
  intros Hin Hmin. unfold oldest. destruct m as [|[k0 a0] m]; [destruct Hin|].
  cbn [fold_left scan_step].
  destruct (scan_fold m k0 a0) as (k & a & Hf & Hka & Hle & Hall). rewrite Hf. cbn.
  assert (Hkam : In (k, a) ((k0, a0) :: m)).
  { destruct Hka as [->|?]; [now left|now right]. }
  destruct (Hmin k a Hkam) as [[= -> ->]|Hlt]; [reflexivity|].
  exfalso. destruct Hin as [[= -> ->]|Hin]; [lia|]. specialize (Hall kv av Hin). lia.
Qed.

Lemma oldest_head (k1 : string) a1 (rest : JsMap Z) hi :
  ascending a1 hi (List.map snd rest) -> oldest ((k1, a1) :: rest) = Some k1.
Proof.
  intro Hasc. apply (oldest_min _ k1 a1); [now left|].
  intros k' a' [Heq|Hin]; [now left|]. right.
  apply (ascending_bounds a1 hi (List.map snd rest) a' Hasc).
  apply in_map_iff. now exists (k', a').
Qed.

Lemma evictLRU_fields c k :
  oldest (accessOrder c) = Some k ->
  truthy_string k = true ->
  cache (evictLRU c) = map_delete k (cache c) /\
  accessOrder (evictLRU c) = map_delete k (accessOrder c) /\
  config (evictLRU c) = config c /\
  accessCounter (evictLRU c) = accessCounter c.
Proof. intros Ho Ht. unfold evictLRU. rewrite Ho, Ht. cbn. auto. Qed.

Lemma map_keys_delete {A} k (m : JsMap A) :
  map_keys (map_delete k m) =
  List.filter (fun k' => negb (String.eqb k k')) (map_keys m).
Proof.
  unfold map_keys. induction m as [|[k' v'] m IH]; cbn; [reflexivity|].
  destruct (String.eqb k k'); cbn; now rewrite IH.
Qed.

Lemma map_delete_length {A} k (m : JsMap A) :
  In k (map_keys m) -> (length (map_delete k m) < length m)%nat.
Proof.
  unfold map_keys. induction m as [|[k' v'] m IH]; cbn; [intros []|].
  assert (Hle : forall m' : JsMap A, (length (map_delete k m') <= length m')%nat).
  { induction m' as [|[k2 v2] m' IH']; cbn; [lia|]. destruct (String.eqb k k2); cbn; lia. }
  destruct (String.eqb_spec k k'); cbn.
  - intros _. specialize (Hle m). lia.
  - intros [?|Hin]; [congruence|]. specialize (IH Hin). lia.
Qed.

(** The three ways a call of [set] ends. *)
Lemma set_cases fuel now key (data : V) customTtl c :
  (exists t, set fuel now key data customTtl c = Some (Throws t)) \/
  (exists entry savings,
     set fuel now key data customTtl c =
     match evictWhileFull fuel
             {| cache := cache c; accessOrder := accessOrder c; config := config c;
                accessCounter := accessCounter c; totalSize := totalSize c;
                stats := add_savings savings (stats c) |} with
     | None => None
     | Some c2 =>
         Some (Returns
           {| cache := map_set key entry (cache c2);
              accessOrder := map_set key (accessCounter c2 + 1) (accessOrder c2);
              config := config c2;
              accessCounter := accessCounter c2 + 1;
              totalSize := totalSize c2 + e_size entry;
              stats := stats c2 |})
     end).
Proof.
  unfold set. destruct (estimateSize data) as [size0|t]; [|left; eauto].
  destruct (c_compress (config c) && (1024 <? size0)).
  - destruct (estimateSize (as_value (compress data))) as [cs|t]; [|left; eauto].
    destruct (5 * cs <? 4 * size0); right;
      match goal with
      | |- context [@Build_CacheEntry _ ?a ?b ?d ?e ?f ?g ?h] =>
          exists (Build_CacheEntry V a b d e f g h)
      end; eexists; reflexivity.
  - right.
    match goal with
    | |- context [@Build_CacheEntry _ ?a ?b ?d ?e ?f ?g ?h] =>
        exists (Build_CacheEntry V a b d e f g h)
    end. eexists. reflexivity.
Qed.

Lemma evictWhileFull_not_full fuel c : is_full c = false -> evictWhileFull fuel c = Some c.
Proof. intro Hf. destruct fuel; cbn; now rewrite Hf. Qed.

(** When the loop condition holds and [evictLRU] changes nothing, the
    loop never ends. *)
Lemma evictWhileFull_stuck c :
  is_full c = true -> evictLRU c = c -> forall fuel, evictWhileFull fuel c = None.
Proof.
  intros Hf Hfix fuel. induction fuel as [|fuel IH]; cbn; rewrite Hf; [reflexivity|].
  now rewrite Hfix.
Qed.

(** [set] of a new key into a cache that is not full appends it. *)
Lemma set_step_append fuel now key (data : V) c :
  is_full c = false ->
  ~ In key (map_keys (cache c)) ->
  ~ In key (map_keys (accessOrder c)) ->
  exists r,
    set fuel now key data None c = Some r /\
    forall c', r = Returns c' ->
      config c' = config c /\
      map_keys (cache c') = map_keys (cache c) ++ [key] /\
      accessOrder c' = accessOrder c ++ [(key, accessCounter c + 1)] /\
      accessCounter c' = accessCounter c + 1.
Proof.
  intros Hfull Hk Hk'.
  destruct (set_cases fuel now key data None c) as [(t & ->)|(entry & savings & ->)].
  - eexists. split; [reflexivity|]. discriminate.
  - rewrite evictWhileFull_not_full by exact Hfull.
    eexists. split; [reflexivity|]. intros c' [= <-]. cbn.
    rewrite !map_set_absent by assumption. unfold map_keys. rewrite map_app. auto.
Qed.

(** [set] of a new key into a full cache evicts the oldest key, once. *)
Lemma set_step_evict fuel now key (data : V) c victim :
  (1 <= fuel)%nat ->
  is_full c = true ->
  map_size (cache c) <= c_maxSize (config c) ->
  oldest (accessOrder c) = Some victim ->
  truthy_string victim = true ->
  In victim (map_keys (cache c)) ->
  ~ In key (map_keys (cache c)) ->
  ~ In key (map_keys (accessOrder c)) ->
  exists r,
    set fuel now key data None c = Some r /\
    forall c', r = Returns c' ->
      config c' = config c /\
      map_keys (cache c') =
        List.filter (fun k' => negb (String.eqb victim k')) (map_keys (cache c)) ++ [key] /\
      accessOrder c' = map_delete victim (accessOrder c) ++ [(key, accessCounter c + 1)] /\
      accessCounter c' = accessCounter c + 1.
Proof.
  intros Hfuel Hfull Hsize Hold Htruthy Hin Hk Hk'.
  destruct (set_cases fuel now key data None c) as [(t & ->)|(entry & savings & ->)].
  - eexists. split; [reflexivity|]. discriminate.
  - destruct fuel as [|fuel]; [lia|].
    set (c1 := {| cache := cache c |}).
    assert (Hfull1 : is_full c1 = true) by exact Hfull.
    destruct (evictLRU_fields c1 victim Hold Htruthy) as (Hc & Ha & Hg & Hn).
    assert (Hnot : is_full (evictLRU c1) = false).
    { unfold is_full. rewrite Hc, Hg. cbn [c1 cache config].
      pose proof (map_delete_length victim (cache c) Hin) as Hlt.
      unfold map_size in *. apply andb_false_iff. left. apply Z.leb_gt. lia. }
    cbn [evictWhileFull]. rewrite Hfull1, (evictWhileFull_not_full _ _ Hnot).
    eexists. split; [reflexivity|]. intros c' [= <-]. cbn [cache accessOrder config accessCounter].
    rewrite Hc, Ha, Hg, Hn. cbn [c1 cache accessOrder config accessCounter].
    rewrite !map_set_absent.
    + unfold map_keys at 1. rewrite map_app. fold (map_keys (map_delete victim (cache c))).
      rewrite map_keys_delete. auto.
    + rewrite map_keys_delete_subset. tauto.
    + rewrite map_keys_delete_subset. tauto.
Qed.

(** A full cache whose oldest key is the empty string: [set] throws or
    never returns. *)
Lemma set_hangs_on_empty_oldest_key fuel now key (data : V) customTtl c r :
  is_full c = true ->
  oldest (accessOrder c) = Some EmptyString ->
  set fuel now key data customTtl c = Some r ->
  exists t, r = Throws t.
Proof.
  intros Hfull Hold Hset.
  destruct (set_cases fuel now key data customTtl c) as [(t & Ht)|(entry & savings & Hs)].
  - rewrite Ht in Hset. injection Hset as <-. eauto.
  - rewrite Hs in Hset. rewrite evictWhileFull_stuck in Hset; [discriminate|exact Hfull|].
    unfold evictLRU. cbn [accessOrder]. rewrite Hold. reflexivity.
Qed.

Lemma setAll_app fuel (items1 items2 : list (Z * string * V)) c :
  setAll fuel (items1 ++ items2) c =
  match setAll fuel items1 c with
  | Some (Returns c') => setAll fuel items2 c'
  | other => other
  end.
Proof.
  revert c. induction items1 as [|[[now key] data] items1 IH]; intro c; cbn; [reflexivity|].
  destruct (set fuel now key data None c) as [[c'|t]|]; auto.
Qed.

(** Filling a cache that has room: the keys are appended in order. *)
Lemma setAll_fill fuel (items : list (Z * string * V)) :
  forall ks c,
    lru_ordered ks c ->
    Z.of_nat (length ks) + Z.of_nat (length items) <= c_maxSize (config c) ->
    NoDup (ks ++ itemKeys items) ->
    Forall (fun k => truthy_string k = true) (itemKeys items) ->
    exists r,
      setAll fuel items c = Some r /\
      forall c', r = Returns c' ->
        config c' = config c /\ lru_ordered (ks ++ itemKeys items) c'.
Proof.
  induction items as [|[[now key] data] items IH]; intros ks c Hord Hroom Hnd Htr.
  - cbn. eexists. split; [reflexivity|]. intros c' [= <-]. now rewrite app_nil_r.
  - destruct Hord as (Hck & Hak & Hndk & Htk & Hasc). cbn [itemKeys List.map fst snd] in *.
    fold (itemKeys items) in *.
    assert (Hnotin : ~ In key ks).
    { intro Hin. apply NoDup_app in Hnd as (_ & Hdisj & _).
      apply (Hdisj key); [now apply list_elem_of_In|apply list_elem_of_In; now left]. }
    assert (Hfull : is_full c = false).
    { unfold is_full, map_size. apply andb_false_iff. left. apply Z.leb_gt.
      rewrite <- Hck in Hroom. unfold map_keys in Hroom. rewrite length_map in Hroom.
      cbn [length] in Hroom. lia. }
    destruct (set_step_append fuel now key data c Hfull) as (r & Hr & Hstep);
      [now rewrite Hck|now rewrite Hak|].
    cbn [setAll]. rewrite Hr. destruct r as [c1|t].
    + destruct (Hstep c1 eq_refl) as (Hcfg & Hck1 & Hao1 & Hcnt1).
      destruct (IH (ks ++ [key]) c1) as (r' & Hr' & Hfin).
      * repeat split.
        -- now rewrite Hck1, Hck.
        -- rewrite Hao1. unfold map_keys in *. rewrite map_app, Hak. reflexivity.
        -- apply NoDup_app. repeat split; [assumption| |apply NoDup_singleton].
           intros x Hx Hx'. apply list_elem_of_In in Hx, Hx'. destruct Hx' as [<-|[]]. tauto.
        -- apply Forall_app. split; [assumption|]. constructor; [|constructor].
           now inversion Htr.
        -- rewrite Hao1, Hcnt1, map_app. cbn. now apply ascending_snoc.
      * rewrite Hcfg, length_app. cbn [length] in *. lia.
      * now rewrite <- app_assoc.
      * now inversion Htr.
      * exists r'. split; [exact Hr'|]. intros c' Hc'.
        destruct (Hfin c' Hc') as (Hcfg' & Hord'). rewrite <- app_assoc in Hord'.
        split; [congruence|exact Hord'].
    + eexists. split; [reflexivity|]. discriminate.
Qed.

Lemma filter_other_keys (k : string) (l : list string) :
  ~ In k l -> List.filter (fun k' => negb (String.eqb k k')) l = l.
Proof.
  induction l as [|x l IH]; cbn; [reflexivity|]. intro Hn.
  destruct (String.eqb_spec k x); [intuition congruence|]. cbn. rewrite IH; intuition.
Qed.

Lemma in_filter_other (k x : string) (l : list string) :
  In x (List.filter (fun k' => negb (String.eqb k k')) l) <-> In x l /\ x <> k.
Proof.
  rewrite filter_In. destruct (String.eqb_spec k x); cbn; intuition congruence.
Qed.

Lemma map_set_head_ne {A} k k' (v v' : A) (m : JsMap A) :
  k <> k' -> map_set k v ((k', v') :: m) = (k', v') :: map_set k v m.
Proof. intro Hne. cbn. now destruct (String.eqb_spec k k'). Qed.

Lemma map_set_In {A} k (v : A) (m : JsMap A) kv :
  In kv (map_set k v m) -> kv = (k, v) \/ In kv m.
Proof.
  induction m as [|[k' v'] m IH]; cbn; [intuition|].
  destruct (String.eqb k k'); cbn; intuition.
Qed.

(** A hit moves the key to the newest access number and keeps its place. *)
Lemma get_hit now key c :
  is_Some (fst (get now key c)) ->
  exists entry',
    snd (get now key c) =
    {| cache := map_set key entry' (cache c);
       accessOrder := map_set key (accessCounter c + 1) (accessOrder c);
       config := config c;
       accessCounter := accessCounter c + 1;
       totalSize := totalSize c;
       stats := add_hit (stats c) |}.
Proof.
  unfold get. destruct (map_get key (cache c)) as [entry|]; cbn; [|intros [? [=]]].
  destruct (now - e_timestamp entry >? e_ttl entry); cbn; [intros [? [=]]|].
  intros _. destruct (e_compressed entry && c_compress (config c)); cbn; eauto.
Qed.

(** C8 (as corrected). A new cache with [maxSize = N >= 1] and [N + 1]
    distinct non-empty keys. Inserting them without reads never hangs, and
    when every [set] completes the keys left are all but the first one
    inserted. When, for [N >= 2], one of the first [N] keys is read after
    the [N] inserts by a [get] that hits, the last insert keeps the read
    key and evicts exactly one other of the first [N] keys. *)
Theorem lru_eviction_order :
  forall (cfg : CacheConfig) (N : Z) (fuel : nat)
         (items : list (Z * string * V)) (last : Z * string * V),
    cfg_maxSize cfg = Some N ->
    1 <= N ->
    (1 <= fuel)%nat ->
    Z.of_nat (length items) = N ->
    NoDup (itemKeys (items ++ [last])) ->
    Forall (fun k => truthy_string k = true) (itemKeys (items ++ [last])) ->
    (exists r,
       setAll fuel (items ++ [last]) (new_WhoopCache cfg) = Some r /\
       forall c', r = Returns c' -> keys c' = tl (itemKeys (items ++ [last])))
    /\
    (forall cN ki now,
       2 <= N ->
       In ki (itemKeys items) ->
       setAll fuel items (new_WhoopCache cfg) = Some (Returns cN) ->
       is_Some (fst (get now ki cN)) ->
       exists r,
         set fuel (fst (fst last)) (snd (fst last)) (snd last) None
             (snd (get now ki cN)) = Some r /\
         forall c', r = Returns c' ->
           In ki (keys c') /\
           exists victim,
             In victim (itemKeys items) /\ victim <> ki /\ ~ In victim (keys c') /\
             forall k, In k (itemKeys (items ++ [last])) -> k <> victim -> In k (keys c')).
Proof.
  intros cfg N fuel items [[tl_ kl] vl] HN HN1 Hfuel Hlen Hnd Htr.
  unfold itemKeys in Hnd, Htr. rewrite map_app in Hnd, Htr. cbn [List.map fst snd] in Hnd, Htr.
  fold (itemKeys items) in Hnd, Htr.
  set (c0 := new_WhoopCache cfg : WhoopCache V).
  assert (Hmax : c_maxSize (config c0) = N) by (cbn; now rewrite HN).
  assert (Hord0 : lru_ordered [] c0).
  { repeat split; cbn; try constructor; lia. }
  assert (Hndi : NoDup (itemKeys items)) by (apply NoDup_app in Hnd; tauto).
  assert (Hkl : ~ In kl (itemKeys items)).
  { intro Hin. apply NoDup_app in Hnd as (_ & Hdisj & _).
    apply (Hdisj kl); apply list_elem_of_In; [assumption|now left]. }
  apply Forall_app in Htr as [Htri Htrl].
  destruct (setAll_fill fuel items [] c0 Hord0) as (r1 & Hr1 & Hfill);
    [rewrite Hmax; cbn [length]; lia|exact Hndi|exact Htri|]. cbn [app] in Hfill.
  split.
  - (* no reads *)
    rewrite setAll_app, Hr1. destruct r1 as [cN|t].
    2:{ eexists. split; [reflexivity|]. discriminate. }
    destruct (Hfill cN eq_refl) as (Hcfg & Hck & Hak & _ & _ & Hasc).
    destruct (itemKeys items) as [|k1 ks'] eqn:Hks.
    { unfold itemKeys in Hks. apply (f_equal (@length _)) in Hks.
      rewrite length_map in Hks. cbn in Hks. lia. }
    destruct (accessOrder cN) as [|[k1' a1] rest] eqn:Hao; [discriminate|].
    injection Hak as -> Hrest. cbn in Hasc. destruct Hasc as [_ Hasc].
    assert (Hsz : map_size (cache cN) = N).
    { unfold map_size. rewrite <- Hlen. f_equal.
      transitivity (length (itemKeys items)); [|apply length_map].
      rewrite Hks, <- Hck. unfold map_keys. now rewrite length_map. }
    destruct (set_step_evict fuel tl_ kl vl cN k1 Hfuel) as (r & Hr & Hstep).
    + unfold is_full. rewrite Hsz, Hcfg, Hmax. apply andb_true_iff.
      split; [apply Z.leb_le|apply Z.ltb_lt]; lia.
    + rewrite Hsz, Hcfg, Hmax. lia.
    + rewrite Hao. apply (oldest_head k1 a1 rest _ Hasc).
    + now inversion Htri.
    + rewrite Hck. now left.
    + now rewrite Hck.
    + rewrite Hao. unfold map_keys in *. cbn. rewrite Hrest. exact Hkl.
    + cbn [setAll]. rewrite Hr. exists r. split; [now destruct r|].
      intros c' ->. destruct (Hstep c' eq_refl) as (_ & Hkeys & _).
      unfold keys. rewrite Hkeys, Hck. cbn. rewrite String.eqb_refl. cbn.
      rewrite filter_other_keys;
        [|apply NoDup_cons in Hndi as [Hn1 _]; now rewrite list_elem_of_In in Hn1].
      unfold itemKeys. rewrite map_app. fold (itemKeys items). now rewrite Hks.
  - (* one key is read after the N inserts *)
    intros cN ki now HN2 Hki HcN Hhit. rewrite Hr1 in HcN. injection HcN as ->.
    destruct (Hfill cN eq_refl) as (Hcfg & Hck & Hak & _ & _ & Hasc).
    destruct (get_hit now ki cN Hhit) as (entry' & Hget). rewrite Hget. cbn [fst snd].
    set (cR := {| cache := map_set ki entry' (cache cN) |}).
    assert (HckR : map_keys (cache cR) = itemKeys items).
    { unfold cR. cbn [cache]. rewrite map_keys_set_present; [exact Hck|now rewrite Hck]. }
    assert (HakR : map_keys (accessOrder cR) = itemKeys items).
    { unfold cR. cbn [accessOrder].
      rewrite map_keys_set_present; [exact Hak|now rewrite Hak]. }
    assert (Hsz : map_size (cache cR) = N).
    { unfold map_size. rewrite <- Hlen. f_equal.
      transitivity (length (itemKeys items)); [|apply length_map].
      rewrite <- HckR. unfold map_keys. now rewrite length_map. }
    assert (Hvictim : exists victim,
               oldest (accessOrder cR) = Some victim /\
               In victim (itemKeys items) /\ victim <> ki).
    { destruct (itemKeys items) as [|k1 [|k2 ks'']] eqn:Hks;
        try (unfold itemKeys in Hks; apply (f_equal (@length _)) in Hks;
             rewrite length_map in Hks; cbn in Hks; lia).
      destruct (accessOrder cN) as [|[k1' a1] [|[k2' a2] rest]] eqn:Hao; try discriminate.
      injection Hak as -> -> Hrest. cbn in Hasc. destruct Hasc as (_ & Ha12 & Hasc).
      pose proof (ascending_le _ _ _ Hasc) as Hhi.
      unfold cR. cbn [accessOrder]. rewrite ?Hao.
      destruct (String.eqb_spec ki k1) as [->|Hne].
      - exists k2. cbn [map_set]. rewrite String.eqb_refl. split; [|split].
        + apply (oldest_min _ k2 a2); [right; now left|].
          intros k' a' [[= <- <-]|[Heq|Hin]]; [right; lia|now left|right].
          apply (ascending_bounds a2 _ (List.map snd rest) a' Hasc).
          apply in_map_iff. now exists (k', a').
        + right. now left.
        + apply NoDup_cons in Hndi as [Hn1 _]. intros ->. apply Hn1, list_elem_of_In.
          now left.
      - exists k1. rewrite map_set_head_ne by assumption.
        split; [|split; [now left|congruence]].
        apply (oldest_min _ k1 a1); [now left|].
        intros k' a' [Heq|Hin]; [now left|right].
        apply map_set_In in Hin as [[= -> ->]|[[= -> ->]|Hin]]; [lia|lia|].
        assert (a2 < a'); [|lia].
        apply (ascending_bounds a2 _ (List.map snd rest) a' Hasc).
        apply in_map_iff. now exists (k', a'). }
    destruct Hvictim as (victim & Hold & Hvin & Hvne).
    destruct (set_step_evict fuel tl_ kl vl cR victim Hfuel) as (r & Hr & Hstep).
    + unfold is_full. rewrite Hsz. unfold cR. cbn [config]. rewrite Hcfg, Hmax.
      apply andb_true_iff. split; [apply Z.leb_le|apply Z.ltb_lt]; lia.
    + rewrite Hsz. unfold cR. cbn [config]. rewrite Hcfg, Hmax. lia.
    + exact Hold.
    + rewrite List.Forall_forall in Htri. now apply Htri.
    + now rewrite HckR.
    + now rewrite HckR.
    + now rewrite HakR.
    + exists r. split; [exact Hr|]. intros c' ->.
      destruct (Hstep c' eq_refl) as (_ & Hkeys & _). unfold keys. rewrite Hkeys, HckR.
      split; [|exists victim; repeat split; try assumption].
      * apply in_app_iff. left. apply in_filter_other. auto.
      * intro Hin. apply in_app_iff in Hin as [Hin|[<-|[]]].
        -- apply in_filter_other in Hin. tauto.
        -- contradiction.
      * intros k Hk Hkv. unfold itemKeys in Hk. rewrite map_app in Hk.
        fold (itemKeys items) in Hk. cbn in Hk.
        apply in_app_iff in Hk as [Hk|[<-|[]]]; apply in_app_iff.
        -- left. apply in_filter_other. auto.
        -- right. now left.
Qed.

End Lru.

(** *** Memory accounting *)

Section Accounting.
Context {V : Type} `{JsRuntime V}.
Implicit Types (c : WhoopCache V) (m : JsMap (CacheEntry V)).

Lemma or_zero_id z : or_zero z = z.
Proof. unfold or_zero, truthy_number. now destruct (Z.eqb_spec z 0) as [->|]. Qed.

Lemma sumEntries_app m1 m2 : sumEntries (m1 ++ m2) = sumEntries m1 + sumEntries m2.
Proof. induction m1 as [|[k e] m1 IH]; cbn [sumEntries app]; [lia|]. rewrite IH. lia. Qed.

Lemma sumEntries_delete k m :
  List.NoDup (map_keys m) ->
  sumEntries (map_delete k m) =
  sumEntries m - match map_get k m with Some e => e_size e | None => 0 end.
Proof.
  unfold map_keys. induction m as [|[k' e'] m IH]; cbn [sumEntries map_delete map_get List.map fst];
    [lia|]. intro Hnd.
  inversion Hnd as [|? ? Hnin Hnd']; subst.
  destruct (String.eqb_spec k k') as [->|Hne]; cbn [sumEntries].
  - rewrite (map_delete_absent k' m Hnin). lia.
  - rewrite (IH Hnd'). lia.
Qed.

Lemma sumEntries_set_same k e e0 m :
  map_get k m = Some e0 -> e_size e = e_size e0 ->
  sumEntries (map_set k e m) = sumEntries m.
Proof.
  induction m as [|[k' e'] m IH]; cbn [sumEntries map_set map_get]; [discriminate|].
  destruct (String.eqb_spec k k'); cbn [sumEntries].
  - intros [= ->] ->. reflexivity.
  - intros Hg Hs. rewrite (IH Hg Hs). reflexivity.
Qed.

Lemma NoDup_map_delete {A} k (m : JsMap A) :
  List.NoDup (map_keys m) -> List.NoDup (map_keys (map_delete k m)).
Proof. intro Hnd. rewrite map_keys_delete. now apply List.NoDup_filter. Qed.

Lemma NoDup_map_set_absent {A} k (v : A) (m : JsMap A) :
  ~ In k (map_keys m) -> List.NoDup (map_keys m) -> List.NoDup (map_keys (map_set k v m)).
Proof.
  intros Hnin Hnd. rewrite (map_set_absent k v m Hnin). unfold map_keys in *.
  rewrite map_app. cbn. apply NoDup_ListNoDup, NoDup_app. repeat split.
  - now apply NoDup_ListNoDup.
  - intros x Hx Hx'. apply list_elem_of_In in Hx, Hx'. destruct Hx' as [<-|[]]. tauto.
  - apply NoDup_singleton.
Qed.

Lemma accounted_delete key c : accounted c -> accounted (snd (delete key c)).
Proof.
  intros [Hnd Hsum]. unfold accounted, delete, sumSizes in *. cbn [snd cache totalSize].
  split; [now apply NoDup_map_delete|].
  rewrite sumEntries_delete by assumption.
  destruct (map_get key (cache c)); rewrite ?or_zero_id; lia.
Qed.

Lemma accounted_get now key c : accounted c -> accounted (snd (get now key c)).
Proof.
  intros [Hnd Hsum]. unfold get.
  destruct (map_get key (cache c)) as [entry|] eqn:Hg; [|split; assumption].
  destruct (now - e_timestamp entry >? e_ttl entry).
  - unfold accounted, sumSizes in *. cbn [snd cache totalSize].
    split; [now apply NoDup_map_delete|].
    rewrite sumEntries_delete by assumption. rewrite Hg, or_zero_id. lia.
  - assert (Hin : In key (map_keys (cache c))).
    { destruct (in_dec string_dec key (map_keys (cache c))) as [|Hn]; [assumption|].
      apply map_get_None in Hn. congruence. }
    destruct (e_compressed entry && c_compress (config c));
      unfold accounted, sumSizes in *; cbn [snd cache totalSize];
      (split; [now rewrite map_keys_set_present|]);
      rewrite (sumEntries_set_same _ _ entry) by (assumption || reflexivity);
      exact Hsum.
Qed.

Lemma accounted_clear c : accounted (clear c).
Proof. split; cbn; [constructor|reflexivity]. Qed.

Lemma accounted_evictLRU c : accounted c -> accounted (evictLRU c).
Proof.
  intro Hacc. unfold evictLRU. destruct (oldest (accessOrder c)) as [k|]; [|assumption].
  destruct (truthy_string k); [|assumption].
  now destruct (accounted_delete k c Hacc).
Qed.

Lemma accounted_cleanup now c : accounted c -> accounted (cleanup now c).
Proof.
  unfold cleanup. generalize (List.map fst
    (base.filter (fun kv => (now - e_timestamp kv.2 >? e_ttl kv.2) = true) (cache c))).
  intro l. revert c. induction l as [|k l IH]; intros c Hacc; cbn; [assumption|].
  apply IH. now apply accounted_delete.
Qed.

Lemma accounted_evictWhileFull fuel :
  forall c c2, accounted c -> evictWhileFull fuel c = Some c2 -> accounted c2.
Proof.
  induction fuel as [|fuel IH]; intros c c2 Hacc; cbn; destruct (is_full c);
    try discriminate; try (intros [= <-]; assumption).
  apply IH. now apply accounted_evictLRU.
Qed.

Lemma evictWhileFull_keys fuel :
  forall c c2 k, evictWhileFull fuel c = Some c2 ->
    In k (map_keys (cache c2)) -> In k (map_keys (cache c)).
Proof.
  induction fuel as [|fuel IH]; intros c c2 k; cbn; destruct (is_full c);
    try discriminate; try (intros [= <-]; auto).
  intros Hev Hin. specialize (IH _ _ _ Hev Hin). unfold evictLRU in IH.
  destruct (oldest (accessOrder c)) as [k0|]; [|assumption].
  destruct (truthy_string k0); [|assumption].
  cbn in IH. now apply map_keys_delete_subset in IH.
Qed.

(** Every operation keeps the accounting invariant, [set] as long as the
    key it writes is not present. *)
Lemma accounting_preserved c :
  accounted c ->
  (forall now key, accounted (snd (get now key c))) /\
  (forall key, accounted (snd (delete key c))) /\
  accounted (clear c) /\
  accounted (evictLRU c) /\
  (forall now, accounted (cleanup now c)) /\
  (forall fuel now key data customTtl c',
     map_get key (cache c) = None ->
     set fuel now key data customTtl c = Some (Returns c') ->
     accounted c').
Proof.
  intro Hacc.
  split; [intros; now apply accounted_get|].
  split; [intros; now apply accounted_delete|].
  split; [apply accounted_clear|].
  split; [now apply accounted_evictLRU|].
  split; [intros; now apply accounted_cleanup|].
  intros fuel now key data customTtl c' Habs Hset.
  destruct (set_cases fuel now key data customTtl c) as [(t & Ht)|(entry & sv & Hs)];
    [congruence|].
  rewrite Hs in Hset. destruct (evictWhileFull fuel _) as [c2|] eqn:Hev; [|discriminate].
  injection Hset as <-.
  assert (Hnin : ~ In key (map_keys (cache c2))).
  { intro Hin. apply (evictWhileFull_keys _ _ _ _ Hev) in Hin. cbn in Hin.
    now apply map_get_None in Habs. }
  eapply accounted_evictWhileFull in Hev as [Hnd2 Hsum2]; [|exact Hacc].
  unfold accounted, sumSizes in *. cbn [cache totalSize]. split.
  - now apply NoDup_map_set_absent.
  - rewrite (map_set_absent key entry _ Hnin), sumEntries_app. cbn [sumEntries]. lia.
Qed.

(** [get] on a cache that holds [entry] under [key]: a hit up to the
    entry's TTL, a miss that removes the entry after it. *)
Lemma get_respects_entry_ttl now key c entry :
  map_get key (cache c) = Some entry ->
  (now - e_timestamp entry <= e_ttl entry ->
   fst (get now key c) =
   Some (if e_compressed entry && c_compress (config c)
         then decompress (e_data entry) else e_data entry)) /\
  (e_ttl entry < now - e_timestamp entry ->
   fst (get now key c) = None /\
   map_get key (cache (snd (get now key c))) = None).
Proof.
  intro Hg. unfold get. rewrite Hg.
  destruct (Z.gtb_spec (now - e_timestamp entry) (e_ttl entry)); split; intro; try lia.
  - cbn. split; [reflexivity|apply map_get_delete_eq].
  - now destruct (e_compressed entry && c_compress (config c)).
Qed.

End Accounting.

(** The theorem on the cache of the unit tests: after key1, key2, key3
    and key4 the cache holds key2, key3 and key4. *)
Lemma lru_eviction_order_witness :
  keys (Scenarios.after Scenarios.testCache
          (setAll 1 (Scenarios.threeItems ++ [Scenarios.fourthItem])
             (new_WhoopCache Scenarios.testConfig))) =
  ["key2"; "key3"; "key4"]%string.
Proof.
  assert (Hnd : NoDup (itemKeys (Scenarios.threeItems ++ [Scenarios.fourthItem]))).
  { apply NoDup_ListNoDup. cbn. repeat constructor; cbn; intuition discriminate. }
  assert (Htr : Forall (fun k => truthy_string k = true)
                  (itemKeys (Scenarios.threeItems ++ [Scenarios.fourthItem]))).
  { cbn. repeat constructor. }
  destruct (lru_eviction_order Scenarios.testConfig 3 1%nat Scenarios.threeItems
              Scenarios.fourthItem eq_refl ltac:(lia) ltac:(lia) eq_refl Hnd Htr)
    as ((r & Hr & Hk) & _).
  rewrite Hr. destruct r as [c'|t]; [|vm_compute in Hr; discriminate].
  cbn [Scenarios.after]. rewrite (Hk c' eq_refl). reflexivity.
Defined.

(** C8 as stated fails in three ways. With [maxSize = 0] the single key
    inserted stays. With the empty string as the oldest key of a full cache
    the next [set] never returns, whatever the fuel. And a key that is read
    before the other keys are inserted is still the one evicted. *)
Lemma lru_claim_counterexamples :
  keys (Scenarios.after Scenarios.zeroCache
          (set 1 0 "a" (JStr "x") None Scenarios.zeroCache)) = ["a"%string]
  /\
  (let c := Scenarios.after Scenarios.singleCache
              (set 1 0 "" (JStr "x") None Scenarios.singleCache) in
   keys c = [""%string] /\
   ~ exists fuel r, set fuel 1 "b" (JStr "y") None c = Some r)
  /\
  (let c1 := Scenarios.after Scenarios.pairCache
               (set 1 0 "k1" (JStr "x") None Scenarios.pairCache) in
   let c2 := snd (get 1 "k1" c1) in
   let c3 := Scenarios.after c2 (setAll 1 [(2, "k2"%string, JStr "y");
                                           (3, "k3"%string, JStr "z")] c2) in
   fst (get 1 "k1" c1) = Some (JStr "x") /\ keys c3 = ["k2"; "k3"]%string).
Proof.
  split; [reflexivity|]. split; [|vm_compute; auto].
  cbn zeta. split; [reflexivity|]. intros (fuel & r & Hset).
  assert (Ht : exists t, r = Throws t)
    by (eapply set_hangs_on_empty_oldest_key; [| |exact Hset]; reflexivity).
  destruct Ht as (t & ->).
  set (c := Scenarios.after _ _) in Hset. vm_compute in c. subst c.
  unfold set in Hset. cbn -[evictWhileFull] in Hset.
  destruct (evictWhileFull _ _) in Hset; discriminate.
Qed.

End CacheFacts.

(** ** Deduplicator *)

Module DedupFacts.
Import Js Errors Dedup.

Section Collapse.
Context {R : Type}.
Implicit Types (d : RequestDeduplicator R) (o : Completion R) (e : Event (R := R)).

(** Without an abort the promise of [executeWithMetrics] settles as
    [requestFn] did. *)
Lemma executeWithMetrics_not_aborted o : executeWithMetrics false o = o.
Proof. now destruct o. Qed.

(** After an abort a success is still a success; only a failure is
    replaced by the cancellation error. *)
Lemma executeWithMetrics_aborted o :
  executeWithMetrics true o =
  match o with
  | Returns result => Returns result
  | Throws _ => Throws (ThrownError (new_Error "Request was cancelled"))
  end.
Proof. now destruct o. Qed.

Lemma settle_all_in (ids : list nat) o (rs : gmap nat (Completion R)) id :
  In id ids -> settle_all ids o rs !! id = Some o.
Proof.
  unfold settle_all. revert rs. induction ids as [|x ids IH]; intros rs Hin; [destruct Hin|].
  cbn. destruct (in_dec Nat.eq_dec id ids) as [Hin'|Hnin]; [now apply IH|].
  destruct Hin as [->|?]; [|contradiction].
  clear IH. revert rs. induction ids as [|y ids IH]; intro rs; cbn.
  - apply lookup_insert_eq.
  - assert (id <> y) by (intros ->; apply Hnin; now left).
    assert (Hnin' : ~ In id ids) by (intro; apply Hnin; now right).
    specialize (IH Hnin' (<[y:=o]> rs)). rewrite insert_insert_ne in IH by congruence.
    exact IH.
Qed.

(** [consistent] reads four fields only. *)
Lemma consistent_ext d d' :
  pendingRequests d' = pendingRequests d -> running d' = running d ->
  slotQueue d' = slotQueue d -> nextId d' = nextId d ->
  consistent d -> consistent d'.
Proof. unfold consistent. intros -> -> -> ->. exact id. Qed.

Lemma consistent_new cfg : consistent (new_RequestDeduplicator (R := R) cfg).
Proof.
  unfold consistent. cbn. repeat split; try (intros; now rewrite ?lookup_empty in * );
    try (intros ? ? H; now rewrite lookup_empty in H); intros ? ? [].
Qed.

(** The two outcomes of [executeAdmitted]. *)
Lemma executeAdmitted_cases call key now d :
  (exists existing pr,
      pendingRequests d !! key = Some existing /\
      store d !! existing = Some pr /\
      now - timestamp pr < windowMs (config d) /\
      config (executeAdmitted call key now d) = config d /\
      pendingRequests (executeAdmitted call key now d) = pendingRequests d /\
      store (executeAdmitted call key now d) =
        <[existing := {| timestamp := timestamp pr; resolvers := resolvers pr ++ [call];
                         rejectors := rejectors pr ++ [call]; aborted := aborted pr |}]>
          (store d) /\
      running (executeAdmitted call key now d) = running d /\
      slotQueue (executeAdmitted call key now d) = slotQueue d /\
      invocations (executeAdmitted call key now d) = invocations d /\
      nextId (executeAdmitted call key now d) = nextId d)
  \/
  (liveEntry key now d = false /\
   config (executeAdmitted call key now d) = config d /\
   pendingRequests (executeAdmitted call key now d) = <[key := call]> (pendingRequests d) /\
   store (executeAdmitted call key now d) =
     <[call := {| timestamp := now; resolvers := []; rejectors := []; aborted := false |}]>
       (store d) /\
   running (executeAdmitted call key now d) = <[call := Leader key]> (running d) /\
   slotQueue (executeAdmitted call key now d) = slotQueue d /\
   invocations (executeAdmitted call key now d) = invocations d ++ [(call, key)] /\
   nextId (executeAdmitted call key now d) = nextId d).
Proof.
  unfold executeAdmitted, liveEntry.
  destruct (pendingRequests d !! key) as [existing|] eqn:Hp;
    [destruct (store d !! existing) as [pr|] eqn:Hs|].
  - destruct (isWithinWindow now (timestamp pr) d) eqn:Hw.
    + left. exists existing, pr. unfold attachToExisting. cbn [store]. rewrite Hs. cbn.
      apply Z.ltb_lt in Hw. repeat split; auto.
    + right. cbn. repeat split; auto.
  - right. cbn. repeat split; auto.
  - right. cbn. repeat split; auto.
Qed.

Lemma executeAdmitted_consistent call key now d :
  consistent d -> (call < nextId d)%nat -> running d !! call = None ->
  (forall k, ~ In (call, k) (slotQueue d)) ->
  consistent (executeAdmitted call key now d).
Proof.
  intros (Hp & Hr & Hq) Hlt Hnone Hnq.
  destruct (executeAdmitted_cases call key now d)
    as [(ex & pr & _ & _ & _ & _ & Ep & _ & Er & Eq & _ & En)
       |(_ & _ & Ep & _ & Er & Eq & _ & En)].
  - apply (consistent_ext d); auto. exact (conj Hp (conj Hr Hq)).
  - unfold consistent. rewrite Ep, Er, Eq, En. repeat split.
    + intros k e. destruct (decide (k = key)) as [->|Hne].
      * rewrite lookup_insert_eq. intros [= <-]. apply lookup_insert_eq.
      * rewrite lookup_insert_ne by congruence. intro Hk. pose proof (Hp _ _ Hk) as Hrun.
        rewrite lookup_insert_ne; [exact Hrun|]. intros <-. congruence.
    + intros e r. destruct (decide (e = call)) as [->|Hne]; [intros _; exact Hlt|].
      rewrite lookup_insert_ne by congruence. apply Hr.
    + now apply Hq in H.
    + rewrite lookup_insert_ne; [now apply Hq in H|]. intros <-. now apply Hnq in H.
Qed.

Lemma In_filter_queue (call c : nat) (k : string) (q : list (nat * string)) :
  In (c, k) (List.filter (fun ck => negb (Nat.eqb (fst ck) call)) q) <->
  In (c, k) q /\ c <> call.
Proof.
  rewrite List.filter_In. cbn [fst]. destruct (Nat.eqb_spec c call); cbn; intuition congruence.
Qed.

Lemma find_queue_In (call : nat) (q : list (nat * string)) c k :
  List.find (fun ck => Nat.eqb (fst ck) call) q = Some (c, k) -> In (call, k) q.
Proof.
  intro H. apply List.find_some in H as [Hin Heq]. cbn in Heq.
  apply Nat.eqb_eq in Heq. now subst.
Qed.

(** Every event keeps the deduplicator consistent. *)
Lemma step_consistent e d : consistent d -> consistent (step e d).
Proof.
  intros Hc. pose proof Hc as (Hp & Hr & Hq). destruct e as [key skip now|call now|exec o|key|]; cbn [step].
  - unfold execute. destruct (negb (enabled (config d)) || skip); cbn [snd].
    + unfold consistent. cbn. repeat split.
      * intros k e Hk. pose proof (Hp _ _ Hk) as Hrun. rewrite lookup_insert_ne; [exact Hrun|].
        intros <-. apply Hr in Hrun. lia.
      * intros e r. destruct (decide (e = nextId d)) as [->|Hne]; [lia|].
        rewrite lookup_insert_ne by congruence. intro H. apply Hr in H. lia.
      * apply Hq in H. lia.
      * rewrite lookup_insert_ne; [now apply Hq in H|]. intros <-. apply Hq in H. lia.
    + destruct (maxConcurrent (config d) <=? concurrentRequests (stats d)); cbn [snd].
      * unfold consistent. cbn. repeat split; auto.
        -- intros e r H. apply Hr in H. lia.
        -- apply in_app_or in H as [H|[[= <- <-]|[]]]; [apply Hq in H|]; lia.
        -- apply in_app_or in H as [H|[[= <- <-]|[]]]; [now apply Hq in H|].
           destruct (running d !! nextId d) eqn:E; [|reflexivity]. apply Hr in E. lia.
      * apply executeAdmitted_consistent; cbn.
        -- unfold consistent. cbn. repeat split; auto.
           ++ intros e r H. apply Hr in H. lia.
           ++ apply Hq in H. lia.
           ++ now apply Hq in H.
        -- lia.
        -- destruct (running d !! nextId d) eqn:E; [|reflexivity]. apply Hr in E. lia.
        -- intros k H. apply Hq in H. lia.
  - unfold slotPoll.
    destruct (List.find _ (slotQueue d)) as [[c key]|] eqn:Hfind; [|exact Hc].
    destruct (concurrentRequests (stats d) <? maxConcurrent (config d)); [|exact Hc].
    apply find_queue_In in Hfind. apply Hq in Hfind as [Hlt Hnone].
    apply executeAdmitted_consistent; cbn; auto.
    + unfold consistent. cbn. repeat split; auto;
        apply In_filter_queue in H as [H _]; now apply Hq in H.
    + intros k H. apply In_filter_queue in H as [_ H]. congruence.
  - unfold settle. destruct (running d !! exec) as [[|key]|] eqn:Hrun; [| |exact Hc].
    + unfold consistent. cbn. repeat split.
      * intros k e Hk. pose proof (Hp _ _ Hk) as Hrun'. rewrite lookup_delete_ne; [exact Hrun'|].
        intros <-. congruence.
      * intros e r H. apply lookup_delete_Some in H as [_ H]. now apply Hr in H.
      * now apply Hq in H.
      * destruct (decide (c = exec)) as [->|Hne]; [apply lookup_delete_eq|].
        rewrite lookup_delete_ne by congruence. now apply Hq in H.
    + destruct (store d !! exec) as [pr|]; [|exact Hc].
      unfold consistent. cbn. repeat split.
      * intros k e Hk. apply lookup_delete_Some in Hk as [Hne Hk].
        pose proof (Hp _ _ Hk) as Hrun'. rewrite lookup_delete_ne; [exact Hrun'|].
        intros <-. congruence.
      * intros e r H. apply lookup_delete_Some in H as [_ H]. now apply Hr in H.
      * now apply Hq in H.
      * destruct (decide (c = exec)) as [->|Hne]; [apply lookup_delete_eq|].
        rewrite lookup_delete_ne by congruence. now apply Hq in H.
  - unfold cancel. destruct (pendingRequests d !! key) as [pending|]; cbn [snd]; [|exact Hc].
    unfold consistent. cbn. repeat split; auto; try (now apply Hq in H).
    intros k e Hk. apply lookup_delete_Some in Hk as [_ Hk]. now apply Hp.
  - unfold clear, consistent. cbn. repeat split; auto; try (now apply Hq in H).
    intros k e Hk. now rewrite lookup_empty in Hk.
Qed.

Lemma run_consistent es d : consistent d -> consistent (run es d).
Proof.
  revert d. induction es as [|e es IH]; intros d Hc; [exact Hc|].
  cbn. apply IH. now apply step_consistent.
Qed.

Lemma invocationsOf_snoc key d d' call k :
  invocations d' = invocations d ++ [(call, k)] ->
  invocationsOf key d' =
  (invocationsOf key d + if String.eqb k key then 1 else 0)%nat.
Proof.
  unfold invocationsOf. intros ->. rewrite List.filter_app, length_app. cbn.
  now destruct (String.eqb k key).
Qed.

Lemma invocationsOf_ext key d' d :
  invocations d' = invocations d -> invocationsOf key d' = invocationsOf key d.
Proof. unfold invocationsOf. now intros ->. Qed.

(** [collapsing] survives a change that hands out numbers or thins the
    slot queue. *)
Lemma collapsing_ext cfg key c0 t0 n ids d d' :
  config d' = config d -> pendingRequests d' = pendingRequests d ->
  store d' = store d -> running d' = running d ->
  incl (slotQueue d') (slotQueue d) -> invocations d' = invocations d ->
  (nextId d <= nextId d')%nat ->
  collapsing cfg key c0 t0 n ids d -> collapsing cfg key c0 t0 n ids d'.
Proof.
  intros Ec Ep Es Er Eq Ei En ((Hp & Hr & Hq) & Hcfg & Hk & Hst & Hrun & Hinv & Hlt).
  unfold collapsing, consistent. rewrite Ec, Ep, Es, Er, (invocationsOf_ext key d' d Ei).
  split; [split; [exact Hp|split]|].
  - intros e r He. apply Hr in He. lia.
  - intros c k Hin. apply Eq, Hq in Hin as [Hc Hn]. split; [lia|exact Hn].
  - repeat split; auto. lia.
Qed.

(** An admitted call for another key leaves the execution for [key] and
    its waiters alone. *)
Lemma executeAdmitted_other cfg key c0 t0 n ids call k now d :
  k <> key ->
  collapsing cfg key c0 t0 n ids d ->
  (call < nextId d)%nat -> running d !! call = None ->
  (forall k', ~ In (call, k') (slotQueue d)) ->
  collapsing cfg key c0 t0 n ids (executeAdmitted call k now d) /\
  (forall x, running (executeAdmitted call k now d) !! x = Some (Leader key) ->
             running d !! x = Some (Leader key)).
Proof.
  intros Hne Hcol Hlt Hnone Hnq.
  pose proof Hcol as (Hc & Hcfg & Hk & Hst & Hrun & Hinv & Hc0).
  pose proof (executeAdmitted_consistent call k now d Hc Hlt Hnone Hnq) as Hc'.
  destruct (executeAdmitted_cases call k now d)
    as [(ex & pr & Hex & _ & _ & Ec & Ep & Es & Er & Eq & Ei & En)
       |(_ & Ec & Ep & Es & Er & Eq & Ei & En)].
  - split; [|now rewrite Er].
    assert (ex <> c0).
    { intros ->. destruct Hc as (Hp & _). apply Hp in Hex. congruence. }
    split; [exact Hc'|]. rewrite Ec, Ep, Es, Er, En, (invocationsOf_ext key _ _ Ei).
    rewrite lookup_insert_ne by congruence. repeat split; auto.
  - split.
    + split; [exact Hc'|]. rewrite Ec, Ep, Es, Er, En, (invocationsOf_snoc key _ _ _ _ Ei).
      destruct (String.eqb_spec k key) as [|_]; [contradiction|].
      assert (call <> c0) by congruence.
      rewrite !lookup_insert_ne by congruence.
      repeat split; auto. lia.
    + intros x. rewrite Er. destruct (decide (x = call)) as [->|Hx].
      * rewrite lookup_insert_eq. congruence.
      * now rewrite lookup_insert_ne by congruence.
Qed.

(** An admitted call for [key] inside the window attaches. *)
Lemma executeAdmitted_same cfg key c0 t0 n ids call now d :
  collapsing cfg key c0 t0 n ids d ->
  now - t0 < windowMs cfg ->
  collapsing cfg key c0 t0 n (ids ++ [call]) (executeAdmitted call key now d) /\
  running (executeAdmitted call key now d) = running d.
Proof.
  intros (Hc & Hcfg & Hk & Hst & Hrun & Hinv & Hc0) Hwin.
  destruct (executeAdmitted_cases call key now d)
    as [(ex & pr & Hex & Hpr & _ & Ec & Ep & Es & Er & Eq & Ei & En)
       |(Hlive & _)].
  - split; [|exact Er].
    rewrite Hk in Hex. injection Hex as <-. rewrite Hst in Hpr. injection Hpr as <-.
    split; [apply (consistent_ext d); auto|].
    rewrite Ec, Ep, Es, Er, En, (invocationsOf_ext key _ _ Ei). cbn.
    rewrite lookup_insert_eq. repeat split; auto.
  - exfalso. unfold liveEntry in Hlive. rewrite Hk, Hst in Hlive.
    unfold isWithinWindow in Hlive. cbn in Hlive. rewrite Hcfg in Hlive.
    apply Z.ltb_ge in Hlive. lia.
Qed.

(** One allowed event: the execution stays registered, its waiters stay
    attached, a call for [key] joins them, and no execution for [key]
    starts. *)
Lemma step_collapsing cfg key c0 t0 n ids e d :
  enabled cfg = true ->
  collapsing cfg key c0 t0 n ids d ->
  allowed key c0 t0 d e ->
  exists ids',
    collapsing cfg key c0 t0 n ids' (step e d) /\
    incl ids ids' /\
    incl (callsFor key [e] d) ids' /\
    (forall x, running (step e d) !! x = Some (Leader key) ->
               running d !! x = Some (Leader key)).
Proof.
  intros Hen Hcol Hal.
  pose proof Hcol as (Hc & Hcfg & Hk & Hst & Hrun & Hinv & Hc0).
  pose proof (step_consistent e d Hc) as Hc'.
  pose proof Hc as (Hp & Hr & Hq).
  assert (Hfresh : running d !! nextId d = None).
  { destruct (running d !! nextId d) eqn:E; [|reflexivity]. apply Hr in E. lia. }
  assert (unchanged : forall e',
    callsFor key [e'] d = [] ->
    collapsing cfg key c0 t0 n ids (step e' d) /\
    (forall x, running (step e' d) !! x = Some (Leader key) ->
               running d !! x = Some (Leader key)) ->
    exists ids',
      collapsing cfg key c0 t0 n ids' (step e' d) /\
      incl ids ids' /\
      incl (callsFor key [e'] d) ids' /\
      (forall x, running (step e' d) !! x = Some (Leader key) ->
                 running d !! x = Some (Leader key))).
  { intros e' -> [Hcol' Hmono]. exists ids.
    split; [exact Hcol'|]. split; [apply incl_refl|]. split; [intros ? []|exact Hmono]. }
  destruct e as [k skip now|call now|exec o|k|]; try (apply unchanged; [reflexivity|]);
    cbn [step allowed] in *.
  - (* execute *)
    set (d0 := {| config := config d; pendingRequests := pendingRequests d;
                  stats := stats d; store := store d; running := running d;
                  slotQueue := slotQueue d; results := results d;
                  invocations := invocations d; nextId := S (nextId d) |}).
    assert (Hcol0 : collapsing cfg key c0 t0 n ids d0).
    { apply (collapsing_ext cfg key c0 t0 n ids d); cbn; auto using incl_refl. }
    destruct (String.eqb_spec k key) as [->|Hne].
    + cbn [callsFor]. rewrite String.eqb_refl. cbn [app].
      destruct Hal as (-> & Hwin & Hgate).
      unfold execute. rewrite <- Hcfg in Hen. rewrite Hen. cbn [negb orb].
      destruct (Z.leb_spec (maxConcurrent (config d)) (concurrentRequests (stats d))); [lia|].
      cbn [snd]. fold d0. rewrite Hcfg in Hwin.
      destruct (executeAdmitted_same cfg key c0 t0 n ids (nextId d) now d0 Hcol0 Hwin)
        as [Hcol' Hrun'].
      exists (ids ++ [nextId d]). split; [exact Hcol'|]. split; [apply incl_appl, incl_refl|].
      split; [apply incl_appr, incl_refl|]. now rewrite Hrun'.
    + apply (unchanged (EvExecute k skip now)).
      { cbn. now destruct (String.eqb_spec k key). }
      cbn [step]. unfold execute in *.
      destruct (negb (enabled (config d)) || skip); cbn [snd] in *.
      * split.
        -- split; [exact Hc'|]. cbn -[invocationsOf].
           rewrite (invocationsOf_snoc key d _ (nextId d) k) by reflexivity.
           destruct (String.eqb_spec k key) as [|_]; [contradiction|].
           rewrite lookup_insert_ne by lia. repeat split; auto; lia.
        -- cbn. intros x. destruct (decide (x = nextId d)) as [->|Hx].
           ++ rewrite lookup_insert_eq. congruence.
           ++ now rewrite lookup_insert_ne by congruence.
      * destruct (maxConcurrent (config d) <=? concurrentRequests (stats d)); cbn [snd] in *.
        -- split; [|cbn; auto]. split; [exact Hc'|]. cbn -[invocationsOf].
           rewrite (invocationsOf_ext key _ d) by reflexivity. repeat split; auto; lia.
        -- destruct (executeAdmitted_other cfg key c0 t0 n ids (nextId d) k now d0 Hne Hcol0)
             as [Hcol' Hmono]; [cbn; lia|exact Hfresh| |exact (conj Hcol' Hmono)].
           intros k' Hin. apply Hq in Hin. lia.
  - (* a parked call polls *)
    unfold slotPoll in *.
    destruct (List.find _ (slotQueue d)) as [[c k]|] eqn:Hfind; [|auto].
    destruct (concurrentRequests (stats d) <? maxConcurrent (config d)); [|auto].
    apply find_queue_In in Hfind. pose proof (Hal _ Hfind) as Hne.
    apply Hq in Hfind as [Hlt Hnone].
    match goal with |- context [executeAdmitted call k now ?x] => set (d' := x) end.
    destruct (executeAdmitted_other cfg key c0 t0 n ids call k now d' Hne)
      as [Hcol' Hmono]; [|exact Hlt|exact Hnone| |exact (conj Hcol' Hmono)].
    + apply (collapsing_ext cfg key c0 t0 n ids d); cbn; auto.
      intros ck Hin. apply List.filter_In in Hin. tauto.
    + intros k' Hin. apply In_filter_queue in Hin as [_ Hin]. congruence.
  - (* another execution settles *)
    destruct Hal as [Hx Hnk]. unfold settle in *.
    destruct (running d !! exec) as [[|k]|] eqn:Hex; [| |auto].
    + split.
      * split; [exact Hc'|]. cbn -[invocationsOf].
        rewrite (invocationsOf_ext key _ d) by reflexivity.
        rewrite lookup_delete_ne by congruence. repeat split; auto.
      * cbn. intros x Hx'. now apply lookup_delete_Some in Hx' as [_ Hx'].
    + destruct (store d !! exec) as [pr|]; [|auto]. split.
      * split; [exact Hc'|]. cbn -[invocationsOf].
        rewrite (invocationsOf_ext key _ d) by reflexivity.
        assert (k <> key) by congruence.
        rewrite !lookup_delete_ne by congruence. repeat split; auto.
      * cbn. intros x Hx'. now apply lookup_delete_Some in Hx' as [_ Hx'].
  - (* another key is cancelled *)
    unfold cancel in *.
    destruct (pendingRequests d !! k) as [p|] eqn:Hpk; cbn [snd] in *; [|auto].
    split; [|cbn; auto].
    split; [exact Hc'|]. cbn -[invocationsOf].
    rewrite (invocationsOf_ext key _ d) by reflexivity.
    rewrite lookup_delete_ne by congruence.
    assert (p <> c0) by (intros ->; apply Hp in Hpk; congruence).
    unfold abort. destruct (store d !! p); rewrite ?lookup_insert_ne by congruence;
      repeat split; auto.
  - destruct Hal.
Qed.

Lemma callsFor_cons key e es d :
  callsFor key (e :: es) d = callsFor key [e] d ++ callsFor key es (step e d).
Proof. cbn. now rewrite app_nil_r. Qed.

Lemma run_collapsing cfg key c0 t0 n es :
  enabled cfg = true ->
  forall ids d,
    collapsing cfg key c0 t0 n ids d ->
    valid key c0 t0 es d ->
    exists ids',
      collapsing cfg key c0 t0 n ids' (run es d) /\
      incl ids ids' /\
      incl (callsFor key es d) ids' /\
      (forall x, running (run es d) !! x = Some (Leader key) ->
                 running d !! x = Some (Leader key)).
Proof.
  intros Hen. induction es as [|e es IH]; intros ids d Hcol Hval.
  - exists ids. cbn. split; [exact Hcol|]. split; [apply incl_refl|]. split; [intros ? []|auto].
  - destruct Hval as [Hal Hval].
    destruct (step_collapsing cfg key c0 t0 n ids e d Hen Hcol Hal)
      as (ids1 & Hcol1 & Hincl1 & Hcalls1 & Hrun1).
    destruct (IH ids1 (step e d) Hcol1 Hval) as (ids2 & Hcol2 & Hincl2 & Hcalls2 & Hrun2).
    exists ids2. split; [exact Hcol2|]. split; [eapply incl_tran; eassumption|].
    split; [|cbn [run fold_left]; auto].
    rewrite callsFor_cons. apply incl_app; [eapply incl_tran; eassumption|exact Hcalls2].
Qed.

(** The first call for a key without a live entry registers its execution. *)
Lemma execute_registers key now d :
  consistent d ->
  enabled (config d) = true ->
  concurrentRequests (stats d) < maxConcurrent (config d) ->
  liveEntry key now d = false ->
  collapsing (config d) key (nextId d) now (S (invocationsOf key d)) []
    (snd (execute key false now d)) /\
  running (snd (execute key false now d)) = <[nextId d := Leader key]> (running d).
Proof.
  intros Hc Hen Hgate Hlive.
  pose proof (step_consistent (EvExecute key false now) d Hc) as Hc'. cbn [step] in Hc'.
  unfold execute in *. rewrite Hen in *. cbn [negb orb] in *.
  destruct (Z.leb_spec (maxConcurrent (config d)) (concurrentRequests (stats d))); [lia|].
  cbn [snd] in *.
  match goal with |- context [executeAdmitted ?c ?k ?n ?x] =>
    destruct (executeAdmitted_cases c k n x)
      as [(ex & pr & Hex & Hpr & Hw & _)|(_ & Ec & Ep & Es & Er & Eq & Ei & En)]
  end.
  - exfalso. cbn in Hex, Hpr, Hw. unfold liveEntry in Hlive. rewrite Hex, Hpr in Hlive.
    unfold isWithinWindow in Hlive. apply Z.ltb_ge in Hlive. lia.
  - split; [|exact Er]. split; [exact Hc'|].
    rewrite Ec, Ep, Es, Er, En, (invocationsOf_snoc key _ _ _ _ Ei). cbn -[invocationsOf].
    rewrite String.eqb_refl, !lookup_insert_eq, (invocationsOf_ext key _ d) by reflexivity.
    repeat split; auto; lia.
Qed.

(** C3 (as corrected). Deduplication is enabled, no entry for [key] is
    live at clock [t0] and a slot is free: the call of [execute(key, fn)] at
    [t0] starts the execution [c0]. While [c0] is pending, any events may
    follow that leave it registered: calls for [key] within [windowMs] of
    [t0] that find a free slot, and calls, polls, settlements and
    cancellations that concern other keys. Then [fn] has been invoked once
    for [key], no further execution for [key] has started, and when [c0]
    settles with [o], the first call and every one of the later calls for
    [key] settle with [o]. *)
Theorem dedup_collapses_calls_in_window :
  forall (d : RequestDeduplicator R) key t0 es o,
    consistent d ->
    enabled (config d) = true ->
    concurrentRequests (stats d) < maxConcurrent (config d) ->
    liveEntry key t0 d = false ->
    let c0 := nextId d in
    let d1 := snd (execute key false t0 d) in
    valid key c0 t0 es d1 ->
    let d2 := run es d1 in
    let d3 := settle c0 o d2 in
    invocationsOf key d3 = S (invocationsOf key d) /\
    (forall x, running d2 !! x = Some (Leader key) ->
               x = c0 \/ running d !! x = Some (Leader key)) /\
    results d3 !! c0 = Some o /\
    Forall (fun call => results d3 !! call = Some o) (callsFor key es d1).
Proof.
  intros d key t0 es o Hc Hen Hgate Hlive c0 d1 Hval. cbn zeta.
  destruct (execute_registers key t0 d Hc Hen Hgate Hlive) as [Hcol1 Hrun1].
  fold c0 d1 in Hcol1, Hrun1.
  destruct (run_collapsing (config d) key c0 t0 _ es Hen [] d1 Hcol1 Hval)
    as (ids & Hcol2 & _ & Hcalls & Hmono).
  destruct Hcol2 as (_ & _ & _ & Hst & Hrun & Hinv & _).
  assert (E3 : invocations (settle c0 o (run es d1)) = invocations (run es d1) /\
               results (settle c0 o (run es d1)) =
               <[c0 := o]> (settle_all ids o (results (run es d1)))).
  { unfold settle. rewrite Hrun, Hst. cbn. destruct o; cbn; auto. }
  destruct E3 as [Ei Er].
  split; [now rewrite (invocationsOf_ext key _ _ Ei)|].
  split.
  { intros x Hx. apply Hmono in Hx. rewrite Hrun1 in Hx.
    destruct (decide (x = c0)) as [->|Hne]; [now left|].
    right. now rewrite lookup_insert_ne in Hx by congruence. }
  split; [rewrite Er; apply lookup_insert_eq|].
  apply List.Forall_forall. intros call Hin. apply Hcalls in Hin. rewrite Er.
  destruct (decide (call = c0)) as [->|Hne]; [apply lookup_insert_eq|].
  rewrite lookup_insert_ne by congruence. now apply settle_all_in.
Qed.

(** [cancel(key)] answers whether an entry was registered under [key],
    and no entry is registered afterwards. *)
Lemma cancel_reports_pending key (d : RequestDeduplicator R) :
  (fst (cancel key d) = true <-> is_Some (pendingRequests d !! key)) /\
  pendingRequests (snd (cancel key d)) !! key = None.
Proof.
  unfold cancel. destruct (pendingRequests d !! key) as [e|] eqn:He; cbn.
  - split; [split; eauto|apply lookup_delete_eq].
  - split; [split; [discriminate|intros [? [=]]]|exact He].
Qed.

End Collapse.

(** The theorem on the deduplicator of the unit tests: two more calls for
    the key, 50ms and 90ms after the first, with a call for another key
    started and settled in between; all three settle with the value of the
    single invocation. *)
Lemma dedup_collapses_calls_in_window_witness :
  let d1 := snd (execute "x" false 0 Scenarios.testDedup) in
  let es := [EvExecute "x" false 50; EvExecute "y" false 60;
             EvSettle 2 (Returns "other"%string); EvExecute "x" false 90] in
  let d3 := settle 0 (Returns "value"%string) (run es d1) in
  invocationsOf "x" d3 = 1%nat /\
  results d3 !! 0%nat = Some (Returns "value"%string) /\
  results d3 !! 1%nat = Some (Returns "value"%string) /\
  results d3 !! 3%nat = Some (Returns "value"%string).
Proof.
  assert (Hval : valid "x" 0 0
            [EvExecute "x" false 50; EvExecute "y" false 60;
             EvSettle 2 (Returns "other"%string); EvExecute "x" false 90]
            (snd (execute "x" false 0 Scenarios.testDedup))).
  { vm_compute. repeat split; discriminate. }
  destruct (dedup_collapses_calls_in_window Scenarios.testDedup "x" 0 _
              (Returns "value"%string) (consistent_new _) eq_refl eq_refl eq_refl Hval)
    as (Hinv & _ & Hres & Hall).
  cbn zeta. split; [exact Hinv|]. split; [exact Hres|].
  apply List.Forall_cons_iff in Hall as [H1 Hall].
  apply List.Forall_cons_iff in Hall as [H3 _].
  split; [exact H1|exact H3].
Defined.

(** C3 as stated fails in three ways. With a single slot, the second call
    for the key waits for a slot instead of attaching, and runs [fn] again
    once the first has settled: two invocations, two different values.
    A call for the key that arrives when the window has passed starts a
    second execution while the first is still active. And when that first
    execution settles, its [finally] deletes the entry of the second, so
    that a call 10ms after the second, which is still pending, runs [fn]
    once more. *)
Lemma dedup_claim_counterexamples :
  (let e1 := snd (execute "k" false 0 Scenarios.singleSlotDedup) in
   let e2 := snd (execute "k" false 0 e1) in
   let e3 := settle 0 (Returns "r1"%string) e2 in
   let e4 := slotPoll 1 10 e3 in
   let e5 := settle 1 (Returns "r2"%string) e4 in
   enabled (config e1) = true /\
   pendingRequests e1 !! "k"%string = Some 0%nat /\
   invocationsOf "k" e5 = 2%nat /\
   results e5 !! 0%nat = Some (Returns "r1"%string) /\
   results e5 !! 1%nat = Some (Returns "r2"%string))
  /\
  (let f1 := snd (execute "k" false 0 Scenarios.testDedup) in
   let f2 := snd (execute "k" false 100 f1) in
   pendingRequests f1 !! "k"%string = Some 0%nat /\
   activeFor "k" f1 = 1%nat /\ activeFor "k" f2 = 2%nat)
  /\
  (let g1 := snd (execute "k" false 0 Scenarios.testDedup) in
   let g2 := snd (execute "k" false 150 g1) in
   let g3 := settle 0 (Returns "r1"%string) g2 in
   let g4 := snd (execute "k" false 160 g3) in
   let g5 := settle 2 (Returns "r3"%string) (settle 1 (Returns "r2"%string) g4) in
   pendingRequests g2 !! "k"%string = Some 1%nat /\
   running g3 !! 1%nat = Some (Leader "k") /\
   pendingRequests g3 !! "k"%string = None /\
   invocationsOf "k" g2 = 2%nat /\
   invocationsOf "k" g4 = 3%nat /\
   results g5 !! 1%nat = Some (Returns "r2"%string) /\
   results g5 !! 2%nat = Some (Returns "r3"%string)).
Proof. vm_compute. auto 20. Qed.

(** C9. A call and an attached waiter for the key, then [cancel(key)]: it
    returns true and the entry is gone; [requestFn] knows nothing of the
    abort and resolves, and both the caller and the attached waiter are
    resolved with its value. (When [requestFn] rejects after the abort,
    both are rejected with "Request was cancelled".) *)
Theorem cancel_does_not_reject_waiters :
  let s1 := snd (execute "cancel-key" false 0 Scenarios.testDedup) in
  let s2 := snd (execute "cancel-key" false 10 s1) in
  let s3 := cancel "cancel-key" s2 in
  let resolved := settle 0 (Returns "result"%string) (snd s3) in
  let rejected := settle 0 (Throws (ThrownError (new_Error "boom"))) (snd s3) in
  fst s3 = true /\
  pendingRequests (snd s3) !! "cancel-key"%string = None /\
  results resolved !! 0%nat = Some (Returns "result"%string) /\
  results resolved !! 1%nat = Some (Returns "result"%string) /\
  results rejected !! 1%nat =
    Some (Throws (ThrownError (new_Error "Request was cancelled"))).
Proof. vm_compute. auto 10. Qed.

End DedupFacts.

(** ** Retry: bounds, delays and the decisive attempt *)

Module RetryLoopFacts.
Import Js Errors Retry.

Section Loop.
Context {T : Type}.
Variable fn : nat -> Completion T.
Variable signal_ : option AbortSignal.
Variables (n maxd : Z).

(** The delay slept for a retryable error is the error's own delay, capped;
    the attempt number, the base delay and the random number are not used. *)
Lemma finalDelay_retryable base attempt error r :
  canRetry (getRetryInfo error) = true ->
  exists d, delayMs (getRetryInfo error) = Some d /\
            finalDelay base maxd attempt (getRetryInfo error) r =
            Qmin (inject_Z d) (inject_Z maxd).
Proof.
  intro Hretry. unfold finalDelay.
  destruct error as [|e]; [discriminate|]. unfold getRetryInfo in *.
  destruct (isRateLimitError (ThrownError e)).
  - cbn. destruct (retryAfter e) as [ra|].
    + destruct (truthy_number ra) eqn:Hra.
      * eexists. split; [reflexivity|].
        assert (Hnz : truthy_number (ra * 1000) = true).
        { unfold truthy_number in *. apply negb_true_iff in Hra. apply Z.eqb_neq in Hra.
          apply negb_true_iff. apply Z.eqb_neq. lia. }
        now rewrite Hnz.
      * eexists. split; reflexivity.
    + eexists. split; reflexivity.
  - destruct (isWhoopAPIError (ThrownError e)); [eexists; split; reflexivity|].
    destruct (isNetworkOrTimeout (ThrownError e)); [eexists; split; reflexivity|].
    discriminate.
Qed.

Lemma retryLoop_ignores_backoff random random' base base' (remaining : nat) :
  forall attempt last calls_ sleeps_,
    retryLoop fn random n base maxd signal_ remaining attempt last calls_ sleeps_ =
    retryLoop fn random' n base' maxd signal_ remaining attempt last calls_ sleeps_.
Proof.
  induction remaining as [|r IH]; intros attempt last calls_ sleeps_; [reflexivity|].
  cbn [retryLoop]. destruct (aborted signal_ attempt); [reflexivity|].
  destruct (fn (S calls_)) as [v|error]; [reflexivity|].
  destruct (attempt =? n); [reflexivity|].
  destruct (canRetry (getRetryInfo error)) eqn:Hretry; cbn [negb]; [|reflexivity].
  destruct (finalDelay_retryable base attempt error (random (S calls_)) Hretry)
    as (d & Hd & ->).
  destruct (finalDelay_retryable base' attempt error (random' (S calls_)) Hretry)
    as (d' & Hd' & ->).
  rewrite Hd in Hd'. injection Hd' as <-. apply IH.
Qed.

Lemma finalDelay_capped base attempt info r :
  (finalDelay base maxd attempt info r <= inject_Z maxd)%Q.
Proof. unfold finalDelay. apply Q.le_min_r. Qed.

Lemma failedInvocations_S (k : nat) :
  RetryRuns.failedInvocations fn (S k) =
  (RetryRuns.failedInvocations fn k + if is_throw (fn (S k)) then 1 else 0)%nat.
Proof.
  unfold RetryRuns.failedInvocations. rewrite List.seq_S, List.filter_app, length_app.
  cbn. now destruct (is_throw (fn (S k))).
Qed.

(** Every delay was slept after a failed invocation of its own. *)
Lemma retryLoop_bounds random base (remaining : nat) :
  forall attempt last calls_ sleeps_,
    (length sleeps_ <= RetryRuns.failedInvocations fn calls_)%nat ->
    Forall (fun s => (s <= inject_Z maxd)%Q) sleeps_ ->
    let run := retryLoop fn random n base maxd signal_ remaining attempt last calls_ sleeps_ in
    (calls run <= calls_ + remaining)%nat /\
    (length (sleeps run) <= RetryRuns.failedInvocations fn (calls run))%nat /\
    Forall (fun s => (s <= inject_Z maxd)%Q) (sleeps run).
Proof.
  induction remaining as [|r IH]; intros attempt last calls_ sleeps_ Hlen Hcap; cbn zeta.
  - cbn [retryLoop calls sleeps outcome]. repeat split; auto; lia.
  - pose proof (failedInvocations_S calls_) as HS.
    cbn [retryLoop]. destruct (aborted signal_ attempt); [cbn [calls sleeps outcome is_throw]; repeat split; auto; lia|].
    destruct (fn (S calls_)) as [v|error]; cbn [is_throw] in HS;
      [cbn [calls sleeps outcome is_throw]; repeat split; auto; lia|].
    destruct (attempt =? n); [cbn [calls sleeps outcome is_throw]; repeat split; auto; lia|].
    destruct (canRetry (getRetryInfo error)); cbn [negb];
      [|cbn [calls sleeps outcome is_throw]; repeat split; auto; lia].
    match goal with |- context [retryLoop _ _ _ _ _ _ r ?a ?l ?c ?s] =>
      destruct (IH a l c s) as (Hc & Hs & Hf)
    end.
    + rewrite length_app. cbn [length]. lia.
    + apply Forall_app. split; [exact Hcap|]. constructor; [|constructor].
      apply finalDelay_capped.
    + cbn zeta in *. repeat split; auto; lia.
Qed.

Lemma failedInvocations_le (k : nat) : (RetryRuns.failedInvocations fn k <= k)%nat.
Proof.
  induction k as [|k IH]; [cbn; lia|]. rewrite failedInvocations_S.
  destruct (is_throw (fn (S k))); lia.
Qed.

(** A run that ends with a value counts that invocation among its calls
    and not among the failed ones. *)
Lemma retryLoop_failures random base (remaining : nat) :
  forall attempt last calls_ sleeps_,
    let run := retryLoop fn random n base maxd signal_ remaining attempt last calls_ sleeps_ in
    (RetryRuns.failedInvocations fn (calls run) + (if is_throw (outcome run) then 0 else 1)
       <= calls run)%nat.
Proof.
  induction remaining as [|r IH]; intros attempt last calls_ sleeps_; cbn zeta.
  - cbn [retryLoop calls sleeps outcome is_throw].
    pose proof (failedInvocations_le calls_). lia.
  - pose proof (failedInvocations_S calls_) as HS.
    pose proof (failedInvocations_le calls_) as Hle.
    cbn [retryLoop].
    destruct (aborted signal_ attempt); [cbn [calls sleeps outcome is_throw]; lia|].
    destruct (fn (S calls_)) as [v|error]; cbn [is_throw] in HS;
      [cbn [calls sleeps outcome is_throw]; lia|].
    destruct (attempt =? n); [cbn [calls sleeps outcome is_throw]; lia|].
    destruct (canRetry (getRetryInfo error)); cbn [negb];
      [|cbn [calls sleeps outcome is_throw]; lia].
    apply IH.
Qed.

Lemma retryLoop_calls_mono random base (remaining : nat) :
  forall attempt last calls_ sleeps_,
    (calls_ <= calls (retryLoop fn random n base maxd signal_ remaining attempt last
                        calls_ sleeps_))%nat.
Proof.
  induction remaining as [|r IH]; intros attempt last calls_ sleeps_; cbn [retryLoop];
    [cbn; lia|].
  destruct (aborted signal_ attempt); [cbn; lia|].
  destruct (fn (S calls_)) as [v|error]; [cbn; lia|].
  destruct (attempt =? n); [cbn; lia|].
  destruct (canRetry (getRetryInfo error)); cbn [negb]; [|cbn; lia].
  etransitivity; [|apply IH]. lia.
Qed.

End Loop.

Section Decisive.
Context {T : Type}.
Variable fn : nat -> Completion T.
Variable random : nat -> Q.
Variables (n base maxd : Z).
Variable signal_ : option AbortSignal.
Hypothesis not_aborted : forall attempt, aborted signal_ attempt = false.

(** While the signal is not aborted: after [j] retryable failures the next
    invocation decides, by its value or by an error that is not
    retryable. *)
Lemma retryLoop_decisive (j : nat) :
  forall remaining attempt last calls_ sleeps_,
    (j < remaining)%nat ->
    attempt + Z.of_nat j <= n ->
    (forall i, (calls_ < i <= calls_ + j)%nat ->
               exists e, fn i = Throws e /\ canRetry (getRetryInfo e) = true) ->
    match fn (S (calls_ + j)) with
    | Returns _ => True
    | Throws e => canRetry (getRetryInfo e) = false
    end ->
    let run := retryLoop fn random n base maxd signal_ remaining attempt last calls_ sleeps_ in
    outcome run = fn (S (calls_ + j)) /\
    calls run = S (calls_ + j) /\
    length (sleeps run) = (length sleeps_ + j)%nat.
Proof.
  induction j as [|j IH]; intros remaining attempt last calls_ sleeps_ Hrem Hatt Hfail Hdec;
    (destruct remaining as [|r]; [lia|]); cbn zeta; cbn [retryLoop]; rewrite not_aborted.
  - rewrite Nat.add_0_r in *. destruct (fn (S calls_)) as [v|e]; [cbn; auto|].
    destruct (attempt =? n); [cbn; auto|]. rewrite Hdec. cbn. auto.
  - destruct (Hfail (S calls_) ltac:(lia)) as (e & He & Hretry). rewrite He.
    destruct (Z.eqb_spec attempt n); [lia|]. rewrite Hretry. cbn [negb].
    match goal with |- context [retryLoop _ _ _ _ _ _ r ?a ?l ?c ?s] =>
      destruct (IH r a l c s) as (Ho & Hc & Hs)
    end.
    + lia.
    + lia.
    + intros i Hi. apply Hfail. lia.
    + replace (S calls_ + j)%nat with (calls_ + S j)%nat by lia. exact Hdec.
    + cbn zeta in *. replace (S calls_ + j)%nat with (calls_ + S j)%nat in * by lia.
      rewrite Ho, Hc, Hs, length_app. cbn. repeat split; lia.
Qed.

(** The first iteration: a value or an error that is not retried ends the
    run; after an error that is retried the operation is invoked again. *)
Lemma retryLoop_first (remaining : nat) attempt last calls_ sleeps_ :
  let run := retryLoop fn random n base maxd signal_ (S remaining) attempt last
               calls_ sleeps_ in
  match fn (S calls_) with
  | Returns v => calls run = S calls_ /\ outcome run = Returns v
  | Throws e =>
      if (attempt =? n) || negb (canRetry (getRetryInfo e))
      then calls run = S calls_ /\ outcome run = Throws e
      else (1 <= remaining)%nat -> (S (S calls_) <= calls run)%nat
  end.
Proof.
  cbn zeta. cbn [retryLoop]. rewrite not_aborted.
  destruct (fn (S calls_)) as [v|e]; [cbn; auto|].
  destruct (attempt =? n); cbn [orb]; [cbn; auto|].
  destruct (canRetry (getRetryInfo e)); cbn [negb]; [|cbn; auto].
  intro Hrem. destruct remaining as [|r]; [lia|].
  cbn [retryLoop]. rewrite not_aborted.
  destruct (fn (S (S calls_))) as [v|e2]; [cbn; lia|].
  destruct (attempt + 1 =? n); [cbn; lia|].
  destruct (canRetry (getRetryInfo e2)); cbn [negb]; [|cbn; lia].
  apply retryLoop_calls_mono.
Qed.

(** Every invocation fails with a retryable error: the loop uses all the
    attempts it has and throws the last error. *)
Lemma retryLoop_all_retryable (remaining : nat) :
  forall attempt last calls_ sleeps_,
    (forall i, exists e, fn i = Throws e /\ canRetry (getRetryInfo e) = true) ->
    (0 < remaining)%nat ->
    attempt = n - Z.of_nat remaining + 1 ->
    let run := retryLoop fn random n base maxd signal_ remaining attempt last calls_ sleeps_ in
    calls run = (calls_ + remaining)%nat /\
    outcome run = fn (calls_ + remaining)%nat.
Proof.
  induction remaining as [|r IH]; intros attempt last calls_ sleeps_ failing Hpos Hatt; [lia|].
  cbn zeta. cbn [retryLoop]. rewrite not_aborted.
  destruct (failing (S calls_)) as (e & He & Hretry). rewrite He.
  destruct (Z.eqb_spec attempt n) as [Heq|Hne].
  - assert (r = 0%nat) by lia. subst r. cbn.
    replace (calls_ + 1)%nat with (S calls_) by lia. auto.
  - rewrite Hretry. cbn [negb].
    match goal with |- context [retryLoop _ _ _ _ _ _ r ?a ?l ?c ?s] =>
      destruct (IH a l c s) as [Hc Ho]
    end; [assumption|lia|lia|].
    cbn zeta in Hc, Ho. rewrite Hc, Ho.
    replace (S calls_ + r)%nat with (calls_ + S r)%nat by lia. auto.
Qed.

End Decisive.

(** X1. [fn] is invoked at most [maxAttempts] times, not at all when
    [maxAttempts] is zero or negative; delays are slept at most once for
    each invocation that failed, so that a run that succeeds at its k-th
    invocation has slept at most k-1 times; and no delay exceeds
    [maxDelayMs]. *)
Theorem withRetry_bounds :
  forall (T : Type) (fn : nat -> Completion T) (options : RetryOptions) (random : nat -> Q),
    let run := withRetry fn options random in
    (calls run <= Z.to_nat (default 3%Z (maxAttempts options)))%nat /\
    (length (sleeps run) <= RetryRuns.failedInvocations fn (calls run))%nat /\
    (RetryRuns.failedInvocations fn (calls run) + (if is_throw (outcome run) then 0 else 1)
       <= calls run)%nat /\
    Forall (fun s => (s <= inject_Z (default 30000%Z (maxDelayMs options)))%Q) (sleeps run).
Proof.
  intros T fn options random. unfold withRetry.
  destruct (retryLoop_bounds fn (signal options) (default 3 (maxAttempts options))
              (default 30000 (maxDelayMs options)) random
              (default 1000 (baseDelayMs options))
              (Z.to_nat (default 3%Z (maxAttempts options))) 1 None 0%nat [])
    as (Hc & Hs & Hf); [cbn; lia|constructor|].
  cbn zeta in *. split; [exact Hc|]. split; [exact Hs|]. split; [|exact Hf].
  apply (retryLoop_failures fn (signal options) (default 3 (maxAttempts options))
           (default 30000 (maxDelayMs options)) random (default 1000 (baseDelayMs options))).
Qed.

(** X2. The exponential backoff is never used: every retryable error carries a
    delay of its own, so the run does not depend on [baseDelayMs] or on the
    random numbers. *)
Theorem withRetry_backoff_unused :
  forall (T : Type) (fn : nat -> Completion T) (attempts base base' maxd : option Z)
         (sig : option AbortSignal) (random random' : nat -> Q),
    withRetry fn {| maxAttempts := attempts; baseDelayMs := base; maxDelayMs := maxd;
                    signal := sig |} random =
    withRetry fn {| maxAttempts := attempts; baseDelayMs := base'; maxDelayMs := maxd;
                    signal := sig |} random'.
Proof.
  intros. unfold withRetry. cbn [maxAttempts baseDelayMs maxDelayMs signal].
  apply retryLoop_ignores_backoff.
Qed.

(** X3. Without a signal, the first invocation that succeeds, or fails with an
    error that is not retryable, decides the run when it is within
    [maxAttempts]: the run ends with its completion, after one delay for
    each failure before it. *)
Theorem withRetry_first_decisive :
  forall (T : Type) (fn : nat -> Completion T) (random : nat -> Q) (n : Z)
         (base maxd : option Z) (k : nat),
    (1 <= k)%nat ->
    Z.of_nat k <= n ->
    (forall i, (1 <= i < k)%nat ->
               exists e, fn i = Throws e /\ canRetry (getRetryInfo e) = true) ->
    match fn k with
    | Returns _ => True
    | Throws e => canRetry (getRetryInfo e) = false
    end ->
    let run :=
      withRetry fn {| maxAttempts := Some n; baseDelayMs := base; maxDelayMs := maxd;
                      signal := None |} random in
    outcome run = fn k /\ calls run = k /\ length (sleeps run) = (k - 1)%nat.
Proof.
  intros T fn random n base maxd k Hk Hn Hfail Hdec. unfold withRetry.
  cbn [maxAttempts baseDelayMs maxDelayMs signal default]. unfold id.
  destruct k as [|j]; [lia|].
  destruct (retryLoop_decisive fn random n (default 1000 base) (default 30000 maxd) None
              (fun _ => eq_refl) j (Z.to_nat n) 1 None 0%nat []) as (Ho & Hc & Hs).
  - lia.
  - lia.
  - intros i Hi. apply Hfail. lia.
  - exact Hdec.
  - cbn zeta in *. split; [exact Ho|]. split; [exact Hc|].
    etransitivity; [exact Hs|]. cbn. lia.
Qed.

Lemma withRetry_first_decisive_witness :
  let run := withRetry RetryExamples.secondSucceeds Scenarios.threeAttempts Scenarios.noJitter in
  outcome run = Returns "data"%string /\ calls run = 2%nat /\ length (sleeps run) = 1%nat.
Proof.
  apply (withRetry_first_decisive string RetryExamples.secondSucceeds Scenarios.noJitter 3
           None None 2).
  - lia.
  - lia.
  - intros i Hi. assert (i = 1%nat) as -> by lia. eexists. split; [reflexivity|].
    vm_compute. reflexivity.
  - exact I.
Defined.

End RetryLoopFacts.

(** ** The errors of the factory *)

Module ErrorFacts.
Import Js Errors.

Lemma fromHttpStatus_canRetry (s : Z) (body : ResponseBody) :
  canRetry (getRetryInfo (ThrownError (fromHttpStatus s body))) = (s =? 429) || (500 <=? s).
Proof.
  unfold fromHttpStatus.
  destruct (Z.eqb_spec s 400) as [->|]; [reflexivity|].
  destruct (Z.eqb_spec s 401) as [->|]; [reflexivity|].
  destruct (Z.eqb_spec s 404) as [->|]; [reflexivity|].
  destruct (Z.eqb_spec s 429) as [->|]; reflexivity.
Qed.

(** X4. The error built for a response is an API error that carries the status
    of the response, and [getRetryInfo] lets it be retried exactly for 429
    and for 500 and above. *)
Theorem fromHttpStatus_retry_policy :
  forall (s : Z) (body : ResponseBody),
    status (fromHttpStatus s body) = Some s /\
    isWhoopAPIError (ThrownError (fromHttpStatus s body)) = true /\
    canRetry (getRetryInfo (ThrownError (fromHttpStatus s body))) =
      (s =? 429) || (500 <=? s).
Proof.
  intros s body. split; [|split; [|apply fromHttpStatus_canRetry]]; unfold fromHttpStatus;
    (destruct (Z.eqb_spec s 400) as [->|]; [reflexivity|]);
    (destruct (Z.eqb_spec s 401) as [->|]; [reflexivity|]);
    (destruct (Z.eqb_spec s 404) as [->|]; [reflexivity|]);
    (destruct (Z.eqb_spec s 429) as [->|]; reflexivity).
Qed.

End ErrorFacts.

(** ** Cache and deduplication keys *)

Module KeyHashFacts.
Import Js Errors KeyHash.

Lemma toInt32_range z : - 2 ^ 31 <= toInt32 z < 2 ^ 31.
Proof.
  unfold toInt32. pose proof (Z.mod_pos_bound (z + 2 ^ 31) (2 ^ 32) ltac:(lia)). lia.
Qed.

(** [toInt32] depends on its argument modulo 2^32 only. *)
Lemma toInt32_congr a b : (a - b) mod 2 ^ 32 = 0 -> toInt32 a = toInt32 b.
Proof.
  intro Hab. unfold toInt32. f_equal.
  apply Z.mod_divide in Hab; [|lia]. destruct Hab as [q Hq].
  replace (a + 2 ^ 31) with (b + 2 ^ 31 + q * 2 ^ 32) by lia.
  apply Z.mod_add. lia.
Qed.

Lemma toInt32_diff z : (toInt32 z - z) mod 2 ^ 32 = 0.
Proof.
  unfold toInt32. rewrite (Z.mod_eq (z + 2 ^ 31) (2 ^ 32)) by lia.
  replace (z + 2 ^ 31 - 2 ^ 32 * ((z + 2 ^ 31) / 2 ^ 32) - 2 ^ 31 - z)
    with (- ((z + 2 ^ 31) / 2 ^ 32) * 2 ^ 32) by lia.
  apply Z.mod_mul. lia.
Qed.

Lemma toInt32_idem z : toInt32 (toInt32 z) = toInt32 z.
Proof. apply toInt32_congr, toInt32_diff. Qed.

(** One step of the loop multiplies by 31 and adds the character code,
    modulo 2^32. *)
Lemma hashStep_poly h a c :
  h = toInt32 a -> hashStep h c = toInt32 (31 * a + charCode c).
Proof.
  intros ->. unfold hashStep, and32, shiftLeft32. cbn zeta.
  rewrite Z.land_diag, !toInt32_idem.
  change (5 mod 32) with 5. rewrite Z.shiftl_mul_pow2 by lia.
  apply toInt32_congr.
  pose proof (toInt32_diff (toInt32 a * 2 ^ 5)) as H1.
  pose proof (toInt32_diff a) as H2.
  apply Z.mod_divide in H1, H2; try lia. destruct H1 as [q1 H1], H2 as [q2 H2].
  apply Z.mod_divide; [lia|]. exists (q1 + 31 * q2). lia.
Qed.

Lemma hashLoop_poly str :
  forall h a, h = toInt32 a -> hashLoop str h = toInt32 (poly31 str a).
Proof.
  induction str as [|c str IH]; intros h a Hh; cbn; [exact Hh|].
  apply IH. now apply hashStep_poly.
Qed.

(** X5. The number that [simpleHash] renders is the polynomial of the character
    codes in 31, wrapped to a signed 32-bit integer. *)
Theorem simpleHash_polynomial :
  forall str : string,
    hashLoop str 0 = toInt32 (poly31 str 0) /\
    simpleHash str = toString36 (Z.abs (toInt32 (poly31 str 0))) /\
    0 <= Z.abs (hashLoop str 0) <= 2 ^ 31.
Proof.
  intro str. assert (Hh : hashLoop str 0 = toInt32 (poly31 str 0)).
  { apply hashLoop_poly. reflexivity. }
  split; [exact Hh|]. split; [unfold simpleHash; now rewrite Hh|].
  rewrite Hh. pose proof (toInt32_range (poly31 str 0)). lia.
Qed.

Lemma append_cons c (s1 s2 : string) : (String c s1 ++ s2)%string = String c (s1 ++ s2).
Proof. reflexivity. Qed.

Lemma poly31_app (s1 s2 : string) acc : poly31 (s1 ++ s2) acc = poly31 s2 (poly31 s1 acc).
Proof.
  revert acc. induction s1 as [|c s1 IH]; intro acc; [reflexivity|].
  rewrite append_cons. cbn [poly31]. apply IH.
Qed.

Lemma append_assoc (s1 s2 s3 : string) : ((s1 ++ s2) ++ s3)%string = (s1 ++ (s2 ++ s3))%string.
Proof.
  induction s1 as [|c s1 IH]; [reflexivity|]. rewrite !append_cons. now rewrite IH.
Qed.

Lemma simpleHash_pair_collision (p s : string) (a b a' b' : Ascii.ascii) :
  31 * charCode a + charCode b = 31 * charCode a' + charCode b' ->
  simpleHash (p ++ String a (String b s)) = simpleHash (p ++ String a' (String b' s)).
Proof.
  intro Heq. unfold simpleHash.
  rewrite !(hashLoop_poly _ 0 0 eq_refl), !poly31_app. cbn [poly31].
  replace (31 * (31 * poly31 p 0 + charCode a) + charCode b)
    with (31 * (31 * poly31 p 0 + charCode a') + charCode b') by lia.
  reflexivity.
Qed.

Section Keys.
Context {V : Type} `{Cache.JsRuntime V}.
Variable truthy : V -> bool.

(** X6. Cache keys collide: two URLs that differ in two adjacent characters
    [a b] and [a' b'] with [31 a + b = 31 a' + b'] (as "Aa" and "BB") get
    the same key, for every method and every parameter object. *)
Theorem cache_key_collision :
  forall (method u v : string) (a b a' b' : Ascii.ascii) (params : V),
    31 * charCode a + charCode b = 31 * charCode a' + charCode b' ->
    generateCacheKey truthy method (u ++ String a (String b v)) params =
    generateCacheKey truthy method (u ++ String a' (String b' v)) params.
Proof.
  intros method u v a b a' b' params Heq. unfold generateCacheKey.
  assert (Hkey : forall paramString : string,
    simpleHash (method ++ ":" ++ (u ++ String a (String b v)) ++ ":" ++ paramString) =
    simpleHash (method ++ ":" ++ (u ++ String a' (String b' v)) ++ ":" ++ paramString)).
  { intro ps.
    replace (method ++ ":" ++ (u ++ String a (String b v)) ++ ":" ++ ps)%string
      with ((method ++ ":" ++ u) ++ String a (String b (v ++ ":" ++ ps)))%string
      by (rewrite !append_assoc; reflexivity).
    replace (method ++ ":" ++ (u ++ String a' (String b' v)) ++ ":" ++ ps)%string
      with ((method ++ ":" ++ u) ++ String a' (String b' (v ++ ":" ++ ps)))%string
      by (rewrite !append_assoc; reflexivity).
    now apply simpleHash_pair_collision. }
  destruct (truthy params); [|now rewrite Hkey].
  destruct (Cache.JSON_stringify params) as [s|t]; [|reflexivity].
  now rewrite Hkey.
Qed.

End Keys.

Import JsValues.

Lemma cache_key_collision_witness :
  generateCacheKey truthy_value "GET" "https://api.prod.whoop.com/v1/Aa" JsValues.JUndefined =
  generateCacheKey truthy_value "GET" "https://api.prod.whoop.com/v1/BB" JsValues.JUndefined.
Proof.
  exact (cache_key_collision truthy_value "GET" "https://api.prod.whoop.com/v1/" ""
           (Ascii.ascii_of_nat 65) (Ascii.ascii_of_nat 97)
           (Ascii.ascii_of_nat 66) (Ascii.ascii_of_nat 66) JsValues.JUndefined eq_refl).
Defined.

End KeyHashFacts.

(** ** Request batching *)

Module BatchingFacts.
Import Js Errors Batching.

Lemma insert_after (x : BatchRequest) (front rest : list BatchRequest) :
  Forall (fun y => priorityOrder (priority y) < priorityOrder (priority x)) front ->
  insertByPriority x (front ++ rest) = front ++ insertByPriority x rest.
Proof.
  induction 1 as [|y front Hy _ IH]; cbn; [reflexivity|].
  destruct (Z.ltb_spec (priorityOrder (priority y) - priorityOrder (priority x)) 0); [|lia].
  now rewrite IH.
Qed.

Lemma insert_before (x : BatchRequest) (rest : list BatchRequest) :
  Forall (fun y => priorityOrder (priority x) <= priorityOrder (priority y)) rest ->
  insertByPriority x rest = x :: rest.
Proof.
  destruct 1 as [|y rest Hy _]; cbn; [reflexivity|].
  destruct (Z.ltb_spec (priorityOrder (priority y) - priorityOrder (priority x)) 0);
    [lia|reflexivity].
Qed.

Lemma withPriority_order p l :
  Forall (fun y => priorityOrder (priority y) = priorityOrder p) (withPriority p l).
Proof.
  apply List.Forall_forall. intros y Hy. apply List.filter_In in Hy as [_ Hy].
  now apply Z.eqb_eq in Hy.
Qed.

(** X7. [processBatch] takes the requests up by priority: the high ones, then
    the normal ones, then the low ones, each group in its order of
    arrival. *)
Theorem sortByPriority_groups :
  forall batch : list BatchRequest,
    sortByPriority batch =
    withPriority High batch ++ withPriority Normal batch ++ withPriority Low batch.
Proof.
  induction batch as [|x batch IH]; [reflexivity|].
  cbn [sortByPriority fold_right]. fold (sortByPriority batch). rewrite IH.
  pose proof (withPriority_order High batch) as HH.
  pose proof (withPriority_order Normal batch) as HN.
  pose proof (withPriority_order Low batch) as HL.
  unfold withPriority at 4 5 6. cbn [List.filter].
  fold (withPriority High batch) (withPriority Normal batch) (withPriority Low batch).
  destruct (priority x) eqn:Hp; cbn [priorityOrder Z.eqb].
  - apply insert_before. rewrite Hp. cbn [priorityOrder].
    rewrite !Forall_app. repeat split;
      (eapply Forall_impl; [eassumption|]); cbn; intros y ->; cbn; lia.
  - rewrite insert_after.
    + f_equal. apply insert_before. rewrite Hp. cbn [priorityOrder].
      rewrite !Forall_app. split;
        (eapply Forall_impl; [eassumption|]); cbn; intros y ->; cbn; lia.
    + rewrite Hp. eapply Forall_impl; [exact HH|]. cbn. intros y ->. cbn. lia.
  - rewrite insert_after.
    + f_equal. rewrite insert_after.
      * f_equal. apply insert_before. rewrite Hp.
        eapply Forall_impl; [exact HL|]. cbn. intros y ->. cbn. lia.
      * rewrite Hp. eapply Forall_impl; [exact HN|]. cbn. intros y ->. cbn. lia.
    + rewrite Hp. eapply Forall_impl; [exact HH|]. cbn. intros y ->. cbn. lia.
Qed.

(** X8. A request queued under another key while the timer is armed is not
    taken up when the timer fires: it stays in its queue, and no timer is
    armed any more. *)
Theorem batch_timer_serves_one_key :
  forall (b : Batcher) (armed batchKey url_ : string) (p : Priority) (now : Z),
    batchTimer b = Some armed ->
    armed <> batchKey ->
    let b2 := timerFires (snd (executeBatch batchKey url_ p now b)) in
    let request := {| call := nextCall b; url := url_; timestamp := now; priority := p |} in
    batchTimer b2 = None /\
    batchQueue b2 !! batchKey = Some (default [] (batchQueue b !! batchKey) ++ [request]) /\
    fetched b2 = fetched b ++ sortByPriority (default [] (batchQueue b !! armed)).
Proof.
  intros b armed batchKey url_ p now Harmed Hne. cbn zeta.
  assert (E : snd (executeBatch batchKey url_ p now b) =
              {| batchQueue :=
                   <[batchKey := default [] (batchQueue b !! batchKey) ++
                                 [{| call := nextCall b; url := url_; timestamp := now;
                                     priority := p |}]]> (batchQueue b);
                 batchTimer := Some armed; batchedRequests := batchedRequests b;
                 fetched := fetched b; nextCall := S (nextCall b) |}).
  { unfold executeBatch, scheduleBatchProcessing. cbn. now rewrite Harmed. }
  rewrite E. unfold timerFires, processBatch. cbn [batchTimer batchQueue].
  rewrite lookup_insert_ne by congruence.
  destruct (batchQueue b !! armed) as [[|r batch]|] eqn:Hq; cbn;
    rewrite ?lookup_delete_ne by congruence; rewrite lookup_insert_eq, ?app_nil_r; auto.
Qed.

Lemma batch_timer_serves_one_key_witness :
  let b := snd (executeBatch "cycles" "/cycle/1" Normal 0 new_Batcher) in
  let b2 := timerFires (snd (executeBatch "sleep" "/sleep/1" High 10 b)) in
  batchTimer b2 = None /\
  batchQueue b2 !! "sleep"%string =
    Some [{| call := 1; url := "/sleep/1"; timestamp := 10; priority := High |}] /\
  List.map call (fetched b2) = [0%nat].
Proof.
  destruct (batch_timer_serves_one_key
              (snd (executeBatch "cycles" "/cycle/1" Normal 0 new_Batcher))
              "cycles" "sleep" "/sleep/1" High 10 eq_refl ltac:(discriminate))
    as (Ht & Hq & Hf).
  cbn zeta. split; [exact Ht|]. split; [exact Hq|]. rewrite Hf. reflexivity.
Defined.

End BatchingFacts.

(** ** The HTTP client: requests, retries, construction *)

Module ClientFacts.
Import Js Errors OAuth Http Client OAuthFlows.

(** [handleResponse] throws nothing but the error it built from the
    response. *)
Lemma handleResponse_throws response o h t h2 :
  handleResponse response o h = Some (Throws t, h2) ->
  ok response = false /\
  t = ThrownError (fromHttpStatus (r_status response) (parseBody response)).
Proof.
  unfold handleResponse. destruct (ok response); cbn [negb]; [discriminate|].
  intro Hh. split; [reflexivity|].
  destruct (oauthClient h) as [w|]; [|now injection Hh as <- _].
  destruct (isAuthError _ && bool_decide _); [|now injection Hh as <- _].
  destruct (refreshAccessToken None ReturnTokens w) as [call w1].
  destruct (awaitCall call o w1) as [[[[newTokens|s]|e] w2]|]; try discriminate.
  - destruct (onTokenRefresh h) as [hook|]; [destruct (hook newTokens)|];
      now injection Hh as <- _.
  - now injection Hh as <- _.
Qed.

Lemma handleResponse_not_ok response o h r h2 :
  ok response = false ->
  handleResponse response o h = Some (r, h2) ->
  r = Throws (ThrownError (fromHttpStatus (r_status response) (parseBody response))).
Proof.
  intros Hok Hh. destruct r as [v|t].
  - unfold handleResponse in Hh. rewrite Hok in Hh. cbn [negb] in Hh.
    destruct (oauthClient h) as [w|]; [|discriminate].
    destruct (isAuthError _ && bool_decide _); [|discriminate].
    destruct (refreshAccessToken None ReturnTokens w) as [call w1].
    destruct (awaitCall call o w1) as [[[[newTokens|s]|e] w2]|]; try discriminate.
    destruct (onTokenRefresh h) as [hook|]; [destruct (hook newTokens)|]; discriminate.
  - now destruct (handleResponse_throws _ _ _ _ _ Hh) as [_ ->].
Qed.

(** The rejections of [performRequest]: before the [try] block, or out of
    its [catch]. *)
Lemma performRequest_throws_inv method body headers env h t h' authorization :
  performRequest method body headers env h = Some (Throws t, h', authorization) ->
  prepareBody method body = Some t \/
  (prepareBody method body = None /\
   ((env_aborted env = true /\
     t = ThrownError (new_WhoopTimeoutError "Request timeout")) \/
    (env_aborted env = false /\
     ((env_fetch env = Throws ThrownUndefined /\
       t = ThrownError (new_TypeError "Cannot read properties of undefined")) \/
      (exists e, env_fetch env = Throws (ThrownError e) /\
                 t = ThrownError (fromNetworkError e)) \/
      (exists response,
         env_fetch env = Returns response /\ ok response = false /\
         t = ThrownError
               (fromNetworkError
                  (fromHttpStatus (r_status response) (parseBody response)))))))).
Proof.
  unfold performRequest.
  destruct (getAccessToken _ _ _ h) as [[accessToken h1]|]; [|discriminate].
  destruct (prepareBody method body) as [thrown|] eqn:Hprep.
  - intros [= <- _ _]. left. reflexivity.
  - intro Hp. right. split; [reflexivity|].
    destruct (env_fetch env) as [response|thrown] eqn:Hfetch.
    + destruct (handleResponse response (env_refreshFetch env) h1)
        as [[[v|error] h2]|] eqn:Hh; try discriminate.
      destruct (handleResponse_throws _ _ _ _ _ Hh) as [Hok ->].
      destruct (env_aborted env); injection Hp as <- _ _; [left; auto|].
      right. split; [reflexivity|]. right. right. eauto.
    + destruct (env_aborted env); [injection Hp as <- _ _; left; auto|].
      right. split; [reflexivity|].
      destruct thrown as [|e]; injection Hp as <- _ _; [left; auto|right; left; eauto].
Qed.



(** X10. [request] retries error responses: the statuses 400, 401, 403, 404 and
    the like, which [getRetryInfo] would not retry as API errors, arrive as
    network errors, so that [performRequest] runs [retries] times and the
    last network error is thrown. *)
Theorem request_retries_error_responses :
  forall (method : string) (retries : Z) (attempt : nat -> Completion ResponseBody)
         (random : nat -> Q),
    1 <= retries ->
    (forall i, exists headers env h h' authorization response,
        performRequest method NoBody headers env h = Some (attempt i, h', authorization) /\
        env_fetch env = Returns response /\ ok response = false /\
        env_aborted env = false) ->
    let run := request (Some retries) None attempt random in
    Retry.calls run = Z.to_nat retries /\
    exists e, Retry.outcome run = Throws (ThrownError e) /\ cls e = WhoopNetworkError.
Proof.
  intros method retries attempt random Hretries Hattempts. cbn zeta.
  assert (Hfail : forall i, exists e,
             attempt i = Throws (ThrownError (fromNetworkError e))).
  { intro i.
    destruct (Hattempts i) as (headers & env & h & h' & a & response & Hp & Hf & Hok & Hab).
    destruct (attempt i) as [v|t] eqn:Hatt.
    - exfalso. unfold performRequest in Hp.
      destruct (getAccessToken _ _ _ h) as [[accessToken h1]|]; [|discriminate].
      cbn [prepareBody] in Hp. rewrite Hf in Hp.
      destruct (handleResponse response (env_refreshFetch env) h1) as [[r h2]|] eqn:Hh;
        [|discriminate].
      rewrite (handleResponse_not_ok _ _ _ _ _ Hok Hh) in Hp.
      destruct (env_aborted env); discriminate.
    - destruct (performRequest_throws_inv _ _ _ _ _ _ _ _ Hp)
        as [Hprep|(_ & [(Hab' & _)|(_ & [(Hf' & _)|[(e & Hf' & _)|(resp & _ & _ & ->)]])])];
        try discriminate; try congruence. eauto. }
  unfold request, Retry.withRetry. cbn [Retry.maxAttempts Retry.signal default]. unfold id.
  assert (Htruthy : truthy_number retries = true).
  { unfold truthy_number. apply negb_true_iff, Z.eqb_neq. lia. }
  rewrite Htruthy.
  destruct (RetryLoopFacts.retryLoop_all_retryable attempt random retries 1000 30000 None
              (fun _ => eq_refl) (Z.to_nat retries) 1 None 0%nat [])
    as [Hc Ho]; [|lia|lia|].
  { intro i. destruct (Hfail i) as (e & ->). eexists. split; reflexivity. }
  cbn zeta in Hc, Ho. split; [exact Hc|].
  destruct (Hfail (0 + Z.to_nat retries)%nat) as (e & He).
  exists (fromNetworkError e). split; [|reflexivity].
  etransitivity; [exact Ho|exact He].
Qed.

Lemma request_retries_error_responses_witness :
  let run := request (Some 3) None ClientExamples.notFoundAttempt Scenarios.noJitter in
  Retry.calls run = 3%nat /\
  exists e, Retry.outcome run = Throws (ThrownError e) /\ cls e = WhoopNetworkError.
Proof.
  apply (request_retries_error_responses "GET" 3 ClientExamples.notFoundAttempt Scenarios.noJitter).
  - lia.
  - intro i. exists [], ClientExamples.notFoundExchange, ClientExamples.plainClient,
      ClientExamples.plainClient, None, ClientExamples.notFound. repeat split; reflexivity.
Defined.

(** A client without tokens stays without tokens, and sets no
    Authorization header. *)
Lemma getAccessToken_without_tokens now1 now2 o h :
  Client.getTokens h = None ->
  exists h1, getAccessToken now1 now2 o h = Some (None, h1) /\ Client.getTokens h1 = None.
Proof.
  unfold Client.getTokens, getAccessToken. destruct (oauthClient h) as [w|] eqn:Hw.
  - unfold OAuth.getTokens. intro Htok. unfold getValidAccessToken. rewrite Htok.
    unfold awaitCall, settle_call. cbn [results]. rewrite lookup_insert_eq.
    eexists. split; [reflexivity|]. cbn. exact Htok.
  - intros _. exists h. split; [reflexivity|]. now rewrite Hw.
Qed.

Lemma handleResponse_without_tokens response o h :
  Client.getTokens h = None ->
  exists r h2, handleResponse response o h = Some (r, h2) /\ Client.getTokens h2 = None.
Proof.
  intro Htok. unfold handleResponse. destruct (negb (ok response)); [|eauto].
  destruct (oauthClient h) as [w|] eqn:Hw; [|eauto].
  destruct (isAuthError _ && bool_decide _); [|eauto].
  unfold Client.getTokens in Htok. rewrite Hw in Htok. unfold OAuth.getTokens in Htok.
  unfold refreshAccessToken, or_else_string. rewrite Htok.
  unfold awaitCall, settle_call. cbn [results]. rewrite lookup_insert_eq.
  eexists _, _. split; [reflexivity|]. reflexivity.
Qed.

Lemma performRequest_without_tokens method body headers env h :
  Client.getTokens h = None ->
  exists r h',
    performRequest method body headers env h =
      Some (r, h', map_get "Authorization" headers) /\
    Client.getTokens h' = None.
Proof.
  intro Htok. unfold performRequest.
  destruct (getAccessToken_without_tokens (env_now1 env) (env_now2 env)
              (env_tokenFetch env) h Htok) as (h1 & -> & Htok1).
  destruct (prepareBody method body); [eauto|].
  destruct (env_fetch env) as [response|thrown].
  - destruct (handleResponse_without_tokens response (env_refreshFetch env) h1 Htok1)
      as (r & h2 & -> & Htok2).
    destruct r as [v|error]; [eauto|].
    destruct (env_aborted env); [eauto|]. destruct error; eauto.
  - destruct (env_aborted env); [eauto|]. destruct thrown; eauto.
Qed.

Lemma performAll_without_tokens (calls_ : list RequestCall) :
  forall h, Client.getTokens h = None ->
    exists h',
      performAll calls_ h =
        Some (List.map (fun c => map_get "Authorization" (rc_headers c)) calls_, h') /\
      Client.getTokens h' = None.
Proof.
  induction calls_ as [|c calls_ IH]; intros h Htok; cbn [performAll List.map]; [eauto|].
  destruct (performRequest_without_tokens (rc_method c) (rc_body c) (rc_headers c)
              (rc_env c) h Htok) as (r & h1 & -> & Htok1).
  destruct (IH h1 Htok1) as (h2 & -> & Htok2). eauto.
Qed.

Section Construction.
Variable validUrl : string -> bool.

(** X11. An access token given without a refresh token is not used: the client
    that [createWhoopSDKWithToken] builds stores no token set, is not
    authenticated at any time, and sets no Authorization header: in every
    sequence of requests that it performs, the [Authorization] property of
    the headers prepared for [fetch] is the one of the caller's headers, if
    any, and the client ends without tokens. *)
Theorem access_token_alone_is_not_sent :
  forall (accessToken_ : string) (refreshToken_ : option string)
         (oauth_ : option OAuthConfigInput)
         (hook : option (OAuthTokens -> Completion unit)) (h : WhoopHttpClient),
    truthy_option refreshToken_ = false ->
    createWhoopSDKWithToken validUrl accessToken_ refreshToken_ oauth_ hook = Returns h ->
    Client.getTokens h = None /\
    (forall now1 now2, isAuthenticated now1 now2 h = false) /\
    forall calls_ : list RequestCall,
      exists h',
        performAll calls_ h =
          Some (List.map (fun c => map_get "Authorization" (rc_headers c)) calls_, h') /\
        Client.getTokens h' = None.
Proof.
  intros accessToken_ refreshToken_ oauth_ hook h Hrt Hh.
  unfold createWhoopSDKWithToken, new_WhoopHttpClient in Hh.
  cbn [accessToken refreshToken oauth sdk_onTokenRefresh] in Hh.
  rewrite Hrt in Hh. cbn [truthy_option] in Hh. rewrite andb_false_r in Hh.
  assert (Htok : Client.getTokens h = None).
  { destruct oauth_ as [o|]; [|injection Hh as <-; reflexivity].
    unfold new_WhoopOAuthClient in Hh.
    repeat match type of Hh with
           | context [if ?b then _ else _] => destruct b; [discriminate|]
           end.
    injection Hh as <-. reflexivity. }
  split; [exact Htok|]. split.
  - intros now1 now2. unfold isAuthenticated. unfold Client.getTokens in Htok.
    destruct (oauthClient h) as [w|]; [|reflexivity]. now rewrite Htok.
  - intro calls_. now apply performAll_without_tokens.
Qed.

End Construction.

Lemma access_token_alone_is_not_sent_witness :
  exists h,
    createWhoopSDKWithToken ClientExamples.anyUrl "at-1" None (Some ClientExamples.sdkOAuth) None =
      Returns h /\
    Client.getTokens h = None /\
    isAuthenticated 0 7200000 h = false /\
    exists h',
      performAll [ClientExamples.plainGet; ClientExamples.signedPost] h =
        Some ([None; Some "Bearer own"%string], h').
Proof.
  eexists. split; [reflexivity|].
  destruct (access_token_alone_is_not_sent ClientExamples.anyUrl "at-1" None
              (Some ClientExamples.sdkOAuth) None _ eq_refl eq_refl) as (Htok & Hauth & Hsend).
  split; [exact Htok|]. split; [apply Hauth|].
  destruct (Hsend [ClientExamples.plainGet; ClientExamples.signedPost]) as (h' & Hall & _).
  exists h'. exact Hall.
Defined.

End ClientFacts.

(** ** Token exchange, revocation and the authorization callback *)

Module OAuthFlowFacts.
Import Js Errors OAuth OAuthFlows.

(** X12. [revokeToken] forgets the stored tokens exactly when its request
    succeeded and carried the stored access token; a failed revocation, and
    the revocation of any other token (the refresh token, say), leave the
    token set in place. The configuration and a pending refresh are never
    touched. *)
Theorem revokeToken_forgets_current_only :
  forall (token : option string) (o : RevokeOutcome) (c : WhoopOAuthClient),
    let '(sent_, r, c') := revokeToken token o c in
    config c' = config c /\ refreshPromise c' = refreshPromise c /\
    tokens c' =
      (if negb (is_throw r) && bool_decide (sent_ = option_map access_token (tokens c))
       then None else tokens c) /\
    (sent_ = None -> is_throw r = true) /\
    (forall s, sent_ = Some s -> truthy_string s = true).
Proof.
  intros token o c. unfold revokeToken, revokedCurrent, or_else_string.
  assert (Hdec : forall (x : string) (y : option string),
             bool_decide (Some x = y) =
             match y with Some y => String.eqb x y | None => false end).
  { intros x [y|].
    - destruct (String.eqb_spec x y) as [->|Hne].
      + now apply bool_decide_eq_true_2.
      + apply bool_decide_eq_false_2. congruence.
    - now apply bool_decide_eq_false_2. }
  destruct token as [t|]; [destruct (truthy_string t) eqn:Ht|].
  - cbn [negb]. rewrite Ht. cbn [negb].
    destruct o as [error|[|] data]; cbn [negb].
    + repeat split; try discriminate.
      * destruct (cls error); reflexivity.
      * intros s [= <-]. exact Ht.
    + rewrite orb_false_r. cbn [is_throw negb andb]. rewrite Hdec.
      destruct (tokens c) as [stored|] eqn:Hst; cbn [option_map];
        [destruct (String.eqb t (access_token stored))|];
        cbn [with_tokens config tokens refreshPromise]; rewrite ?Hst;
        repeat split; try discriminate; intros s [= <-]; exact Ht.
    + repeat split; try discriminate. intros s [= <-]. exact Ht.
  - destruct (tokens c) as [stored|] eqn:Hst; [|repeat split; try discriminate; now rewrite Hst].
    destruct (truthy_string (access_token stored)) eqn:Ha; cbn [negb];
      [|repeat split; try discriminate; now rewrite Hst].
    destruct o as [error|[|] data]; cbn [negb].
    + repeat split; try discriminate; rewrite ?Hst.
      * destruct (cls error); reflexivity.
      * intros s [= <-]. exact Ha.
    + rewrite orb_true_r. repeat split; try discriminate.
      * cbn [is_throw negb andb]. rewrite Hdec. cbn [option_map]. now rewrite String.eqb_refl.
      * intros s [= <-]. exact Ha.
    + repeat split; try discriminate; rewrite ?Hst; auto. intros s [= <-]. exact Ha.
  - destruct (tokens c) as [stored|] eqn:Hst; [|repeat split; try discriminate; now rewrite Hst].
    destruct (truthy_string (access_token stored)) eqn:Ha; cbn [negb];
      [|repeat split; try discriminate; now rewrite Hst].
    destruct o as [error|[|] data]; cbn [negb].
    + repeat split; try discriminate; rewrite ?Hst.
      * destruct (cls error); reflexivity.
      * intros s [= <-]. exact Ha.
    + repeat split; try discriminate.
      * cbn [is_throw negb andb]. rewrite Hdec. cbn [option_map]. now rewrite String.eqb_refl.
      * intros s [= <-]. exact Ha.
    + repeat split; try discriminate; rewrite ?Hst; auto. intros s [= <-]. exact Ha.
Qed.

(** X13. After a token exchange that succeeded, [getValidAccessToken] works
    with the tokens of the response: it resolves with the access token
    without a request while the token is not expired; once it is, it sends
    the refresh token of the response, and when the response had none it
    rejects without a request. *)
Theorem exchanged_tokens_are_used :
  forall (data : TokenData) (w : World) (now1 now2 : Z),
    refreshPromise (client w) = None ->
    let c' := snd (exchangeCodeForTokens (FetchResponds true data) (client w)) in
    let call := fst (getValidAccessToken now1 now2 (with_client c' w)) in
    let w2 := snd (getValidAccessToken now1 now2 (with_client c' w)) in
    if isTokenExpired now1 now2 None c' then
      match d_refresh_token data with
      | Some rt =>
          if truthy_string rt then
            call = nextCall w /\ log w2 = log w ++ [EvRefreshCall call; EvFetch rt]
          else
            results w2 !! call =
              Some (Throws (ThrownError (new_WhoopAuthError "No refresh token available" None))) /\
            log w2 = log w ++ [EvRefreshCall call]
      | None =>
          results w2 !! call =
            Some (Throws (ThrownError (new_WhoopAuthError "No refresh token available" None))) /\
          log w2 = log w ++ [EvRefreshCall call]
      end
    else
      results w2 !! call = Some (Returns (VString (d_access_token data))) /\ log w2 = log w.
Proof.
  intros data w now1 now2 Hidle. cbn zeta.
  unfold exchangeCodeForTokens, with_tokens. cbn [negb snd].
  unfold getValidAccessToken, with_client. cbn [client tokens].
  match goal with |- context [isTokenExpired now1 now2 None ?c] =>
    change (isTokenExpired now1 now2 None c)
      with (isTokenExpired now1 now2 (tokens c) c)
  end.
  cbn [tokens].
  destruct (isTokenExpired _ _ _ _).
  - unfold refreshAccessToken, or_else_string, settle_call.
    cbn [client tokens refresh_token refreshPromise nextCall results log config].
    rewrite Hidle.
    destruct (d_refresh_token data) as [rt|]; cbn [default]; unfold id.
    + destruct (truthy_string rt) eqn:Hrt.
      * cbn [fst snd log results]. now rewrite <- app_assoc.
      * cbn [fst snd results log]. now rewrite lookup_insert_eq.
    + cbn. now rewrite lookup_insert_eq.
  - unfold settle_call. cbn [fst snd results log]. now rewrite lookup_insert_eq.
Qed.

Lemma exchanged_tokens_are_used_witness :
  let w := new_World Scenarios.oauthConfig in
  let c' := snd (exchangeCodeForTokens (FetchResponds true ClientExamples.issuedData) (client w)) in
  let w2 := snd (getValidAccessToken 0 0 (with_client c' w)) in
  results w2 !! 0%nat = Some (Returns (VString "at-9")) /\ log w2 = [].
Proof.
  exact (exchanged_tokens_are_used ClientExamples.issuedData (new_World Scenarios.oauthConfig) 0 0
           eq_refl).
Defined.

(** X14. [validateAuthorizationCallback] returns exactly when the URL parses,
    carries no [error] parameter, carries a [code], and its [state] equals
    the expected one; an empty expected state switches the comparison off.
    The code returned is the first [code] parameter of the URL. *)
Theorem validateAuthorizationCallback_accepts :
  forall (parsed : option (list (string * string))) (expectedState : option string)
         (a : Authorization),
    validateAuthorizationCallback parsed expectedState = Returns a <->
    exists params,
      parsed = Some params /\
      if_truthy (params_get "error" params) = None /\
      if_truthy (params_get "code" params) = Some (auth_code a) /\
      auth_state a = if_truthy (params_get "state" params) /\
      (forall expected, if_truthy expectedState = Some expected ->
                        params_get "state" params = Some expected).
Proof.
  intros parsed expectedState a. unfold validateAuthorizationCallback, parseAuthorizationCallback.
  assert (Hidem : forall v, if_truthy (if_truthy v) = if_truthy v).
  { intros [s|]; [|reflexivity]. cbn. destruct (truthy_string s) eqn:Hs; [|reflexivity].
    cbn. now rewrite Hs. }
  destruct parsed as [params|]; [|split; [discriminate|intros (p & [=] & _)]].
  cbn [cb_error cb_code cb_state cb_errorDescription]. rewrite !Hidem.
  destruct (if_truthy (params_get "error" params)) as [err|] eqn:Herr.
  { split; [discriminate|]. intros (p & [= <-] & He & _). congruence. }
  destruct (if_truthy (params_get "code" params)) as [code_|] eqn:Hcode.
  2:{ split; [discriminate|]. intros (p & [= <-] & _ & Hc & _). congruence. }
  assert (Hstate : forall expected,
             if_truthy expectedState = Some expected ->
             (match if_truthy (params_get "state" params) with
              | Some s => String.eqb s expected
              | None => false
              end = true <-> params_get "state" params = Some expected)).
  { intros expected Hexp.
    assert (Htr : truthy_string expected = true).
    { destruct expectedState as [e|]; [|discriminate]. cbn in Hexp.
      destruct (truthy_string e) eqn:He; [|discriminate]. now injection Hexp as <-. }
    destruct (params_get "state" params) as [s|]; cbn; [|split; discriminate].
    destruct (truthy_string s) eqn:Hs.
    - destruct (String.eqb_spec s expected); split; congruence.
    - split; [discriminate|]. intros [= ->]. congruence. }
  destruct (if_truthy expectedState) as [expected|] eqn:Hexp.
  - destruct (match if_truthy (params_get "state" params) with
              | Some s => String.eqb s expected
              | None => false
              end) eqn:Hm; cbn [negb].
    + split.
      * intros [= <-]. exists params. cbn. repeat split; auto.
        intros e [= <-]. now apply Hstate.
      * intros (p & [= <-] & _ & Hc & Hs & _). rewrite Hcode in Hc. injection Hc as ->.
        destruct a; cbn in *. now subst.
    + split; [discriminate|]. intros (p & [= <-] & _ & _ & _ & Hall).
      apply (Hstate expected eq_refl) in Hall; [congruence|reflexivity].
  - split.
    + intros [= <-]. exists params. cbn. repeat split; auto. discriminate.
    + intros (p & [= <-] & _ & Hc & Hs & _). rewrite Hcode in Hc. injection Hc as ->.
      destruct a; cbn in *. now subst.
Qed.

End OAuthFlowFacts.

(** ** The cache over runs of operations *)

Module CacheRunFacts.
Import Js Errors Cache CacheRuns.

Lemma length_append (s1 s2 : string) :
  String.length (s1 ++ s2) = (String.length s1 + String.length s2)%nat.
Proof.
  induction s1 as [|a s1 IH]; [reflexivity|].
  change (S (String.length (s1 ++ s2)) = S (String.length s1 + String.length s2)).
  now rewrite IH.
Qed.

Section Sizes.
Context {A : Type}.
Implicit Types (m : JsMap A).

Lemma map_size_set_present k v e m :
  map_get k m = Some e -> map_size (map_set k v m) = map_size m.
Proof.
  unfold map_size. induction m as [|[k' v'] m IH]; cbn [map_get map_set]; [discriminate|].
  destruct (String.eqb k k'); [reflexivity|]. intro Hg. cbn [length].
  specialize (IH Hg). lia.
Qed.

Lemma map_size_set k v m : map_size (map_set k v m) <= map_size m + 1.
Proof.
  unfold map_size. induction m as [|[k' v'] m IH]; cbn [map_set length]; [lia|].
  destruct (String.eqb k k'); cbn [length]; lia.
Qed.

Lemma map_size_delete k m : map_size (map_delete k m) <= map_size m.
Proof.
  unfold map_size. induction m as [|[k' v'] m IH]; cbn [map_delete length]; [lia|].
  destruct (String.eqb k k'); cbn [length]; lia.
Qed.

Lemma map_size_nonneg m : 0 <= map_size m.
Proof. unfold map_size. lia. Qed.

End Sizes.

Section Runs.
Context {V : Type} `{JsRuntime V}.
Implicit Types (c : WhoopCache V).

Lemma evictLRU_savings c :
  compressionSavings (stats (evictLRU c)) = compressionSavings (stats c).
Proof.
  unfold evictLRU. destruct (oldest _) as [k|]; [|reflexivity].
  destruct (truthy_string k); reflexivity.
Qed.

Lemma evictWhileFull_savings fuel :
  forall c c2, evictWhileFull fuel c = Some c2 ->
               compressionSavings (stats c2) = compressionSavings (stats c).
Proof.
  induction fuel as [|fuel IH]; intros c c2; cbn; destruct (is_full c);
    try discriminate; try (intros [= <-]; reflexivity).
  intro Hev. rewrite (IH _ _ Hev). apply evictLRU_savings.
Qed.

Lemma evictWhileFull_leaves_room fuel :
  forall c c2, evictWhileFull fuel c = Some c2 -> is_full c2 = false.
Proof.
  induction fuel as [|fuel IH]; intros c c2; cbn; destruct (is_full c) eqn:Hf;
    try discriminate; try (intros [= <-]; assumption).
  apply IH.
Qed.

Lemma evictLRU_size c : map_size (cache (evictLRU c)) <= map_size (cache c).
Proof.
  unfold evictLRU. destruct (oldest _) as [k|]; [|lia].
  destruct (truthy_string k); [|lia]. cbn. apply map_size_delete.
Qed.

(** What the operations do to the configuration and to the number of
    entries. *)
Lemma get_config now key c : config (snd (get now key c)) = config c.
Proof.
  unfold get. destruct (map_get key (cache c)) as [entry|]; [|reflexivity].
  destruct (now - e_timestamp entry >? e_ttl entry); [reflexivity|].
  now destruct (e_compressed entry && c_compress (config c)).
Qed.

Lemma get_size now key c : map_size (cache (snd (get now key c))) <= map_size (cache c).
Proof.
  unfold get. destruct (map_get key (cache c)) as [entry|] eqn:Hg; [|cbn; lia].
  destruct (now - e_timestamp entry >? e_ttl entry); [cbn; apply map_size_delete|].
  destruct (e_compressed entry && c_compress (config c)); cbn;
    rewrite (map_size_set_present _ _ _ _ Hg); lia.
Qed.

Lemma has_state now key c : snd (has now key c) = snd (get now key c).
Proof. unfold has. now destruct (get now key c). Qed.

Lemma deleteAll_config (ks : list string) :
  forall c, config (fold_left (fun c key => snd (delete key c)) ks c) = config c.
Proof. induction ks as [|k ks IH]; intro c; cbn; [reflexivity|]. now rewrite IH. Qed.

Lemma deleteAll_size (ks : list string) :
  forall c, map_size (cache (fold_left (fun c key => snd (delete key c)) ks c))
            <= map_size (cache c).
Proof.
  induction ks as [|k ks IH]; intro c; cbn [fold_left]; [lia|].
  etransitivity; [apply IH|]. cbn. apply map_size_delete.
Qed.

Lemma deleteAll_stats (ks : list string) :
  forall c, stats (fold_left (fun c key => snd (delete key c)) ks c) = stats c.
Proof. induction ks as [|k ks IH]; intro c; cbn; [reflexivity|]. now rewrite IH. Qed.

Lemma set_config fuel now key data customTtl c c' :
  set fuel now key data customTtl c = Some (Returns c') -> config c' = config c.
Proof.
  intro Hset. destruct (CacheFacts.set_cases fuel now key data customTtl c) as [(t & Ht)|(e & sv & Hs)];
    [congruence|].
  rewrite Hs in Hset. destruct (evictWhileFull fuel _) as [c2|] eqn:Hev; [|discriminate].
  injection Hset as <-. cbn. apply (CacheFacts.evictWhileFull_config _ _ _ Hev).
Qed.

Lemma set_size fuel now key data customTtl c c' :
  set fuel now key data customTtl c = Some (Returns c') ->
  map_size (cache c') <= Z.max 1 (c_maxSize (config c)).
Proof.
  intro Hset. destruct (CacheFacts.set_cases fuel now key data customTtl c) as [(t & Ht)|(e & sv & Hs)];
    [congruence|].
  rewrite Hs in Hset. destruct (evictWhileFull fuel _) as [c2|] eqn:Hev; [|discriminate].
  injection Hset as <-. cbn [cache].
  pose proof (evictWhileFull_leaves_room _ _ _ Hev) as Hroom.
  pose proof (CacheFacts.evictWhileFull_config _ _ _ Hev) as Hcfg. cbn in Hcfg.
  pose proof (map_size_set key e (cache c2)).
  pose proof (map_size_nonneg (cache c2)).
  unfold is_full in Hroom. rewrite Hcfg in Hroom.
  apply andb_false_iff in Hroom as [Hr|Hr]; [apply Z.leb_gt in Hr|apply Z.ltb_ge in Hr]; lia.
Qed.

Lemma apply_config fuel op c c' : apply fuel op c = Some c' -> config c' = config c.
Proof.
  destruct op as [now key|now key|now key data ttl|key|now|]; cbn [apply].
  - intros [= <-]. apply get_config.
  - intros [= <-]. rewrite has_state. apply get_config.
  - destruct (set fuel now key data ttl c) as [[c1|t]|] eqn:Hset; intros [= <-];
      [apply (set_config _ _ _ _ _ _ _ Hset)|reflexivity].
  - intros [= <-]. reflexivity.
  - intros [= <-]. apply deleteAll_config.
  - intros [= <-]. reflexivity.
Qed.

Lemma apply_size fuel op c c' :
  apply fuel op c = Some c' ->
  map_size (cache c) <= Z.max 1 (c_maxSize (config c)) ->
  map_size (cache c') <= Z.max 1 (c_maxSize (config c)).
Proof.
  destruct op as [now key|now key|now key data ttl|key|now|]; cbn [apply]; intros Hop Hsize.
  - injection Hop as <-. pose proof (get_size now key c). lia.
  - injection Hop as <-. rewrite has_state. pose proof (get_size now key c). lia.
  - destruct (set fuel now key data ttl c) as [[c1|t]|] eqn:Hset; try discriminate;
      injection Hop as <-; [apply (set_size _ _ _ _ _ _ _ Hset)|assumption].
  - injection Hop as <-. cbn [delete snd cache]. pose proof (map_size_delete key (cache c)). lia.
  - injection Hop as <-. unfold cleanup. etransitivity; [apply deleteAll_size|assumption].
  - injection Hop as <-. cbn [clear cache]. unfold map_size. cbn [length]. lia.
Qed.

Lemma run_size fuel (ops : list (Op V)) :
  forall c c', run fuel ops c = Some c' ->
    map_size (cache c) <= Z.max 1 (c_maxSize (config c)) ->
    config c' = config c /\ map_size (cache c') <= Z.max 1 (c_maxSize (config c)).
Proof.
  induction ops as [|op ops IH]; intros c c'; cbn [run].
  - intros [= <-]. auto.
  - destruct (apply fuel op c) as [c1|] eqn:Hop; [|discriminate]. intros Hrun Hsize.
    pose proof (apply_config _ _ _ _ Hop) as Hcfg.
    pose proof (apply_size _ _ _ _ Hop Hsize) as Hsize1. rewrite <- Hcfg in Hsize1.
    destruct (IH _ _ Hrun Hsize1) as [Hc Hs]. rewrite Hcfg in Hc, Hs. auto.
Qed.

(** X15. A cache configured with an integer [maxSize] never holds more
    entries than [maxSize], whatever is done with it; a [maxSize] of zero
    or less still leaves room for one entry. *)
Theorem capacity_on_runs :
  forall (fuel : nat) (cfg : CacheConfig) (ops : list (Op V)) (c : WhoopCache V),
    run fuel ops (new_WhoopCache cfg) = Some c ->
    r_size (getStats c) <= Z.max 1 (default 1000 (cfg_maxSize cfg)).
Proof.
  intros fuel cfg ops c Hrun.
  destruct (run_size fuel ops _ _ Hrun) as [_ Hs]; [|exact Hs].
  unfold new_WhoopCache, map_size. cbn [cache length]. lia.
Qed.

Lemma apply_accounted fuel op c c' :
  apply fuel op c = Some c' ->
  match op with OpSet _ key _ _ => map_get key (cache c) = None | _ => True end ->
  accounted c -> accounted c'.
Proof.
  intros Hop Hfresh Hacc.
  destruct (CacheFacts.accounting_preserved c Hacc) as (Hget & Hdel & Hclear & _ & Hclean & Hset).
  destruct op as [now key|now key|now key data ttl|key|now|]; cbn [apply] in Hop.
  - injection Hop as <-. apply Hget.
  - injection Hop as <-. rewrite has_state. apply Hget.
  - destruct (set fuel now key data ttl c) as [[c1|t]|] eqn:Hs; try discriminate;
      injection Hop as <-; [apply (Hset _ _ _ _ _ _ Hfresh Hs)|assumption].
  - injection Hop as <-. apply Hdel.
  - injection Hop as <-. apply Hclean.
  - injection Hop as <-. apply Hclear.
Qed.

Lemma run_accounted fuel (ops : list (Op V)) :
  forall c c', run fuel ops c = Some c' -> writesFreshKeys fuel ops c ->
               accounted c -> accounted c'.
Proof.
  induction ops as [|op ops IH]; intros c c'; cbn [run writesFreshKeys].
  - intros [= <-]. auto.
  - destruct (apply fuel op c) as [c1|] eqn:Hop; [|discriminate].
    intros Hrun [Hfresh Hrest] Hacc.
    apply (IH _ _ Hrun Hrest). apply (apply_accounted _ _ _ _ Hop); [|assumption].
    destruct op; auto.
Qed.

(** X16. As long as no [set] overwrites a key that is present, the memory that
    [getStats] reports is the sum of the sizes of the entries in the cache,
    through reads, expiry, deletions, evictions, [cleanup] and [clear]. *)
Theorem accounting_on_runs :
  forall (fuel : nat) (cfg : CacheConfig) (ops : list (Op V)) (c : WhoopCache V),
    run fuel ops (new_WhoopCache cfg) = Some c ->
    writesFreshKeys fuel ops (new_WhoopCache cfg) ->
    r_totalMemory (getStats c) = sumSizes c /\ List.NoDup (keys c).
Proof.
  intros fuel cfg ops c Hrun Hfresh.
  destruct (run_accounted fuel ops _ _ Hrun Hfresh) as [Hnd Hsum]; [|split; assumption].
  split; [constructor|reflexivity].
Qed.

Lemma map_delete_filter {A} k (m : JsMap A) :
  map_delete k m = List.filter (fun kv => negb (String.eqb k (fst kv))) m.
Proof.
  induction m as [|[k' v] m IH]; cbn; [reflexivity|].
  destruct (String.eqb k k'); cbn; [exact IH|now rewrite IH].
Qed.

Lemma deleteAll_cache (ks : list string) :
  forall c, cache (fold_left (fun c key => snd (delete key c)) ks c) =
            List.filter (fun kv => negb (existsb (fun k => String.eqb k (fst kv)) ks)) (cache c).
Proof.
  induction ks as [|k ks IH]; intro c; cbn [fold_left existsb].
  - induction (cache c) as [|kv m IHm]; cbn; [reflexivity|]. f_equal. exact IHm.
  - rewrite IH. cbn [delete snd cache]. rewrite map_delete_filter.
    induction (cache c) as [|kv m IHm]; cbn; [reflexivity|].
    destruct (String.eqb k (fst kv)); cbn; [exact IHm|].
    destruct (existsb _ ks); cbn; [exact IHm|now rewrite IHm].
Qed.

Lemma NoDup_keys_unique {A} (m : JsMap A) k (v1 v2 : A) :
  List.NoDup (List.map fst m) -> In (k, v1) m -> In (k, v2) m -> v1 = v2.
Proof.
  induction m as [|[k0 v0] m IH]; cbn; [tauto|]. intros Hnd H1 H2.
  inversion Hnd as [|? ? Hnotin Hnd']; subst. destruct H1 as [E1|H1], H2 as [E2|H2].
  - congruence.
  - injection E1 as -> ->. exfalso. apply Hnotin. apply (in_map fst _ _ H2).
  - injection E2 as -> ->. exfalso. apply Hnotin. apply (in_map fst _ _ H1).
  - now apply IH.
Qed.

Lemma cleanup_keys now (m : JsMap (CacheEntry V)) :
  List.map fst (filter (fun kv => (now - e_timestamp (snd kv) >? e_ttl (snd kv)) = true) m) =
  List.map fst (List.filter (fun kv => expired now (snd kv)) m).
Proof.
  unfold JsMap in *.
  induction m as [|kv m IH]; [reflexivity|]. rewrite filter_cons. cbn [List.filter].
  unfold expired at 1. destruct (now - e_timestamp (snd kv) >? e_ttl (snd kv)) eqn:He.
  - rewrite decide_True by reflexivity. cbn. now rewrite IH.
  - rewrite decide_False by discriminate. exact IH.
Qed.

(** X17. [cleanup] removes the entries whose age is above their TTL, keeps the
    others in their order, and counts neither misses nor evictions. *)
Theorem cleanup_removes_expired :
  forall (now : Z) (c : WhoopCache V),
    List.NoDup (keys c) ->
    cache (cleanup now c) =
      List.filter (fun kv => negb (now - e_timestamp (snd kv) >? e_ttl (snd kv))) (cache c) /\
    stats (cleanup now c) = stats c /\
    config (cleanup now c) = config c.
Proof.
  intros now c Hnd. unfold cleanup.
  rewrite deleteAll_stats, deleteAll_config, deleteAll_cache, cleanup_keys.
  split; [|auto]. unfold keys, map_keys in Hnd.
  apply List.filter_ext_in. intros [k e] Hin. f_equal. cbn [fst snd].
  fold (expired now e). destruct (expired now e) eqn:He.
  - apply existsb_exists. exists k. split; [|apply String.eqb_refl].
    apply (in_map fst _ (k, e)). apply List.filter_In. auto.
  - apply not_true_is_false. intro Hex. apply existsb_exists in Hex as (k' & Hk' & Heq).
    apply String.eqb_eq in Heq. cbn in Heq. subst k'.
    apply in_map_iff in Hk' as ([k2 e2] & Hfst & Hin2). cbn in Hfst. subst k2.
    apply List.filter_In in Hin2 as [Hin2 He2]. cbn in He2.
    rewrite (NoDup_keys_unique _ _ _ _ Hnd Hin2 Hin) in He2. congruence.
Qed.

End Runs.

Section Quoting.
Context {V : Type} `{JsRuntime V}.
Implicit Types (c : WhoopCache V).
Variable truthy : V -> bool.

(** [JSON.stringify] of a string is the string between quotes, with
    characters escaped: at least two characters longer. *)
Hypothesis stringify_of_string :
  forall s, exists t, JSON_stringify (of_string s) = Returns (Some t) /\
                      (String.length s + 2 <= String.length t)%nat.

Lemma set_stores_data fuel now key data customTtl c c' :
  set fuel now key data customTtl c = Some (Returns c') ->
  (exists size,
     estimateSize data = Returns size /\
     map_get key (cache c') =
       Some {| e_data := data; e_timestamp := now;
               e_ttl := default (c_ttl (config c)) customTtl;
               e_accessCount := 1; e_lastAccessed := now;
               e_compressed := false; e_size := size |}) /\
  compressionSavings (stats c') = compressionSavings (stats c) /\
  config c' = config c.
Proof.
  intro Hset. pose proof (set_config _ _ _ _ _ _ _ Hset) as Hcfg.
  revert Hset. unfold set. destruct (estimateSize data) as [size0|t] eqn:Hsize; [|discriminate].
  assert (Hplain :
            (if c_compress (config c) && (1024 <? size0)
             then match estimateSize (as_value (compress data)) with
                  | Throws t => Throws t
                  | Returns compressedSize =>
                      if 5 * compressedSize <? 4 * size0
                      then Returns (as_value (compress data), true, compressedSize,
                                    size0 - compressedSize)
                      else Returns (data, false, size0, 0)
                  end
             else Returns (data, false, size0, 0)) = Returns (data, false, size0, 0)).
  { destruct (c_compress (config c) && (1024 <? size0)) eqn:Hc; [|reflexivity].
    apply andb_true_iff in Hc as [_ Hbig]. apply Z.ltb_lt in Hbig.
    unfold estimateSize in Hsize. unfold compress.
    destruct (JSON_stringify data) as [[s|]|t]; try discriminate.
    - injection Hsize as <-. cbn [as_value]. unfold estimateSize.
      destruct (stringify_of_string s) as (t & -> & Hlen). cbn [blob_size] in *.
      destruct (Z.ltb_spec (5 * Z.of_nat (String.length t)) (4 * Z.of_nat (String.length s)));
        [lia|reflexivity].
    - injection Hsize as <-. cbn in Hbig. lia. }
  rewrite Hplain. destruct (evictWhileFull fuel _) as [c2|] eqn:Hev; [|discriminate].
  intros [= <-]. cbn [cache stats config].
  rewrite (evictWhileFull_savings _ _ _ Hev). cbn [stats add_savings compressionSavings].
  split; [|split; [lia|apply (CacheFacts.evictWhileFull_config _ _ _ Hev)]].
  exists size0. split; [reflexivity|]. apply CacheFacts.map_get_set_eq.
Qed.


(** X18. The compression of the cache never applies: the text that [compress]
    produces is measured between quotes, which makes it longer than the
    value it stands for. Every [set] stores the value as it is, marked
    uncompressed, and [compressionSavings] stays what it was. *)
Theorem compression_never_applies :
  forall (fuel : nat) (now : Z) (key : string) (data : V) (customTtl : option Z)
         (c c' : WhoopCache V),
    set fuel now key data customTtl c = Some (Returns c') ->
    (exists entry, map_get key (cache c') = Some entry /\
                   e_data entry = data /\ e_compressed entry = false) /\
    r_compressionSavings (getStats c') = r_compressionSavings (getStats c).
Proof.
  intros fuel now key data customTtl c c' Hset.
  destruct (set_stores_data _ _ _ _ _ _ _ Hset) as ((size & _ & Hget) & Hsav & _).
  split; [|exact Hsav]. eexists. split; [exact Hget|]. split; reflexivity.
Qed.

Import OptimizedHttp.

(** X19. What [request] of [OptimizedHttpClient] stores for a GET, it returns
    to the next GET of the same key within the TTL, without a request; but
    a result that is falsy (0, false, null, the empty string) is stored and
    never returned. *)
Theorem cached_result_round_trip :
  forall (fuel : nat) (cacheKey : string) (cacheTtl : option Z) (now now' : Z) (result : V)
         (s s1 : ClientState),
    storeResult fuel true false cacheKey cacheTtl now result s = Some (Returns s1) ->
    now' - now <= default (c_ttl (config (OptimizedHttp.cache s))) cacheTtl ->
    let looked := lookupCached truthy true false cacheKey now' s1 in
    fst looked = (if truthy result then Some result else None) /\
    totalRequests (metrics (snd looked)) = totalRequests (metrics s) + 1 /\
    cachedRequests (metrics (snd looked)) =
      cachedRequests (metrics s) + (if truthy result then 1 else 0).
Proof.
  intros fuel cacheKey cacheTtl now now' result s s1 Hstore Hnow. cbn zeta.
  unfold storeResult in Hstore. cbn [andb negb] in Hstore.
  destruct (set fuel now cacheKey result cacheTtl (OptimizedHttp.cache s))
    as [[cache'|t]|] eqn:Hset; try discriminate.
  injection Hstore as <-.
  destruct (set_stores_data _ _ _ _ _ _ _ Hset) as ((size & _ & Hget) & _ & _).
  unfold lookupCached. cbn [andb negb OptimizedHttp.cache metrics].
  unfold get. rewrite Hget. cbn [e_timestamp e_ttl e_compressed e_data andb].
  destruct (Z.gtb_spec (now' - now) (default (c_ttl (config (OptimizedHttp.cache s))) cacheTtl));
    [lia|].
  destruct (truthy result); cbn; repeat split; lia.
Qed.

End Quoting.

Import JsValues.

Lemma escape_length (s : string) : (String.length s <= String.length (escape s))%nat.
Proof.
  induction s as [|a s IH]; [cbn; lia|]. cbn [escape]. rewrite length_append.
  assert (1 <= String.length (escape_char a))%nat; [|cbn [String.length]; lia].
  unfold escape_char. cbn zeta.
  repeat match goal with
         | |- context [if ?b then _ else _] =>
             destruct b; [rewrite ?length_append; cbn [String.length]; lia|]
         end.
  cbn [String.length]. lia.
Qed.

Lemma JsValue_stringify_of_string (s : string) :
  exists t, JSON_stringify (of_string s) = Returns (Some t) /\
            (String.length s + 2 <= String.length t)%nat.
Proof.
  exists (quote s). split; [reflexivity|]. unfold quote.
  rewrite !length_append. pose proof (escape_length s).
  change (String.length dquote) with 1%nat. lia.
Qed.


Lemma compression_never_applies_witness :
  exists c',
    set 10 0 "k" CacheExamples.largeValue None CacheExamples.clientCache = Some (Returns c') /\
    (exists entry, map_get "k" (Cache.cache c') = Some entry /\
                   e_data entry = CacheExamples.largeValue /\ e_compressed entry = false) /\
    r_compressionSavings (getStats c') = 0.
Proof.
  eexists. split; [vm_compute; reflexivity|].
  exact (compression_never_applies JsValue_stringify_of_string 10 0 "k" CacheExamples.largeValue
           None CacheExamples.clientCache _ eq_refl).
Defined.

Lemma cached_result_round_trip_witness :
  exists s1,
    OptimizedHttp.storeResult 10 true false "GET:/v1/cycle:" None 0 (JNum 0)
      CacheExamples.clientState = Some (Returns s1) /\
    fst (OptimizedHttp.lookupCached KeyHash.truthy_value true false "GET:/v1/cycle:" 1000 s1) =
      None.
Proof.
  eexists. split; [vm_compute; reflexivity|].
  refine (proj1 (cached_result_round_trip KeyHash.truthy_value JsValue_stringify_of_string
                   10 "GET:/v1/cycle:" None 0 1000 (JNum 0) CacheExamples.clientState _
                   eq_refl _)).
  vm_compute. discriminate.
Defined.

Lemma capacity_on_runs_witness :
  exists c,
    run 10 CacheExamples.mixedOps Scenarios.testCache = Some c /\
    r_size (getStats c) <= 3.
Proof.
  eexists. split; [vm_compute; reflexivity|].
  apply (capacity_on_runs 10 Scenarios.testConfig CacheExamples.mixedOps). vm_compute. reflexivity.
Defined.

Lemma accounting_on_runs_witness :
  exists c,
    run 10 CacheExamples.mixedOps Scenarios.testCache = Some c /\
    r_totalMemory (getStats c) = sumSizes c /\ List.NoDup (keys c).
Proof.
  eexists. split; [vm_compute; reflexivity|].
  apply (accounting_on_runs 10 Scenarios.testConfig CacheExamples.mixedOps).
  - vm_compute. reflexivity.
  - vm_compute. tauto.
Defined.

Lemma cleanup_removes_expired_witness :
  let c := Scenarios.after Scenarios.testCache
             (setAll 10 Scenarios.threeItems Scenarios.testCache) in
  keys (cleanup 1002 c) = ["key3"%string] /\ stats (cleanup 1002 c) = stats c.
Proof.
  cbn zeta.
  destruct (cleanup_removes_expired 1002
              (Scenarios.after Scenarios.testCache
                 (setAll 10 Scenarios.threeItems Scenarios.testCache)))
    as (Hcache & Hstats & _).
  - vm_compute. repeat constructor; cbn; intuition discriminate.
  - split; [unfold keys; rewrite Hcache; vm_compute; reflexivity|exact Hstats].
Defined.

End CacheRunFacts.

(** ** The optimized HTTP client *)

Module OptimizedHttpFacts.
Import Js Errors Http Batching OptimizedHttp.

(** X20. What [executeRequest] does after its first [fetch]: a response that is
    ok ends the run with its JSON; an error response is tried again only
    when its status is 429 or at least 500, and is thrown as the API error
    otherwise; a [fetch] that fails is not tried again. *)
Theorem executeRequest_retry_policy :
  forall (maxRetries retryDelay : option Z) (signal_ : Retry.AbortSignal)
         (fetches : nat -> Completion (Response * string)) (random : nat -> Q),
    (forall attempt, signal_ attempt = false) ->
    2 <= default 3 maxRetries ->
    let run := executeRequest maxRetries retryDelay signal_ fetches random in
    match fetches 1%nat with
    | Returns (response, statusText) =>
        if ok response then
          forall body, r_json response = Returns body ->
                       Retry.calls run = 1%nat /\ Retry.outcome run = Returns body
        else if (r_status response =? 429) || (500 <=? r_status response) then
          (2 <= Retry.calls run)%nat
        else
          Retry.calls run = 1%nat /\
          Retry.outcome run =
            Throws (ThrownError (createErrorFromResponse response statusText))
    | Throws t =>
        match t with
        | ThrownError e => cls e = TypeError \/ cls e = PlainError
        | ThrownUndefined => True
        end ->
        Retry.calls run = 1%nat /\ Retry.outcome run = Throws t
    end.
Proof.
  intros maxRetries retryDelay signal_ fetches random Hsig Hmax. cbn zeta.
  unfold executeRequest, Retry.withRetry.
  cbn [Retry.maxAttempts Retry.baseDelayMs Retry.maxDelayMs Retry.signal].
  set (n := default 3 maxRetries) in *. change (default 3 (Some n)) with n.
  destruct (Z.to_nat n) as [|r] eqn:Hn; [lia|].
  pose proof (RetryLoopFacts.retryLoop_first (fun i => requestAttempt (fetches i)) random n
                (default 1000 (Some (default 1000 retryDelay))) (default 30000 (Some 10000))
                (Some signal_) Hsig r 1 None 0%nat []) as Hfirst.
  cbn zeta in Hfirst. cbv beta in Hfirst. unfold requestAttempt at 1 in Hfirst.
  destruct (fetches 1%nat) as [[response statusText]|t].
  - destruct (ok response); cbn [negb] in Hfirst.
    + intros body Hbody. rewrite Hbody in Hfirst. exact Hfirst.
    + destruct (Z.eqb_spec 1 n); [lia|]. cbn [orb] in Hfirst.
      unfold createErrorFromResponse in *.
      rewrite ErrorFacts.fromHttpStatus_canRetry in Hfirst.
      destruct ((r_status response =? 429) || (500 <=? r_status response));
        cbn [negb] in Hfirst; [apply Hfirst; lia|exact Hfirst].
  - intro Hcls. destruct (Z.eqb_spec 1 n); [lia|]. cbn [orb] in Hfirst.
    assert (Hno : canRetry (getRetryInfo t) = false).
    { destruct t as [|e]; [reflexivity|]. unfold getRetryInfo, isRateLimitError,
        isWhoopAPIError, isNetworkOrTimeout. destruct Hcls as [-> | ->]; reflexivity. }
    rewrite Hno in Hfirst. exact Hfirst.
Qed.

Lemma executeRequest_retry_policy_witness :
  let run := executeRequest None None BatchExamples.neverAborted BatchExamples.alwaysNotFound
               Scenarios.noJitter in
  Retry.calls run = 1%nat /\
  Retry.outcome run =
    Throws (ThrownError (createErrorFromResponse ClientExamples.notFound "Not Found")).
Proof.
  exact (executeRequest_retry_policy None None BatchExamples.neverAborted
           BatchExamples.alwaysNotFound Scenarios.noJitter (fun _ => eq_refl)
           ltac:(cbn; lia)).
Defined.

Section Batch.
Context {Req T : Type}.
Variable priorityOf : Req -> option Priority.
Variable request : Req -> Completion T.

Lemma values_all_returned (f : Req -> T) (group : list Req) :
  (forall req, In req group -> request req = Returns (f req)) ->
  failures (List.map request group) = [] /\
  values (List.map request group) = List.map f group.
Proof.
  unfold failures, values. induction group as [|req group IH]; intro Hall; [auto|].
  cbn [List.map List.concat]. rewrite (Hall req (or_introl eq_refl)).
  destruct IH as [Hf Hv]; [intros; apply Hall; now right|].
  rewrite Hf, Hv. auto.
Qed.

(** X21. When every request of a batch succeeds, the results come in the order
    high, normal, low of the priorities, each group in the order of the
    requests: not in the order in which the requests were given. *)
Theorem batch_results_follow_priority :
  forall (requests : list Req) (f : Req -> T),
    (forall req, In req requests -> request req = Returns (f req)) ->
    let ordered :=
      List.filter (inGroup priorityOf High) requests ++
      List.filter (inGroup priorityOf Normal) requests ++
      List.filter (inGroup priorityOf Low) requests in
    batch priorityOf request requests = (BatchResolved (List.map f ordered), ordered).
Proof.
  intros requests f Hall. cbn zeta. unfold batch. cbn [batchGroups].
  assert (Hgroup : forall p,
             failures (List.map request (List.filter (inGroup priorityOf p) requests)) = [] /\
             values (List.map request (List.filter (inGroup priorityOf p) requests)) =
             List.map f (List.filter (inGroup priorityOf p) requests)).
  { intro p. apply values_all_returned. intros req Hin. apply Hall.
    now apply List.filter_In in Hin as [Hin _]. }
  destruct (Hgroup High) as [-> ->], (Hgroup Normal) as [-> ->], (Hgroup Low) as [-> ->].
  cbn [app]. now rewrite !List.map_app, <- !app_assoc.
Qed.

Lemma failures_In (group : list Req) (r : Thrown) :
  In r (failures (List.map request group)) <->
  exists req, In req group /\ request req = Throws r.
Proof.
  unfold failures. induction group as [|x group IH]; cbn [List.map List.concat].
  - split; [intros []|intros (req & [] & _)].
  - rewrite in_app_iff, IH. split.
    + intros [Hx|(req & Hin & Hreq)].
      * exists x. split; [now left|]. destruct (request x) as [v|t]; [destruct Hx|].
        destruct Hx as [->|[]]. reflexivity.
      * exists req. split; [now right|assumption].
    + intros (req & [->|Hin] & Hreq).
      * left. rewrite Hreq. now left.
      * right. eauto.
Qed.

(** X22. When a high-priority request fails, the batch is rejected; the
    reasons it can be rejected with are exactly the failures of the
    high-priority requests, the given one among them; and the requests of
    the lower priorities are never issued. *)
Theorem batch_stops_at_failed_group :
  forall (requests : list Req) (req : Req) (t : Thrown),
    In req requests ->
    inGroup priorityOf High req = true ->
    request req = Throws t ->
    exists reasons,
      batch priorityOf request requests =
        (BatchRejected reasons, List.filter (inGroup priorityOf High) requests) /\
      In t reasons /\
      forall r, In r reasons <->
                exists req', In req' requests /\ inGroup priorityOf High req' = true /\
                             request req' = Throws r.
Proof.
  intros requests req t Hin Hhigh Hreq. unfold batch. cbn [batchGroups].
  assert (Hchar : forall r,
             In r (failures (List.map request
                               (List.filter (inGroup priorityOf High) requests))) <->
             exists req', In req' requests /\ inGroup priorityOf High req' = true /\
                          request req' = Throws r).
  { intro r. rewrite failures_In. split.
    - intros (req' & Hg & Hr). apply List.filter_In in Hg as [Hg Hh]. eauto.
    - intros (req' & Hg & Hh & Hr). exists req'. split; [|assumption].
      apply List.filter_In. auto. }
  assert (Hfail : In t (failures (List.map request
                                    (List.filter (inGroup priorityOf High) requests))))
    by (apply Hchar; eauto).
  destruct (failures _) as [|t0 reasons] eqn:Hf; [destruct Hfail|].
  exists (t0 :: reasons). auto.
Qed.

End Batch.

Lemma batch_results_follow_priority_witness :
  batch BatchExamples.batchPriority BatchExamples.answered ["cycles"; "recovery"; "profile"]%string =
    (BatchResolved ["data of recovery"; "data of cycles"; "data of profile"]%string,
     ["recovery"; "cycles"; "profile"]%string).
Proof.
  exact (batch_results_follow_priority BatchExamples.batchPriority BatchExamples.answered
           ["cycles"; "recovery"; "profile"]%string (fun req => ("data of " ++ req)%string)
           (fun req _ => eq_refl)).
Defined.

Lemma batch_stops_at_failed_group_witness :
  exists reasons,
    batch BatchExamples.batchPriority BatchExamples.recoveryFails
      ["cycles"; "recovery"; "profile"]%string =
      (BatchRejected reasons, ["recovery"]%string) /\
    In (ThrownError (new_Error "fetch failed")) reasons.
Proof.
  destruct (batch_stops_at_failed_group BatchExamples.batchPriority
              BatchExamples.recoveryFails
              ["cycles"; "recovery"; "profile"]%string "recovery"%string
              (ThrownError (new_Error "fetch failed"))
              (or_intror (or_introl eq_refl)) eq_refl eq_refl)
    as (reasons & Hbatch & Hin & _).
  exists reasons. split; [exact Hbatch|exact Hin].
Defined.

End OptimizedHttpFacts.

(** ** The counters of the deduplicator *)

Module DedupStatsFacts.
Import Js Errors Dedup DedupStats.

Lemma filter_length_perm {A} (f : A -> bool) (l l' : list A) :
  l ≡ₚ l' -> length (List.filter f l) = length (List.filter f l').
Proof.
  induction 1 as [|x l l' _ IH|x y l|l1 l2 l3 _ IH1 _ IH2]; cbn.
  - reflexivity.
  - destruct (f x); cbn; now rewrite IH.
  - destruct (f x), (f y); reflexivity.
  - now rewrite IH1.
Qed.

Lemma leaders_insert (m : gmap nat Running) call r :
  m !! call = None ->
  leaders (<[call := r]> m) = ((if isLeader r then 1 else 0) + leaders m)%nat.
Proof.
  intro Hnone. unfold leaders.
  rewrite (filter_length_perm _ _ _ (map_to_list_insert m call r Hnone)). cbn.
  now destruct (isLeader r).
Qed.

Lemma leaders_delete (m : gmap nat Running) call r :
  m !! call = Some r ->
  leaders m = ((if isLeader r then 1 else 0) + leaders (base.delete call m))%nat.
Proof.
  intro Hsome. unfold leaders.
  rewrite <- (filter_length_perm _ _ _ (map_to_list_delete m call r Hsome)). cbn.
  now destruct (isLeader r).
Qed.

Section Counting.
Context {R : Type}.
Implicit Types (d : RequestDeduplicator R).

Lemma counted_new cfg : counted (new_RequestDeduplicator (R := R) cfg).
Proof.
  split; [apply DedupFacts.consistent_new|]. cbn.
  split; [intros e k He; now rewrite lookup_empty in He|].
  unfold leaderCount, leaders. cbn. rewrite map_to_list_empty. cbn. lia.
Qed.

Lemma abort_keeps ref (st : gmap nat PendingRequest) e :
  is_Some (st !! e) -> is_Some (abort ref st !! e).
Proof.
  unfold abort. destruct (st !! ref) as [pr|] eqn:Href; [|auto].
  intro Hs. destruct (decide (e = ref)) as [->|Hne].
  - rewrite lookup_insert_eq. eauto.
  - now rewrite lookup_insert_ne by congruence.
Qed.

Lemma abortAll_keeps (l : list (string * nat)) :
  forall (st : gmap nat PendingRequest) e,
    is_Some (st !! e) -> is_Some (fold_left (fun st kv => abort (snd kv) st) l st !! e).
Proof.
  induction l as [|kv l IH]; intros st e Hs; cbn; [assumption|].
  apply IH. now apply abort_keeps.
Qed.

Lemma executeAdmitted_counted call key now d :
  counted d -> (call < nextId d)%nat -> running d !! call = None ->
  (forall k, ~ In (call, k) (slotQueue d)) ->
  concurrentRequests (stats d) < maxConcurrent (config d) ->
  counted (executeAdmitted call key now d).
Proof.
  intros (Hc & Hst & Hn & Hle & Hmax) Hlt Hnone Hnq Hfree.
  split; [now apply DedupFacts.executeAdmitted_consistent|].
  assert (Hfresh :
    let d' :=
      {| config := config d;
         pendingRequests := <[key := call]> (pendingRequests d);
         stats := {| dedupedRequests := dedupedRequests (stats d);
                     batchedRequests := batchedRequests (stats d);
                     concurrentRequests := concurrentRequests (stats d) + 1;
                     maxConcurrentRequests :=
                       Z.max (maxConcurrentRequests (stats d))
                             (concurrentRequests (stats d) + 1) |};
         store := <[call := {| timestamp := now; resolvers := []; rejectors := [];
                               aborted := false |}]> (store d);
         running := <[call := Leader key]> (running d);
         slotQueue := slotQueue d; results := results d;
         invocations := invocations d ++ [(call, key)];
         nextId := nextId d |} in
    (forall e k, running d' !! e = Some (Leader k) -> is_Some (store d' !! e)) /\
    concurrentRequests (stats d') = Z.of_nat (leaderCount d') /\
    concurrentRequests (stats d') <= maxConcurrentRequests (stats d') /\
    maxConcurrentRequests (stats d') <= Z.max 0 (maxConcurrent (config d'))).
  { cbn zeta. unfold leaderCount in *. cbn [running store stats config concurrentRequests
      maxConcurrentRequests]. rewrite (leaders_insert _ _ _ Hnone). cbn [isLeader].
    split; [|lia]. intros e k. destruct (decide (e = call)) as [->|Hne].
    - rewrite !lookup_insert_eq. eauto.
    - rewrite !lookup_insert_ne by congruence. apply Hst. }
  unfold executeAdmitted.
  destruct (pendingRequests d !! key) as [existing|]; [|exact Hfresh].
  destruct (store d !! existing) as [pr|] eqn:Hex; [|exact Hfresh].
  destruct (isWithinWindow now (timestamp pr) d); [|exact Hfresh].
  unfold attachToExisting. cbn [store]. rewrite Hex. unfold leaderCount in *.
  cbn [running store stats config concurrentRequests maxConcurrentRequests].
  split; [|auto]. intros e k He. destruct (decide (e = existing)) as [->|Hne].
  - rewrite lookup_insert_eq. eauto.
  - rewrite lookup_insert_ne by congruence. now apply (Hst e k).
Qed.

Lemma step_counted (e : Event (R := R)) d : counted d -> counted (step e d).
Proof.
  intro Hcounted. pose proof Hcounted as (Hc & Hst & Hn & Hle & Hmax).
  pose proof Hc as (Hp & Hr & Hq).
  assert (Hnext : running d !! nextId d = None).
  { destruct (running d !! nextId d) eqn:E; [|reflexivity]. apply Hr in E. lia. }
  split; [now apply DedupFacts.step_consistent|].
  destruct e as [key skip now|call now|exec o|key|]; cbn [step].
  - unfold execute. destruct (negb (enabled (config d)) || skip); cbn [snd].
    + unfold leaderCount in *. cbn [running store stats config].
      rewrite (leaders_insert _ _ _ Hnext). cbn [isLeader]. split; [|auto].
      intros e k. destruct (decide (e = nextId d)) as [->|Hne].
      * rewrite lookup_insert_eq. discriminate.
      * rewrite lookup_insert_ne by congruence. apply Hst.
    + destruct (Z.leb_spec (maxConcurrent (config d)) (concurrentRequests (stats d)));
        cbn [snd]; [exact (conj Hst (conj Hn (conj Hle Hmax)))|].
      apply executeAdmitted_counted; cbn; auto.
      * split; [|exact (conj Hst (conj Hn (conj Hle Hmax)))].
        unfold consistent. cbn. repeat split; auto.
        -- intros e r He. apply Hr in He. lia.
        -- apply Hq in H0. lia.
        -- now apply Hq in H0.
      * intros k Hin. apply Hq in Hin. lia.
  - unfold slotPoll.
    destruct (List.find _ (slotQueue d)) as [[c key]|] eqn:Hfind;
      [|exact (conj Hst (conj Hn (conj Hle Hmax)))].
    destruct (Z.ltb_spec (concurrentRequests (stats d)) (maxConcurrent (config d)));
      [|exact (conj Hst (conj Hn (conj Hle Hmax)))].
    apply DedupFacts.find_queue_In in Hfind. apply Hq in Hfind as [Hlt Hnone].
    apply executeAdmitted_counted; cbn; auto.
    + split; [|exact (conj Hst (conj Hn (conj Hle Hmax)))].
      unfold consistent. cbn. repeat split; auto;
        apply DedupFacts.In_filter_queue in H0 as [H0 _]; now apply Hq in H0.
    + intros k Hin. apply DedupFacts.In_filter_queue in Hin as [_ Hin]. congruence.
  - unfold settle. destruct (running d !! exec) as [[|key]|] eqn:Hrun;
      [| |exact (conj Hst (conj Hn (conj Hle Hmax)))].
    + unfold leaderCount in *. cbn [running store stats config].
      rewrite (leaders_delete _ _ _ Hrun) in Hn. cbn [isLeader] in Hn. split; [|auto].
      intros e k He. apply lookup_delete_Some in He as [_ He]. now apply (Hst e k).
    + destruct (store d !! exec) as [pr|]; [|exact (conj Hst (conj Hn (conj Hle Hmax)))].
      unfold leaderCount in *.
      cbn [running store stats config concurrentRequests maxConcurrentRequests].
      rewrite (leaders_delete _ _ _ Hrun) in Hn. cbn [isLeader] in Hn. split; [|lia].
      intros e k He. apply lookup_delete_Some in He as [_ He]. now apply (Hst e k).
  - unfold cancel. destruct (pendingRequests d !! key) as [pending|]; cbn [snd];
      [|exact (conj Hst (conj Hn (conj Hle Hmax)))].
    unfold leaderCount in *. cbn [running store stats config]. split; [|auto].
    intros e k He. apply abort_keeps. now apply (Hst e k).
  - unfold clear, leaderCount in *. cbn [running store stats config]. split; [|auto].
    intros e k He. apply abortAll_keeps. now apply (Hst e k).
Qed.

Lemma step_config (e : Event (R := R)) d : config (step e d) = config d.
Proof.
  destruct e as [key skip now|call now|exec o|key|]; cbn [step].
  - unfold execute. destruct (negb (enabled (config d)) || skip); [reflexivity|].
    destruct (maxConcurrent (config d) <=? concurrentRequests (stats d)); [reflexivity|].
    cbn [snd]. now destruct (DedupFacts.executeAdmitted_cases (nextId d) key now
      {| config := config d; pendingRequests := pendingRequests d; stats := stats d;
         store := store d; running := running d; slotQueue := slotQueue d;
         results := results d; invocations := invocations d; nextId := S (nextId d) |})
      as [(? & ? & _ & _ & _ & -> & _)|(_ & -> & _)].
  - unfold slotPoll. destruct (List.find _ (slotQueue d)) as [[c key]|]; [|reflexivity].
    destruct (concurrentRequests (stats d) <? maxConcurrent (config d)); [|reflexivity].
    match goal with |- config (executeAdmitted ?c ?k ?n ?d0) = _ =>
      now destruct (DedupFacts.executeAdmitted_cases c k n d0)
        as [(? & ? & _ & _ & _ & -> & _)|(_ & -> & _)]
    end.
  - unfold settle. destruct (running d !! exec) as [[|key]|]; try reflexivity.
    now destruct (store d !! exec).
  - unfold cancel. now destruct (pendingRequests d !! key).
  - reflexivity.
Qed.

Lemma run_counted (es : list (Event (R := R))) :
  forall d, counted d -> counted (run es d) /\ config (run es d) = config d.
Proof.
  induction es as [|e es IH]; intros d Hc; [auto|].
  change (run (e :: es) d) with (run es (step e d)).
  destruct (IH (step e d) (step_counted e d Hc)) as [Hc' Hcfg].
  split; [exact Hc'|]. now rewrite Hcfg, step_config.
Qed.

(** X23. Whatever happens to a deduplicator configured with an integer
    [maxConcurrent], [concurrentRequests] is the number of executions that
    have not settled: it is never negative, never above the high-water
    mark [maxConcurrentRequests], and that mark never passes
    [maxConcurrent]. *)
Theorem concurrency_accounting :
  forall (cfg : RequestDedupe) (es : list (Event (R := R))),
    let d := run es (new_RequestDeduplicator cfg) in
    concurrentRequests (stats d) = Z.of_nat (leaderCount d) /\
    0 <= concurrentRequests (stats d) <= maxConcurrentRequests (stats d) /\
    maxConcurrentRequests (stats d) <= Z.max 0 (default 10 (cfg_maxConcurrent cfg)).
Proof.
  intros cfg es. cbn zeta.
  destruct (run_counted es _ (counted_new cfg)) as [(_ & _ & Hn & Hle & Hmax) Hcfg].
  rewrite Hcfg in Hmax. cbn in Hmax. repeat split; auto; lia.
Qed.

(** The state of a deduplicator without slots on which nothing ever runs. *)
Lemma starved_step cfg (e : Event (R := R)) d (n : nat) :
  enabled cfg = true -> maxConcurrent cfg <= 0 -> deduplicated e ->
  (config d = cfg /\ concurrentRequests (stats d) = 0 /\ running d = ∅ /\
   pendingRequests d = ∅ /\ invocations d = [] /\ results d = ∅ /\
   length (slotQueue d) = n) ->
  config (step e d) = cfg /\ concurrentRequests (stats (step e d)) = 0 /\
  running (step e d) = ∅ /\ pendingRequests (step e d) = ∅ /\
  invocations (step e d) = [] /\ results (step e d) = ∅ /\
  length (slotQueue (step e d)) = ((if isExecute e then 1 else 0) + n)%nat.
Proof.
  intros Hen Hzero Hded (Hcfg & Hconc & Hrun & Hpend & Hinv & Hres & Hlen).
  destruct e as [key skip now|call now|exec o|key|]; cbn [step isExecute].
  - cbn in Hded. subst skip. unfold execute. rewrite Hcfg, Hen. cbn [negb orb].
    destruct (Z.leb_spec (maxConcurrent cfg) (concurrentRequests (stats d))); [|lia].
    cbn. rewrite length_app. cbn. repeat split; auto; lia.
  - unfold slotPoll. destruct (List.find _ (slotQueue d)) as [[c key]|]; [|now auto 10].
    rewrite Hcfg. destruct (Z.ltb_spec (concurrentRequests (stats d)) (maxConcurrent cfg));
      [lia|now auto 10].
  - unfold settle. rewrite Hrun, lookup_empty. now auto 10.
  - unfold cancel. rewrite Hpend, lookup_empty. cbn. now auto 10.
  - cbn. repeat split; auto.
Qed.

(** X24. With [maxConcurrent] zero or negative, no deduplicated call ever gets
    its request function invoked or its promise settled: every call waits
    for a slot, and no timer, cancellation or [clear] lets it go on. *)
Theorem no_slots_no_requests :
  forall (cfg : RequestDedupe) (es : list (Event (R := R))),
    default true (cfg_enabled cfg) = true ->
    default 10 (cfg_maxConcurrent cfg) <= 0 ->
    Forall deduplicated es ->
    let d := run es (new_RequestDeduplicator cfg) in
    invocations d = [] /\ results d = ∅ /\
    length (slotQueue d) = length (List.filter isExecute es).
Proof.
  intros cfg es Hen Hzero Hded. cbn zeta.
  set (c := config (new_RequestDeduplicator (R := R) cfg)).
  assert (Hgen : forall d n,
             (config d = c /\ concurrentRequests (stats d) = 0 /\ running d = ∅ /\
              pendingRequests d = ∅ /\ invocations d = [] /\ results d = ∅ /\
              length (slotQueue d) = n) ->
             invocations (run es d) = [] /\ results (run es d) = ∅ /\
             length (slotQueue (run es d)) = (length (List.filter isExecute es) + n)%nat).
  { induction Hded as [|e es He Hes IH]; intros d n Hinv.
    - cbn. destruct Hinv as (_ & _ & _ & _ & Hi & Hr & Hl). auto.
    - change (run (e :: es) d) with (run es (step e d)). cbn [List.filter].
      pose proof (starved_step c e d n Hen Hzero He Hinv) as Hstep.
      destruct (IH _ _ Hstep) as (Hi & Hr & Hl).
      split; [exact Hi|]. split; [exact Hr|]. rewrite Hl.
      destruct (isExecute e); cbn [length]; lia. }
  destruct (Hgen (new_RequestDeduplicator cfg) 0%nat) as (Hi & Hr & Hl);
    [cbn; now auto 10|].
  rewrite Nat.add_0_r in Hl. auto.
Qed.

End Counting.

Lemma no_slots_no_requests_witness :
  let d := run DedupExamples.waitingCalls (new_RequestDeduplicator DedupExamples.noSlots) in
  invocations d = [] /\ results d = ∅ /\ length (slotQueue d) = 2%nat.
Proof.
  apply (no_slots_no_requests DedupExamples.noSlots DedupExamples.waitingCalls).
  - reflexivity.
  - cbn. lia.
  - repeat constructor.
Defined.

End DedupStatsFacts.
